(* ===== verification/_CoqProject ===== *)
-Q . S2P
Prelude.v
Scalar.v
Matrix.v
Tiled.v
CutFinder.v
Abstract.v
Engine.v
RustFloat.v
Image.v
Budget.v
Main.v
Cli.v
Loop.v
MainIO.v
Trace.v
