(* ===== verification/Prelude.v ===== *)
(** * Verification development of angus: signed-cut image approximation

    The program, src/src/main.rs, reads an RGB image, copies its three
    channels into [f32] matrices, derives a cut budget [width] from the
    compression rate, builds one signed-cut engine
    ([cuts_v2::sct_helper::SctHelper]) per channel, calls its [cut]
    [width] times with a generator seeded with 0, expands the engine and
    writes each entry back through [to_u8].  The engine lives in the
    [cuts_v2] crate, outside src/: its model follows spec.md (sections 3,
    4.1-4.3 and 7) and its definitions are marked spec_modelled in the
    manifest.  Everything of main.rs is modelled from the source; a panic
    of the program is a value [Err p] of [result] with [p : Panic].

    Files, in dependency order:
    - [Prelude] (this file): the generator state monad [RngM] with the
      notations [x <- m ;; k] and [' p <- m ;; k] (scope [rng_scope]), the
      generator interface [Rng] (one boolean per draw; [bit_stream] is a
      list of bits used for concrete runs), the error type [result] with
      [x <-? m ;; k], [mapM], [replicateM], [mapR], [set_nth], row tiling
      [chunks], the hint database [angus] and the list lemmas shared by
      the components, and the closure operators of a transition relation
      after Leroy's [Sequences] ([star], [irred]) with the invariant
      lemma [star_invariant].
    - [Scalar]: the scalar interface, operations [ScalarOps] and the laws
      of an ordered field [ScalarLaws]; instances for canonical rationals
      [Qc] (lawful, used by the general theorems) and for [f32], IEEE
      binary32 through SpecFloat (operations only, used to run the
      program).
    - [Matrix]: matrices as lists of rows, the untiled products [matvec]
      and [rmatvec], [sqnorm], the rank-one update [rank1_sub] and the
      identity [|R - w u v^T|^2 = |R|^2 - 2 w u^T R v + w^2 n m] for sign
      vectors.
    - [Tiled]: BlockTiledMatVec (spec 4.3): [tiled_matvec],
      [tiled_rmatvec], [tiled_rank1_sub], each equal to its untiled
      counterpart for every tile size [b > 0], short last tile included.
    - [CutFinder]: CutFinder (spec 4.2): [init_v], [signs] with the random
      tie-break [sign_tb], [round], the loop [alternate] with the early
      exit, [cut_weight], [find_cut]; sign validity, optimality of each
      half-step, the objective never decreasing, independence of the tile
      size.  The engine calls the finder through the class [Finder]; the
      classes [FinderShape] and [FinderLaws] state what the engine relies
      on (sign vectors; best response, weight, first-round progress, tile
      independence), and [find_cut]'s theorems discharge them.
    - [Abstract]: the engine's contract as spec 4.1 states it: state
      [AbsEngine] (configuration, target, cut set), the residual
      recomputed as target minus [cuts_sum], [abs_discover]
      (discover_next), [abs_residual_norm], [abs_reconstruct] (re-sum of
      the cut set), [abs_run].
    - [Engine]: SignedCutEngine = [SctHelper] (spec 4.1): [create] with its
      configuration errors, [cut], [squared_norm_l2], [expand]; the states
      reachable from [create] ([reachable], by rule induction) keep the
      invariant [engine_inv] (shapes, valid cuts, residual = target minus
      [cuts_sum] of the cuts), proved against the finder's contract.
      [run_cuts] is main.rs's loop, lines 60-63.  [abs_of] maps an engine
      to its contract view; [run_cuts_refines] is the refinement.
    - [RustFloat]: the Rust numeric semantics main.rs relies on: the
      saturating casts [as usize] and [as u8] ([sat_cast]), [usize as f64],
      [u8 as f32], [usize as f32], [f32::clamp], [f32::round], [to_u8]
      (lines 77-81), the panics ([Panic]), and the rational value
      [f32_val] of an [f32] used to state what [to_u8] computes.
    - [Image]: [RgbImage], the 8-bit [DynamicImage]s [image::open]
      returns and [into_rgb8] (line 36), the decoding loop
      [decode_channels] (lines 37-47) with faer's bounds-checked writes,
      and [encode_image] (67-72), [ImageBuffer::from_fn] with [to_u8].
    - [Budget]: [nbits_per_color], [nbits_per_cut] (48-49) in [usize]
      with overflow as a panic, [cut_budget] (51-52) in binary64 with the
      saturating cast, [normalization] (59).
    - [Main]: [Args], [make_engine] (53-55), [channel_loop] (56-66) and
      [main_model] (28-75) from parsed arguments and decoded image to the
      image written.
    - [Cli]: the clap 4 parser that [#[derive(Parser)]] makes for [Args]
      (lines 7-26), run by [Args::try_parse] (35): [clap_parse] over the
      arguments with [react] per option occurrence, [parse_args] with the
      required options, and the value parsers of the fields: non-empty
      paths, [parse_usize] and [parse_f64] (Rust's [FromStr], the latter
      correctly rounded through SpecFloat).
    - [Loop]: lines 60-63 as a transition system: [LoopState] (counter,
      engine, generator, [dbg!] output), [loop_step] (one iteration),
      [loop_next] and [loop_run] (executable, with fuel), and [dbg_value],
      the [f32] value [dbg!] prints.
    - [MainIO]: [fn main]'s effects: the file system [World] (decoded
      contents by path, writable paths), [open_image] (line 36),
      [save_image] (line 73), the exits [Exit] with [exit_code], and
      [main_io], from the argument list through [parse_args] and
      [main_model] to the file system after the run.
    - [Trace]: the [dbg!] output of [main] (lines 50 and 62) as
      [DbgLine]s: [main_traced] runs [main] and collects them, the lines
      printed before a panic included.

    Theorems (the claims C1-C29 of the manifest):
    - reconstruction and the loop over the engine: the channel written is
      the sum of exactly [width] cuts (C1); the norms the loop reads never
      increase (C2), each drops by exactly [w^2 n m] (C4), the first by at
      least [(sum |T v0|)^2 / (n m)] (C5); every cut is a pair of sign
      vectors with a nonnegative weight (C3); the tile size changes
      nothing (C6);
    - the glue: decoding then encoding is the identity (C7), the channel
      matrices are the image transposed (C8), the output has the input's
      shape and byte values (C9), no matrix index is ever out of range
      (C18);
    - sign validity with the program's own [f32] arithmetic (C16);
    - errors and bounds: [SctHelper::new]'s rejection (C10), the only panic
      of the loop (C11), a zero budget (C12), [to_u8]'s assert panicking
      exactly on NaN and the infinities (C13) and its rounding to the
      nearest byte (C17), the [usize] overflow of the bit count (C14);
    - a compression rate that is not positive (negative, zero or NaN) is
      not rejected: every well-formed image is written back all black
      (C15);
    - the loop as a transition system: the invariant over reachable
      engines, by induction on executions (C19);
    - the engine refines its contract: the in-place tiled residual gives
      the same cuts, norms, generator and reconstruction as the spec's
      engine that re-sums its cut set (C20);
    - [main]'s effects: success exactly when arguments, input, computation
      and output all succeed, with the output holding the computed image
      (C21); failures change nothing and no run touches another file
      (C22);
    - the command line: rendering then parsing arguments gives them back
      (C23); a negative number given as the separate value of an option
      is refused as an unknown argument (C27); a help flag after any
      command line that parses ends [main] with an error report and exit
      code 1 (C26);
    - the [dbg!] output: the bit counts, then the red, green and blue
      loops' counters and residuals in order (C24), and a configuration
      panic comes after the bit counts and before any loop output (C25);
    - gray in, gray out: a decoded image whose pixels have equal channels
      is written back with equal channels, for any generator (C28);
    - the thread-count option has no effect on a run (C29).
    Examples document the findings on concrete inputs: the budget one
    short of the exact value ([Budget.budget_one_short]), the spec's
    scenario A ([Engine.scenario_A], [Engine.scenario_A_balanced_draws]),
    a block size of 0 panicking ([Main.zero_block_size_panics]).

    Bounds and fuel: the finder's loop runs at most [max_rounds = 16]
    rounds (spec 4.2 asks for a cap "on the order of tens"); [chunks] is
    given fuel [length] of the list, enough since every step removes
    [b > 0] rows; [run_cuts] recurses on the budget; [loop_run] is given
    fuel [width], enough since every iteration raises the counter by
    one.  [usize] is 64 bits.

    Arithmetic: the general theorems hold in every ordered field (they
    are instantiated with [Qc]); rounding is not modelled there, as the
    spec asks only for results "within floating tolerance".  The program
    itself runs with the arithmetic of the source: its channel matrices
    and the engine's computations on them are IEEE binary32 ([f32], with
    SpecFloat's rounding to nearest even), the budget is binary64 ([f64],
    Rocq's primitive floats), [usize] is 64 bits with overflow a panic.
    The generator is any [Rng] (StdRng's stream is not modelled).

    Not modelled: the texts clap prints (help, error messages; only the
    error kinds are modelled) and [dbg!]'s formatting; the image codecs
    (a file is what [image::open] decodes it to; [save] is taken
    lossless, as for PNG, and [into_rgb8] is modelled for the 8-bit
    colour types only, not the 16-bit and floating-point ones); StdRng's ChaCha stream: the draws the
    engine makes from it are made inside [cuts_v2], outside this
    repository and unspecified by spec.md, so a model of the stream
    would not determine the program's signs; the theorems hold for
    every generator. *)

From Stdlib Require Import List Lia Arith.
Import ListNotations.

(** ** The random-draw state monad *)

Definition RngM (S A : Type) : Type := S -> A * S.

Definition ret {S A : Type} (a : A) : RngM S A := fun s => (a, s).

Definition bind {S A B : Type} (m : RngM S A) (k : A -> RngM S B) : RngM S B :=
  fun s => let (a, s') := m s in k a s'.

Declare Scope rng_scope.
Delimit Scope rng_scope with rng.
Notation "x <- m ;; k" := (bind m (fun x => k))
  (at level 61, m at next level, right associativity) : rng_scope.
Notation "' p <- m ;; k" := (bind m (fun x => match x with p => k end))
  (at level 61, p pattern, m at next level, right associativity) : rng_scope.
Open Scope rng_scope.

(** A pseudo-random generator: a state that yields one boolean per draw.
    The engine takes the generator explicitly (spec 9), so two runs from
    the same state draw the same booleans. *)
Class Rng (S : Type) := { gen_bool : RngM S bool }.

(** Run [f] on each element, threading the generator left to right. *)
Fixpoint mapM {S A B : Type} (f : A -> RngM S B) (l : list A) : RngM S (list B) :=
  match l with
  | [] => ret []
  | x :: xs => y <- f x ;; ys <- mapM f xs ;; ret (y :: ys)
  end.

(** [n] draws of the same action. *)
Fixpoint replicateM {S A : Type} (n : nat) (m : RngM S A) : RngM S (list A) :=
  match n with
  | O => ret []
  | S k => x <- m ;; xs <- replicateM k m ;; ret (x :: xs)
  end.

(** Fallible results, as Rust's [Result]. *)
Inductive result (A E : Type) : Type :=
| Ok (a : A)
| Err (e : E).
Arguments Ok {A E} a.
Arguments Err {A E} e.

(** Sequencing of fallible steps. *)
Definition rbind {A B E : Type} (m : result A E) (k : A -> result B E) : result B E :=
  match m with Ok a => k a | Err e => Err e end.
Notation "x <-? m ;; k" := (rbind m (fun x => k))
  (at level 61, m at next level, right associativity) : rng_scope.

Fixpoint mapR {A B E : Type} (f : A -> result B E) (l : list A) : result (list B) E :=
  match l with
  | [] => Ok []
  | x :: xs => y <-? f x ;; ys <-? mapR f xs ;; Ok (y :: ys)
  end.

(** [l[i] = x]: replace the [i]-th element ([l] unchanged out of range). *)
Fixpoint set_nth {A : Type} (l : list A) (i : nat) (x : A) : list A :=
  match l, i with
  | [], _ => []
  | _ :: l', O => x :: l'
  | y :: l', S i' => y :: set_nth l' i' x
  end.

(** A concrete generator for evaluating the model: a finite stream of bits,
    [false] once exhausted. *)
Definition bit_stream := list bool.

#[export] Instance bit_stream_rng : Rng bit_stream :=
  { gen_bool := fun s => match s with [] => (false, []) | b :: s' => (b, s') end }.

(** ** Row tiles

    [chunks b l] cuts [l] into consecutive pieces of [b] elements, the last
    one possibly shorter.  The recursion is bounded by the length of the
    list, which is enough: each step drops at least one element when
    [b > 0]. *)
Fixpoint chunks_aux {A : Type} (fuel b : nat) (l : list A) : list (list A) :=
  match fuel with
  | O => []
  | S f =>
      match l with
      | [] => []
      | _ => firstn b l :: chunks_aux f b (skipn b l)
      end
  end.

Definition chunks {A : Type} (b : nat) (l : list A) : list (list A) :=
  chunks_aux (length l) b l.

Create HintDb angus discriminated.

(** ** Lemmas on the monad *)

Lemma bind_ret_l {S A B : Type} (a : A) (k : A -> RngM S B) s :
  bind (ret a) k s = k a s.
Proof. reflexivity. Qed.

Lemma mapM_length {S A B : Type} (f : A -> RngM S B) l s :
  length (fst (mapM f l s)) = length l.
Proof.
  revert s; induction l as [|x xs IH]; intros s; [reflexivity|].
  cbn [mapM]; unfold bind; destruct (f x s) as [y s1].
  specialize (IH s1); destruct (mapM f xs s1) as [ys s2]; cbn in *; lia.
Qed.

(** Every element produced by [mapM f] satisfies what every [f x]
    produces, whatever the generator state. *)
Lemma mapM_Forall {S A B : Type} (P : B -> Prop) (f : A -> RngM S B) l s :
  (forall x s', P (fst (f x s'))) -> Forall P (fst (mapM f l s)).
Proof.
  intros Hf; revert s; induction l as [|x xs IH]; intros s; cbn; [constructor|].
  unfold bind; specialize (Hf x s); destruct (f x s) as [y s1].
  specialize (IH s1); destruct (mapM f xs s1) as [ys s2]; cbn in *; auto.
Qed.

Lemma mapM_Forall2 {S A B : Type} (P : A -> B -> Prop) (f : A -> RngM S B) l s :
  (forall x s', P x (fst (f x s'))) -> Forall2 P l (fst (mapM f l s)).
Proof.
  intros Hf; revert s; induction l as [|x xs IH]; intros s; cbn; [constructor|].
  unfold bind; specialize (Hf x s); destruct (f x s) as [y s1].
  specialize (IH s1); destruct (mapM f xs s1) as [ys s2]; cbn in *; auto.
Qed.

Lemma replicateM_length {S A : Type} n (m : RngM S A) s :
  length (fst (replicateM n m s)) = n.
Proof.
  revert s; induction n as [|n IH]; intros s; [reflexivity|].
  cbn [replicateM]; unfold bind; destruct (m s) as [x s1].
  specialize (IH s1); destruct (replicateM n m s1) as [xs s2]; cbn in *; lia.
Qed.

Lemma replicateM_Forall {S A : Type} (P : A -> Prop) n (m : RngM S A) s :
  (forall s', P (fst (m s'))) -> Forall P (fst (replicateM n m s)).
Proof.
  intros Hm; revert s; induction n as [|n IH]; intros s; cbn; [constructor|].
  unfold bind; specialize (Hm s); destruct (m s) as [x s1].
  specialize (IH s1); destruct (replicateM n m s1) as [xs s2]; cbn in *; auto.
Qed.

(** ** Lemmas on tiles *)

Lemma chunks_aux_concat {A : Type} fuel b (l : list A) :
  0 < b -> length l <= fuel -> concat (chunks_aux fuel b l) = l.
Proof.
  revert l; induction fuel as [|f IH]; intros l Hb Hl.
  - destruct l; cbn in *; [reflexivity | lia].
  - destruct l as [|x xs]; [reflexivity|].
    cbn [chunks_aux concat]. rewrite IH; [apply firstn_skipn | exact Hb |].
    rewrite length_skipn; cbn [length] in *; lia.
Qed.

(** Tiling loses nothing, boundary tile included, when the tile size is
    positive. *)
Lemma concat_chunks {A : Type} b (l : list A) : 0 < b -> concat (chunks b l) = l.
Proof. intros Hb; apply chunks_aux_concat; lia. Qed.

Lemma chunks_aux_map {A B : Type} (f : A -> B) fuel b l :
  chunks_aux fuel b (map f l) = map (map f) (chunks_aux fuel b l).
Proof.
  revert l; induction fuel as [|k IH]; intros l; [reflexivity|].
  destruct l as [|x xs]; [reflexivity|].
  cbn [chunks_aux map]. change (f x :: map f xs) with (map f (x :: xs)).
  rewrite firstn_map, skipn_map, IH. reflexivity.
Qed.

Lemma chunks_map {A B : Type} (f : A -> B) b l :
  chunks b (map f l) = map (map f) (chunks b l).
Proof. unfold chunks; rewrite length_map; apply chunks_aux_map. Qed.

(** Each tile has at most [b] elements and is nonempty. *)
Lemma chunks_aux_shape {A : Type} fuel b (l : list A) :
  0 < b -> Forall (fun t => 0 < length t <= b) (chunks_aux fuel b l).
Proof.
  revert l; induction fuel as [|f IH]; intros l Hb; cbn; [constructor|].
  destruct l as [|x xs]; constructor; auto.
  rewrite length_firstn; cbn [length]; lia.
Qed.

Lemma Forall_firstn {A : Type} (P : A -> Prop) n l : Forall P l -> Forall P (firstn n l).
Proof.
  revert l; induction n as [|n IH]; intros [|x l] Hl; cbn; auto.
  inversion Hl; subst; constructor; auto.
Qed.

Lemma Forall_skipn {A : Type} (P : A -> Prop) n l : Forall P l -> Forall P (skipn n l).
Proof.
  revert l; induction n as [|n IH]; intros [|x l] Hl; cbn; auto.
  inversion Hl; subst; auto.
Qed.

#[export] Hint Resolve Forall_firstn Forall_skipn : angus.

(** Every tile of a list whose elements satisfy [P] has only such elements. *)
Lemma chunks_aux_Forall {A : Type} (P : A -> Prop) fuel b (l : list A) :
  Forall P l -> Forall (Forall P) (chunks_aux fuel b l).
Proof.
  revert l; induction fuel as [|f IH]; intros l Hl; cbn; [constructor|].
  destruct l as [|x l]; constructor; auto with angus.
Qed.

Lemma chunks_Forall {A : Type} (P : A -> Prop) b (l : list A) :
  Forall P l -> Forall (Forall P) (chunks b l).
Proof. apply chunks_aux_Forall. Qed.

Lemma skipn_combine {A B : Type} n (x : list A) (y : list B) :
  skipn n (combine x y) = combine (skipn n x) (skipn n y).
Proof.
  revert x y; induction n as [|n IH]; intros [|a x] [|b y]; cbn; auto.
  now rewrite combine_nil.
Qed.

(** Tiling a list of pairs is tiling both components alike. *)
Lemma chunks_aux_combine {A B : Type} fuel b (x : list A) (y : list B) :
  length x = length y ->
  chunks_aux fuel b (combine x y)
  = map (fun p => combine (fst p) (snd p)) (combine (chunks_aux fuel b x) (chunks_aux fuel b y)).
Proof.
  revert x y; induction fuel as [|f IH]; intros [|a x] [|c y] Hl; cbn [length] in Hl; try lia;
    try reflexivity.
  change (combine (a :: x) (c :: y)) with ((a, c) :: combine x y).
  cbn [chunks_aux combine map fst snd].
  change ((a, c) :: combine x y) with (combine (a :: x) (c :: y)).
  rewrite combine_firstn, skipn_combine, IH; [reflexivity|].
  rewrite !length_skipn; cbn [length]; lia.
Qed.

Lemma chunks_combine {A B : Type} b (x : list A) (y : list B) :
  length x = length y ->
  chunks b (combine x y)
  = map (fun p => combine (fst p) (snd p)) (combine (chunks b x) (chunks b y)).
Proof.
  intros Hl; unfold chunks; rewrite length_combine, Hl, Nat.min_id, <- Hl.
  now apply chunks_aux_combine.
Qed.

(** ** Lists built from index ranges *)

Lemma nth_error_map_seq {A : Type} (f : nat -> A) s n i :
  i < n -> nth_error (map f (seq s n)) i = Some (f (s + i)).
Proof.
  revert s i; induction n as [|n IH]; intros s i Hi; [lia|].
  destruct i as [|i]; cbn; [now rewrite Nat.add_0_r|].
  rewrite IH by lia. f_equal; f_equal; lia.
Qed.

Lemma set_nth_map_seq {A : Type} (f : nat -> A) s n i v :
  i < n -> set_nth (map f (seq s n)) i v = map (fun x => if Nat.eqb x (s + i) then v else f x) (seq s n).
Proof.
  revert s i; induction n as [|n IH]; intros s i Hi; [lia|].
  cbn [seq map]. destruct i as [|i]; cbn [set_nth].
  - rewrite Nat.add_0_r, Nat.eqb_refl. f_equal.
    apply map_ext_in; intros x Hx; apply in_seq in Hx.
    destruct (Nat.eqb_spec x s); [lia | reflexivity].
  - rewrite IH by lia. destruct (Nat.eqb_spec s (s + S i)); [lia|]. f_equal.
    apply map_ext; intros x. now replace (S s + i) with (s + S i) by lia.
Qed.

Lemma map_const_seq {A : Type} (a : A) s n : map (fun _ => a) (seq s n) = repeat a n.
Proof. revert s; induction n as [|n IH]; intros s; cbn; [reflexivity | now rewrite IH]. Qed.

Lemma map_nth_seq {A : Type} (l : list A) d : map (fun i => nth i l d) (seq 0 (length l)) = l.
Proof.
  induction l as [|x l IH]; [reflexivity|]. cbn [length seq map nth]. f_equal.
  rewrite <- seq_shift, map_map. exact IH.
Qed.

Lemma mapR_ok {A B E : Type} (f : A -> result B E) (g : A -> B) l :
  (forall x, In x l -> f x = Ok (g x)) -> mapR f l = Ok (map g l).
Proof.
  induction l as [|x l IH]; intros Hf; [reflexivity|]. cbn [mapR map].
  rewrite Hf by (left; reflexivity). cbn [rbind]. rewrite IH by (intros; apply Hf; right; assumption).
  reflexivity.
Qed.

Lemma mapR_Forall {A B E : Type} (P : B -> Prop) (f : A -> result B E) l ys :
  (forall x y, f x = Ok y -> P y) -> mapR f l = Ok ys -> Forall P ys.
Proof.
  intros Hf; revert ys; induction l as [|x l IH]; intros ys Hm; cbn in Hm.
  - injection Hm as <-; constructor.
  - destruct (f x) as [y|e] eqn:Ex; [|discriminate]. cbn in Hm.
    destruct (mapR f l) as [ys'|e] eqn:El; [|discriminate]. injection Hm as <-.
    constructor; [eapply Hf; eauto | now apply IH].
Qed.

(** An error out of [x <-? m ;; k] comes from [m] or from [k]. *)
Lemma rbind_Err {A B E : Type} (m : result A E) (k : A -> result B E) e :
  rbind m k = Err e -> m = Err e \/ exists x, m = Ok x /\ k x = Err e.
Proof. destruct m as [x|e']; cbn; [right; eauto | intros E'; injection E' as ->; now left]. Qed.

(** An error out of [mapR f l] is the error of [f] on an element of [l]. *)
Lemma mapR_Err {A B E : Type} (f : A -> result B E) l e :
  mapR f l = Err e -> exists x, In x l /\ f x = Err e.
Proof.
  induction l as [|x l IH]; cbn; [discriminate|].
  destruct (f x) as [y|e'] eqn:Ex; cbn.
  - destruct (mapR f l) as [ys|e''] eqn:El; cbn; [discriminate|].
    intros E'; injection E' as <-. destruct (IH eq_refl) as (x' & Hin & Hx'). exists x'; auto.
  - intros E'; injection E' as <-. exists x; auto.
Qed.

Lemma mapR_length {A B E : Type} (f : A -> result B E) l ys :
  mapR f l = Ok ys -> length ys = length l.
Proof.
  revert ys; induction l as [|x l IH]; intros ys Hm; cbn in Hm.
  - now injection Hm as <-.
  - destruct (f x) as [y|e]; [|discriminate]. cbn in Hm.
    destruct (mapR f l) as [ys'|e]; [|discriminate]. injection Hm as <-. cbn; now rewrite (IH ys').
Qed.

#[export] Hint Resolve concat_chunks chunks_aux_shape chunks_aux_Forall chunks_Forall : angus.

(** ** Transition sequences

    The closure operators of a step relation, after Leroy's
    [Sequences]: [star] for finite executions, [irred] for a state with
    no transition. *)

Section Sequences.
Context {A : Type} (R : A -> A -> Prop).

Inductive star : A -> A -> Prop :=
| star_refl a : star a a
| star_step a b c : R a b -> star b c -> star a c.

Definition irred (a : A) : Prop := forall b, ~ R a b.

Lemma star_one a b : R a b -> star a b.
Proof. eauto using star. Qed.

Lemma star_trans a b c : star a b -> star b c -> star a c.
Proof. induction 1; eauto using star. Qed.

End Sequences.

#[export] Hint Constructors star : angus.
#[export] Hint Resolve star_one star_trans : angus.

(** An invariant of the step relation holds all along an execution. *)
Lemma star_invariant {A : Type} (R : A -> A -> Prop) (P : A -> Prop) a b :
  (forall x y, R x y -> P x -> P y) -> star R a b -> P a -> P b.
Proof. intros Hpres Hab; induction Hab; eauto. Qed.
