(* ===== verification/Scalar.v ===== *)
(** * The scalar interface of the engine

    The engine's matrices hold [f32] values ([faer::Mat<f32>] in main.rs).
    Its operations are written against [ScalarOps], the arithmetic the
    code calls; the theorems are proved against [ScalarLaws], the laws of
    an ordered field, under which "equal within floating tolerance" in the
    spec becomes equality.  [Qc] (canonical rationals) is a lawful
    instance, used by the witnesses; [f32] (IEEE binary32 through
    SpecFloat) provides the operations only, so the model also runs with
    the program's arithmetic. *)

From Stdlib Require Import List Lia Arith ZArith QArith Qcanon Field.
From Stdlib Require Import SpecFloat.
From S2P Require Import Prelude.
Local Open Scope nat_scope.

Class ScalarOps (F : Type) := {
  szero : F;
  sone : F;
  sadd : F -> F -> F;
  ssub : F -> F -> F;
  smul : F -> F -> F;
  sdiv : F -> F -> F;
  sopp : F -> F;
  sinv : F -> F;
  sltb : F -> F -> bool;
  seqb : F -> F -> bool;
  (** [usize as f32] of a count, used for the [n * m] of the weight *)
  sof_nat : nat -> F
}.

Declare Scope scalar_scope.
Delimit Scope scalar_scope with S.
Notation "0" := szero : scalar_scope.
Notation "1" := sone : scalar_scope.
Infix "+" := sadd : scalar_scope.
Infix "-" := ssub : scalar_scope.
Infix "*" := smul : scalar_scope.
Infix "/" := sdiv : scalar_scope.
Notation "- x" := (sopp x) : scalar_scope.
Infix "<?" := sltb : scalar_scope.
Infix "=?" := seqb : scalar_scope.
Local Open Scope scalar_scope.

(** Strict and weak order as propositions. *)
Definition slt {F : Type} `{ScalarOps F} (x y : F) : Prop := sltb x y = true.
Definition sle {F : Type} `{ScalarOps F} (x y : F) : Prop := sltb y x = false.
Notation "x < y" := (slt x y) : scalar_scope.
Notation "x <= y" := (sle x y) : scalar_scope.

(** Absolute value, as [f32::abs]. *)
Definition sabs {F : Type} `{ScalarOps F} (x : F) : F := if x <? 0 then - x else x.

(** A sign: exactly [+1] or [-1]. *)
Definition is_sign {F : Type} `{ScalarOps F} (x : F) : Prop := x = 1 \/ x = sopp 1.

Class ScalarLaws (F : Type) `{ScalarOps F} := {
  s_field : field_theory szero sone sadd smul ssub sopp sdiv sinv (@eq F);
  seqb_spec : forall x y, seqb x y = true <-> x = y;
  sltb_irrefl : forall x, sltb x x = false;
  sltb_trans : forall x y z, x < y -> y < z -> x < z;
  sltb_total : forall x y, x <> y -> x < y \/ y < x;
  sltb_add_r : forall x y z, x < y -> x + z < y + z;
  sltb_mul_pos : forall x y, 0 < x -> 0 < y -> 0 < x * y;
  sof_nat_O : sof_nat O = 0;
  sof_nat_S : forall n, sof_nat (S n) = sof_nat n + 1
}.

(** ** Instances *)

(** Canonical rationals: an ordered field with decidable order. *)
#[export] Instance Qc_ops : ScalarOps Qc := {
  szero := Q2Qc 0; sone := Q2Qc 1;
  sadd := Qcplus; ssub := Qcminus; smul := Qcmult; sdiv := Qcdiv;
  sopp := Qcopp; sinv := Qcinv;
  sltb := fun x y => match Qccompare x y with Lt => true | _ => false end;
  seqb := fun x y => if Qc_eq_dec x y then true else false;
  sof_nat := fun n => Q2Qc (inject_Z (Z.of_nat n))
}.

(** [f32], IEEE binary32: SpecFloat's operations at precision 24 and
    maximal exponent 128, rounding to nearest with ties to even, as
    Rust's [f32] arithmetic does.  Values are in canonical form, so [=]
    on them is the equality of IEEE values (with signed zeros apart). *)
Definition f32 := spec_float.
Definition f32_prec : Z := 24.
Definition f32_emax : Z := 128.

(** The [f32] nearest to [m * 2^e]. *)
Definition f32q (m e : Z) : f32 := binary_normalize f32_prec f32_emax m e false.

(** [z as f32]: an integer rounded to the nearest [f32]. *)
Definition f32_of_Z (z : Z) : f32 := f32q z 0.

#[export] Instance f32_ops : ScalarOps f32 := {
  szero := S754_zero false; sone := f32_of_Z 1;
  sadd := SFadd f32_prec f32_emax; ssub := SFsub f32_prec f32_emax;
  smul := SFmul f32_prec f32_emax; sdiv := SFdiv f32_prec f32_emax;
  sopp := SFopp; sinv := SFdiv f32_prec f32_emax (f32_of_Z 1);
  sltb := SFltb; seqb := SFeqb;
  sof_nat := fun n => f32_of_Z (Z.of_nat n)
}.

(** Integer constants as rationals, for concrete matrices. *)
Definition qz (z : Z) : Qc := Q2Qc (inject_Z z).

Lemma Qc_sltb_spec (x y : Qc) : sltb x y = true <-> (x < y)%Qc.
Proof.
  cbn; rewrite Qclt_alt; destruct (x ?= y)%Qc; split; congruence.
Qed.

Lemma Qc_of_nat_S n : Q2Qc (inject_Z (Z.of_nat (S n))) = (Q2Qc (inject_Z (Z.of_nat n)) + 1)%Qc.
Proof.
  unfold Qcplus. apply Q2Qc_eq_iff. cbn [this Q2Qc]. rewrite !Qred_correct.
  rewrite Nat2Z.inj_succ, <- Z.add_1_r, inject_Z_plus. reflexivity.
Qed.

#[export] Instance Qc_laws : ScalarLaws Qc.
Proof.
  constructor; unfold slt.
  - exact Qcft.
  - intros x y; cbn; destruct (Qc_eq_dec x y); split; congruence.
  - intros x; cbn. assert (E : (x ?= x)%Qc = Eq) by (apply Qceq_alt; reflexivity).
    now rewrite E.
  - intros x y z; rewrite !Qc_sltb_spec; apply Qclt_trans.
  - intros x y Hne; rewrite !Qc_sltb_spec.
    destruct (Qc_dec x y) as [[?|?]|?]; auto; congruence.
  - intros x y z; rewrite !Qc_sltb_spec; intros Hlt; cbn [sadd Qc_ops].
    apply Qclt_minus_iff in Hlt; apply Qclt_minus_iff.
    replace (y + z + - (x + z))%Qc with (y + - x)%Qc by ring. exact Hlt.
  - intros x y; rewrite !Qc_sltb_spec; intros Hx Hy; cbn [smul szero Qc_ops] in *.
    rewrite <- (Qcmult_0_l y). now apply Qcmult_lt_compat_r.
  - reflexivity.
  - intros n; apply Qc_of_nat_S.
Qed.

(** ** Ordered-field facts shared by the components *)

Section OrderedField.
Context {F : Type} `{ScalarLaws F}.
Add Field sfield : s_field.

Lemma slt_asym (x y : F) : x < y -> ~ y < x.
Proof.
  intros Hxy Hyx. pose proof (sltb_trans _ _ _ Hxy Hyx) as Hxx.
  unfold slt in Hxx; rewrite sltb_irrefl in Hxx; discriminate.
Qed.

Lemma sle_refl (x : F) : x <= x.
Proof. apply sltb_irrefl. Qed.

Lemma slt_sle (x y : F) : x < y -> x <= y.
Proof.
  intros Hxy; unfold sle; destruct (sltb y x) eqn:E; [|reflexivity].
  exfalso; exact (slt_asym _ _ Hxy E).
Qed.

(** [<=] is "less than or equal", by totality of the strict order. *)
Lemma sle_cases (x y : F) : x <= y -> x < y \/ x = y.
Proof.
  intros Hle; destruct (seqb x y) eqn:E; [right; now apply seqb_spec|].
  assert (Hne : x <> y) by (intros ->; rewrite (proj2 (seqb_spec y y) eq_refl) in E; discriminate).
  destruct (sltb_total _ _ Hne) as [?|Hyx]; [now left|].
  unfold sle, slt in *; congruence.
Qed.

Lemma sle_trans (x y z : F) : x <= y -> y <= z -> x <= z.
Proof.
  intros Hxy Hyz; apply sle_cases in Hxy as [Hxy| ->]; [|exact Hyz].
  apply sle_cases in Hyz as [Hyz| <-]; [|now apply slt_sle].
  apply slt_sle; eapply sltb_trans; eauto.
Qed.

Lemma sle_add_r (x y z : F) : x <= y -> x + z <= y + z.
Proof.
  intros Hxy; apply sle_cases in Hxy as [Hxy| ->]; [|apply sle_refl].
  apply slt_sle, sltb_add_r, Hxy.
Qed.

Lemma sle_add (a b c d : F) : a <= b -> c <= d -> a + c <= b + d.
Proof.
  intros Hab Hcd. apply sle_trans with (b + c); [now apply sle_add_r|].
  rewrite (Radd_comm (F_R s_field) b c), (Radd_comm (F_R s_field) b d).
  now apply sle_add_r.
Qed.

(** [x <= y] iff [0 <= y - x]. *)
Lemma sle_add_nonneg (a b : F) : 0 <= a -> 0 <= b -> 0 <= a + b.
Proof.
  intros Ha Hb. apply sle_trans with (0 + b); [|now apply sle_add_r].
  replace (0 + b) with b by ring. exact Hb.
Qed.

Lemma sle_sub (x y : F) : x <= y <-> 0 <= y - x.
Proof.
  split; intros Hle.
  - replace 0 with (x - x) by ring. replace (y - x) with (y + - x) by ring.
    replace (x - x) with (x + - x) by ring. now apply sle_add_r.
  - replace x with (0 + x) by ring. replace y with ((y - x) + x) by ring.
    now apply sle_add_r.
Qed.

Lemma slt_opp (x : F) : x < 0 -> 0 < - x.
Proof.
  intros Hx; pose proof (sltb_add_r _ _ (- x) Hx) as Hs.
  now replace (x + - x) with 0 in Hs by ring; replace (0 + - x) with (- x) in Hs by ring.
Qed.

Lemma sle_opp (x : F) : x <= 0 -> 0 <= - x.
Proof.
  intros Hx; apply sle_cases in Hx as [Hx| ->].
  - now apply slt_sle, slt_opp.
  - replace (- 0) with (0 : F) by ring; apply sle_refl.
Qed.

Lemma sle_not_lt (x y : F) : ~ y < x -> x <= y.
Proof. unfold sle, slt; destruct (sltb y x); intuition congruence. Qed.

Lemma smul_nonneg (a b : F) : 0 <= a -> 0 <= b -> 0 <= a * b.
Proof.
  intros Ha Hb; apply sle_cases in Ha as [Ha| <-]; [|replace (0 * b) with (0 : F) by ring; apply sle_refl].
  apply sle_cases in Hb as [Hb| <-]; [|replace (a * 0) with (0 : F) by ring; apply sle_refl].
  now apply slt_sle, sltb_mul_pos.
Qed.

Lemma ssq_nonneg (x : F) : 0 <= x * x.
Proof.
  destruct (sltb x 0) eqn:Hx.
  - replace (x * x) with (- x * - x) by ring. apply smul_nonneg; apply slt_sle, slt_opp, Hx.
  - apply smul_nonneg; exact Hx.
Qed.

Lemma zero_lt_one : (0 : F) < 1.
Proof.
  assert (Hne : (0 : F) <> 1) by (intros E; apply (F_1_neq_0 s_field); auto).
  destruct (sltb_total _ _ Hne) as [?|H1]; [assumption|].
  exfalso. pose proof (sltb_mul_pos _ _ (slt_opp _ H1) (slt_opp _ H1)) as Hm.
  replace (sopp 1 * sopp 1) with (1 : F) in Hm by ring. exact (slt_asym _ _ Hm H1).
Qed.

Lemma sof_nat_pos (n : nat) : 0 < sof_nat (S n).
Proof.
  induction n as [|n IH]; rewrite sof_nat_S.
  - rewrite sof_nat_O; replace ((0 : F) + 1) with (1 : F) by ring; apply zero_lt_one.
  - pose proof (sltb_add_r _ _ 1 IH) as Hs. replace ((0 : F) + 1) with (1 : F) in Hs by ring.
    eapply sltb_trans; [apply zero_lt_one | exact Hs].
Qed.

Lemma sof_nat_nonneg (k : nat) : 0 <= sof_nat k.
Proof.
  destruct k as [|k]; [rewrite sof_nat_O; apply sle_refl|]. apply slt_sle, sof_nat_pos.
Qed.

(** Subtracting [w^2 k] never increases a value. *)
Lemma sle_sub_sq (x w : F) (k : nat) : x - w * w * sof_nat k <= x.
Proof.
  apply sle_sub. replace (x - (x - w * w * sof_nat k)) with (w * w * sof_nat k) by ring.
  apply smul_nonneg; [apply ssq_nonneg | apply sof_nat_nonneg].
Qed.

Lemma sof_nat_neq0 (k : nat) : (0 < k)%nat -> sof_nat k <> 0.
Proof.
  intros Hk E; destruct k as [|k]; [lia|]. pose proof (sof_nat_pos k) as Hp.
  rewrite E in Hp; unfold slt in Hp; rewrite sltb_irrefl in Hp; discriminate.
Qed.

Lemma sof_nat_mul (n m : nat) : sof_nat (n * m) = sof_nat n * sof_nat m.
Proof.
  assert (Hadd : forall a b, sof_nat (a + b) = sof_nat a + sof_nat b).
  { intros a b; induction a as [|a IH]; cbn [Nat.add].
    - rewrite sof_nat_O; ring.
    - rewrite !sof_nat_S, IH; ring. }
  induction n as [|n IH]; cbn [Nat.mul].
  - rewrite sof_nat_O; ring.
  - rewrite Hadd, IH, sof_nat_S; ring.
Qed.

Lemma sinv_pos (x : F) : 0 < x -> 0 < sinv x.
Proof.
  intros Hx. assert (Hne : x <> 0) by (intros ->; unfold slt in Hx; rewrite sltb_irrefl in Hx; discriminate).
  assert (Hi : sinv x <> 0).
  { intros Hi. apply (F_1_neq_0 s_field). rewrite <- (Finv_l s_field x Hne), Hi; ring. }
  destruct (sltb_total _ _ Hi) as [Hn|?]; [|assumption].
  exfalso. pose proof (sltb_mul_pos _ _ Hx (slt_opp _ Hn)) as Hm.
  replace (x * - sinv x) with (- (sinv x * x)) in Hm by ring.
  rewrite (Finv_l s_field x Hne) in Hm. pose proof (sltb_add_r _ _ 1 Hm) as Hs.
  replace ((0 : F) + 1) with (1 : F) in Hs by ring; replace (sopp 1 + 1) with (0 : F) in Hs by ring.
  exact (slt_asym _ _ Hs zero_lt_one).
Qed.

Lemma sdiv_nonneg (a b : F) : 0 <= a -> 0 < b -> 0 <= a / b.
Proof.
  intros Ha Hb. rewrite (Fdiv_def s_field). apply smul_nonneg; [exact Ha|].
  now apply slt_sle, sinv_pos.
Qed.

Lemma sle_mul_l (a b c : F) : 0 <= c -> a <= b -> c * a <= c * b.
Proof.
  intros Hc Hab; apply sle_sub in Hab; apply sle_sub.
  replace (c * b - c * a) with (c * (b - a)) by ring. now apply smul_nonneg.
Qed.

(** Squaring is monotone on nonnegative values. *)
Lemma sle_sq_mono (a b : F) : 0 <= a -> a <= b -> a * a <= b * b.
Proof.
  intros Ha Hab. apply sle_trans with (a * b); [now apply sle_mul_l|].
  rewrite (Rmul_comm (F_R s_field) a b). apply sle_mul_l; [|exact Hab].
  eapply sle_trans; eauto.
Qed.

Lemma sle_div_mono (a b N : F) : 0 < N -> a <= b -> a / N <= b / N.
Proof.
  intros HN Hab; apply sle_sub in Hab; apply sle_sub.
  replace (b / N - a / N) with ((b - a) / N) by (rewrite !(Fdiv_def s_field); ring).
  now apply sdiv_nonneg.
Qed.

Lemma sabs_nonneg (x : F) : 0 <= sabs x.
Proof.
  unfold sabs; destruct (sltb x 0) eqn:Hx; [now apply slt_sle, slt_opp|exact Hx].
Qed.

Lemma is_sign_sq (s : F) : is_sign s -> s * s = 1.
Proof. intros [-> | ->]; ring. Qed.

Lemma is_sign_opp (s : F) : is_sign s -> is_sign (- s).
Proof. intros [-> | ->]; [right; reflexivity | left; ring]. Qed.

(** A sign times [x] is at most [|x|]: the key step of the alternating
    maximisation. *)
Lemma sign_mul_le_abs (s x : F) : is_sign s -> s * x <= sabs x.
Proof.
  intros Hs; unfold sabs; destruct (sltb x 0) eqn:Hx.
  - destruct Hs as [-> | ->]; [|replace (sopp 1 * x) with (- x) by ring; apply sle_refl].
    apply sle_sub. replace (- x - 1 * x) with (- x + - x) by ring.
    replace 0 with ((0 : F) + 0) by ring.
    apply sle_add; apply slt_sle, slt_opp, Hx.
  - destruct Hs as [-> | ->]; [replace (1 * x) with x by ring; apply sle_refl|].
    apply sle_sub. replace (x - sopp 1 * x) with (x + x) by ring.
    replace 0 with ((0 : F) + 0) by ring. now apply sle_add.
Qed.
End OrderedField.

(** Discharge [Forall is_sign [..]] on concrete vectors. *)
Ltac solve_signs :=
  repeat first [ apply Forall_nil | apply Forall_cons | (left; reflexivity) | (right; reflexivity) ].

#[export] Hint Resolve sle_refl sle_add sle_add_nonneg ssq_nonneg smul_nonneg sabs_nonneg sdiv_nonneg : angus.
