(* ===== verification/Matrix.v ===== *)
(** * Dense matrices and the untiled reference operations

    A matrix is a list of rows ([faer::Mat<f32>] in main.rs, row [i] is
    [mat[(i, _)]]).  This file holds the direct, untiled computations the
    spec takes as the reference for BlockTiledMatVec (spec 4.3): [R v],
    [R^T u], the squared L2 norm, the rank-one update
    [R -= w (u outer v)] and the outer product itself, with the algebra
    the engine's theorems need: transposition of the bilinear form and
    the norm of a signed rank-one update. *)

From Stdlib Require Import List Lia Arith Field.
From S2P Require Import Prelude Scalar.
Import ListNotations.

Section Matrix.
Context {F : Type} `{ScalarOps F}.
Local Open Scope scalar_scope.

(** Pointwise combination of two vectors (stops at the shorter one). *)
Fixpoint zipw (f : F -> F -> F) (x y : list F) : list F :=
  match x, y with
  | a :: x', b :: y' => f a b :: zipw f x' y'
  | _, _ => []
  end.

Definition vsum (x : list F) : F := fold_right sadd 0 x.
Definition dot (x y : list F) : F := vsum (zipw smul x y).
Definition vadd (x y : list F) : list F := zipw sadd x y.
Definition scale (c : F) (x : list F) : list F := map (smul c) x.
Definition vzeros (m : nat) : list F := repeat 0 m.

(** [R v]: one dot product per row. *)
Definition matvec (R : list (list F)) (v : list F) : list F :=
  map (fun row => dot row v) R.

(** [R^T u] accumulated row by row: [sum_i u_i * row_i], starting from
    the zero vector of the column count. *)
Fixpoint rmatvec (m : nat) (R : list (list F)) (u : list F) : list F :=
  match R, u with
  | row :: R', ui :: u' => vadd (scale ui row) (rmatvec m R' u')
  | _, _ => vzeros m
  end.

(** [squared_norm_l2]: the sum of the squares of all entries. *)
Definition sqnorm (R : list (list F)) : F := vsum (map (fun row => dot row row) R).

(** One row of [R -= w (u outer v)]: [r_ij - w * (u_i * v_j)]. *)
Definition row_update (w ui : F) (row v : list F) : list F :=
  zipw (fun rij vj => rij - w * (ui * vj)) row v.

Definition rank1_sub (R : list (list F)) (u v : list F) (w : F) : list (list F) :=
  map (fun p => row_update w (fst p) (snd p) v) (combine u R).

(** [w (u outer v)] and the entrywise sum and difference of matrices. *)
Definition outer (u v : list F) (w : F) : list (list F) :=
  map (fun ui => map (fun vj => w * (ui * vj)) v) u.

Definition madd (A B : list (list F)) : list (list F) :=
  map (fun p => vadd (fst p) (snd p)) (combine A B).

Definition msub (A B : list (list F)) : list (list F) :=
  map (fun p => zipw ssub (fst p) (snd p)) (combine A B).

Definition mzeros (n m : nat) : list (list F) := repeat (vzeros m) n.

(** [R] has [n] rows of [m] entries. *)
Definition mat_wf (n m : nat) (R : list (list F)) : Prop :=
  length R = n /\ Forall (fun row => length row = m) R.
End Matrix.

(** ** Algebra of the reference operations *)

Section MatrixLaws.
Context {F : Type} `{ScalarLaws F}.
Add Field sfield_m : s_field.
Local Open Scope scalar_scope.

Lemma zipw_length (f : F -> F -> F) x y :
  length x = length y -> length (zipw f x y) = length x.
Proof. revert y; induction x; intros [|b y] Hl; cbn in *; auto; lia. Qed.

Lemma vsum_cons (a : F) x : vsum (a :: x) = a + vsum x.
Proof. reflexivity. Qed.

Lemma vsum_app (x y : list F) : vsum (x ++ y) = vsum x + vsum y.
Proof. unfold vsum; induction x as [|a x IH]; cbn; [ring| rewrite IH; ring]. Qed.

Lemma dot_cons (a b : F) x y : dot (a :: x) (b :: y) = a * b + dot x y.
Proof. reflexivity. Qed.

Lemma dot_nil_l (y : list F) : dot [] y = 0.
Proof. reflexivity. Qed.

Lemma dot_nil_r (x : list F) : dot x [] = 0.
Proof. destruct x; reflexivity. Qed.

Lemma dot_comm (x y : list F) : dot x y = dot y x.
Proof.
  revert y; induction x as [|a x IH]; intros [|b y];
    rewrite ?dot_nil_l, ?dot_nil_r, ?dot_cons; try reflexivity.
  rewrite IH; ring.
Qed.

Lemma dot_vadd_r (x y z : list F) :
  length y = length z -> dot x (vadd y z) = dot x y + dot x z.
Proof.
  revert y z; induction x as [|a x IH]; intros [|b y] [|c z] Hl; cbn in Hl; try lia;
    unfold vadd in *; cbn [zipw]; rewrite ?dot_nil_l, ?dot_nil_r, ?dot_cons; try ring.
  rewrite IH by lia. ring.
Qed.

Lemma dot_scale_r (x y : list F) c : dot x (scale c y) = c * dot x y.
Proof.
  revert y; induction x as [|a x IH]; intros [|b y];
    unfold scale in *; cbn [map]; rewrite ?dot_nil_l, ?dot_nil_r, ?dot_cons; try ring.
  rewrite IH. ring.
Qed.

Lemma dot_vzeros_r (x : list F) m : dot x (vzeros m) = 0.
Proof.
  revert m; induction x as [|a x IH]; intros [|m];
    unfold vzeros in *; cbn [repeat]; rewrite ?dot_nil_l, ?dot_nil_r, ?dot_cons; try reflexivity.
  rewrite IH. ring.
Qed.

Lemma rmatvec_length m (R : list (list F)) u :
  Forall (fun row => length row = m) R -> length (rmatvec m R u) = m.
Proof.
  revert u; induction R as [|row R IH]; intros [|ui u] HR; cbn;
    try (apply repeat_length); inversion HR; subst.
  unfold vadd, scale; rewrite zipw_length; rewrite ?length_map; auto.
  now rewrite IH.
Qed.

(** The bilinear form can be read through either product:
    [u . (R v) = v . (R^T u)]. *)
Lemma dot_matvec_rmatvec m (R : list (list F)) u v :
  Forall (fun row => length row = m) R -> length v = m -> length u = length R ->
  dot u (matvec R v) = dot v (rmatvec m R u).
Proof.
  revert u; induction R as [|row R IH]; intros [|ui u] HR Hv Hu; cbn [length] in Hu; try lia.
  - cbn [rmatvec]; rewrite dot_nil_l, dot_vzeros_r; reflexivity.
  - inversion HR; subst. cbn [rmatvec].
    change (matvec (row :: R) v) with (dot row v :: matvec R v); rewrite dot_cons.
    rewrite dot_vadd_r by (unfold scale; rewrite length_map, rmatvec_length; auto).
    rewrite dot_scale_r, <- IH by (auto; lia).
    rewrite (dot_comm row v). ring.
Qed.

(** Squared norm of a row minus a multiple of a vector. *)
Lemma dot_row_update (w ui : F) row v :
  length row = length v ->
  dot (row_update w ui row v) (row_update w ui row v)
  = dot row row - (1 + 1) * (w * ui) * dot row v + (w * ui) * (w * ui) * dot v v.
Proof.
  revert v; induction row as [|r row IH]; intros [|b v] Hl; cbn in Hl; try lia.
  - unfold row_update; cbn [zipw]; rewrite !dot_nil_l; ring.
  - unfold row_update in *; cbn [zipw]; rewrite !dot_cons, IH by lia. ring.
Qed.

Lemma dot_signs (v : list F) : Forall is_sign v -> dot v v = sof_nat (length v).
Proof.
  induction v as [|b v IH]; intros Hv; cbn [length].
  - now rewrite dot_nil_l, sof_nat_O.
  - inversion Hv; subst. rewrite dot_cons, IH, sof_nat_S by auto.
    rewrite is_sign_sq by auto. ring.
Qed.
(** The squared norm after subtracting [w (u outer v)] with sign vectors
    [u], [v]: [|R|^2 - 2 w (u . R v) + w^2 n m]. *)
Lemma sqnorm_rank1_sub n m (R : list (list F)) u v w :
  mat_wf n m R -> length u = n -> Forall is_sign u ->
  length v = m -> Forall is_sign v ->
  sqnorm (rank1_sub R u v w)
  = sqnorm R - (1 + 1) * w * dot u (matvec R v) + w * w * sof_nat (n * m).
Proof.
  intros [HRn HRm] Hun Hu Hvm Hv; subst n m.
  revert u Hun Hu; induction R as [|row R IH]; intros [|ui u] Hun Hu; cbn [length] in Hun; try lia.
  - unfold rank1_sub, sqnorm, matvec; cbn [combine map vsum fold_right Nat.mul].
    rewrite dot_nil_l, sof_nat_O; ring.
  - inversion HRm; inversion Hu; subst.
    unfold rank1_sub; cbn [combine map fst snd]. fold (rank1_sub R u v w).
    change (sqnorm (row_update w ui row v :: rank1_sub R u v w))
      with (dot (row_update w ui row v) (row_update w ui row v) + sqnorm (rank1_sub R u v w)).
    change (sqnorm (row :: R)) with (dot row row + sqnorm R).
    change (matvec (row :: R) v) with (dot row v :: matvec R v); rewrite dot_cons.
    rewrite IH by (auto; lia). rewrite dot_row_update by auto.
    rewrite (dot_signs v Hv). cbn [length]; rewrite !sof_nat_mul, sof_nat_S.
    rewrite <- (is_sign_sq ui) by auto. ring.
Qed.

Lemma msub_cons (a b : list F) A B : msub (a :: A) (b :: B) = zipw ssub a b :: msub A B.
Proof. reflexivity. Qed.

Lemma mzeros_S n m : mzeros (F := F) (S n) m = vzeros m :: mzeros n m.
Proof. reflexivity. Qed.

(** ** Entrywise identities (they hold whatever the shapes, since
    every operation stops at the shorter operand) *)

Lemma rank1_sub_msub (R : list (list F)) u v w :
  rank1_sub R u v w = msub R (outer u v w).
Proof.
  assert (Hrow : forall ui row, row_update w ui row v
                 = zipw ssub row (map (fun vj => w * (ui * vj)) v)).
  { intros ui row; revert v; induction row as [|r row IHr]; intros [|b v]; cbn; auto.
    f_equal; apply IHr. }
  revert u; induction R as [|row R IH]; intros [|ui u]; cbn; auto.
  f_equal; [apply Hrow | apply IH].
Qed.

Lemma msub_msub (A B C : list (list F)) : msub (msub A B) C = msub A (madd B C).
Proof.
  assert (Hrow : forall a b c : list F, zipw ssub (zipw ssub a b) c = zipw ssub a (vadd b c)).
  { induction a as [|x a IHa]; intros [|y b] [|z c]; cbn; auto.
    f_equal; [ring | apply IHa]. }
  revert B C; induction A as [|a A IH]; intros [|b B] [|c C]; cbn; auto.
  f_equal; [apply Hrow | apply IH].
Qed.

Lemma vsub_vsub_cancel (a b : list F) : length a = length b -> zipw ssub a (zipw ssub a b) = b.
Proof.
  revert b; induction a as [|x a IH]; intros [|y b] Hl; cbn in *; try lia; auto.
  f_equal; [ring | apply IH; lia].
Qed.

Lemma msub_msub_cancel n m (A B : list (list F)) :
  mat_wf n m A -> mat_wf n m B -> msub A (msub A B) = B.
Proof.
  intros [HAn HAm] [HBn HBm]; subst n.
  revert B HBn HBm; induction A as [|a A IH]; intros [|b B] HBn HBm; cbn in *; try lia; auto.
  inversion HAm; inversion HBm; subst.
  f_equal; [apply vsub_vsub_cancel; congruence | apply IH; auto].
Qed.

Lemma vsub_self (a : list F) : zipw ssub a a = vzeros (length a).
Proof. induction a as [|x a IH]; cbn; auto. rewrite IH; f_equal; ring. Qed.

Lemma msub_self n m (A : list (list F)) : mat_wf n m A -> msub A A = mzeros n m.
Proof.
  intros [HAn HAm]; subst n; induction A as [|a A IH]; [reflexivity|].
  inversion HAm; subst. rewrite msub_cons.
  rewrite vsub_self, IH by auto. reflexivity.
Qed.

Lemma vsub_vzeros (a : list F) : zipw ssub a (vzeros (length a)) = a.
Proof.
  induction a as [|x a IH]; [reflexivity|].
  change (vzeros (length (x :: a))) with (0 :: vzeros (F := F) (length a)).
  cbn [zipw]; rewrite IH; f_equal; ring.
Qed.

Lemma msub_mzeros n m (A : list (list F)) : mat_wf n m A -> msub A (mzeros n m) = A.
Proof.
  intros [HAn HAm]; subst n; induction A as [|a A IH]; [reflexivity|].
  inversion HAm; subst. cbn [length]; rewrite mzeros_S, msub_cons.
  rewrite vsub_vzeros, IH by auto. reflexivity.
Qed.

(** ** Shapes *)

Lemma mat_wf_zipw n m (f : F -> F -> F) (A B : list (list F)) :
  mat_wf n m A -> mat_wf n m B ->
  mat_wf n m (map (fun p => zipw f (fst p) (snd p)) (combine A B)).
Proof.
  intros [HAn HAm] [HBn HBm]; split.
  - rewrite length_map, length_combine; lia.
  - subst n; revert B HBn HBm; induction A as [|a A IH]; intros [|b B] HBn HBm; cbn in *;
      try lia; constructor; inversion HAm; inversion HBm; subst.
    + rewrite zipw_length; congruence.
    + apply IH; auto.
Qed.

Lemma mat_wf_outer (u v : list F) w : mat_wf (length u) (length v) (outer u v w).
Proof.
  split; unfold outer; [apply length_map|].
  apply Forall_map, Forall_forall; intros; apply length_map.
Qed.

Lemma mat_wf_mzeros n m : mat_wf n m (mzeros (F := F) n m).
Proof.
  split; unfold mzeros; [apply repeat_length|].
  apply Forall_forall; intros x Hx; apply repeat_spec in Hx; subst; apply repeat_length.
Qed.

Lemma mat_wf_rank1_sub n m (R : list (list F)) u v w :
  mat_wf n m R -> length u = n -> length v = m -> mat_wf n m (rank1_sub R u v w).
Proof.
  intros HR Hu Hv; rewrite rank1_sub_msub. apply mat_wf_zipw; auto.
  subst; apply mat_wf_outer.
Qed.
End MatrixLaws.

#[export] Hint Resolve zipw_length rmatvec_length mat_wf_outer mat_wf_mzeros : angus.
