(* ===== verification/Tiled.v ===== *)
(** * BlockTiledMatVec: tile-by-tile products and update (spec 4.3)

    The rows of [R] are cut into tiles of [b] rows ([chunks b R], the last
    tile possibly shorter).  [R v] is computed tile by tile and the pieces
    concatenated; [R^T u] accumulates each tile's partial column sums into
    the output, tile after tile; the rank-one update rewrites each tile's
    rows from that tile and the matching slice of [u] alone.  The theorems
    show the three agree with the direct computations of [Matrix] for
    every tile size [b > 0], whether or not [b] divides the row count. *)

From Stdlib Require Import List Lia Arith ZArith QArith Qcanon Field.
From S2P Require Import Prelude Scalar Matrix.
Import ListNotations.
Local Open Scope nat_scope.

Section Tiled.
Context {F : Type} `{ScalarOps F}.

(** [R v]: each tile's slice of the output depends on that tile only. *)
Definition tiled_matvec (b : nat) (R : list (list F)) (v : list F) : list F :=
  concat (map (fun T => matvec T v) (chunks b R)).

(** [R^T u]: accumulate within a tile, then add the tile's partial sums
    into the running output. *)
Definition tiled_rmatvec (b m : nat) (R : list (list F)) (u : list F) : list F :=
  fold_left (fun acc p => vadd acc (rmatvec m (fst p) (snd p)))
            (combine (chunks b R) (chunks b u)) (vzeros m).

(** [R -= w (u outer v)]: every tile reads and writes its own rows. *)
Definition tiled_rank1_sub (b : nat) (R : list (list F)) (u v : list F) (w : F)
  : list (list F) :=
  concat (map (fun p => rank1_sub (snd p) (fst p) v w) (combine (chunks b u) (chunks b R))).
End Tiled.

(** The tiled [R^T u] has one entry per column in any arithmetic: the
    accumulator keeps length [m] through every tile. *)
Lemma tiled_rmatvec_length {F : Type} `{ScalarOps F} b m (R : list (list F)) u :
  Forall (fun row => length row = m) R -> length (tiled_rmatvec b m R u) = m.
Proof.
  intros HR; unfold tiled_rmatvec.
  assert (Hc : Forall (fun p => Forall (fun row => length row = m) (fst p))
                      (combine (chunks b R) (chunks b u))).
  { apply Forall_forall; intros [T uT] Hp; apply in_combine_l in Hp; cbn [fst].
    pose proof (chunks_Forall _ b R HR) as Hf; rewrite Forall_forall in Hf; auto. }
  assert (Hacc : length (vzeros (F := F) m) = m) by apply repeat_length.
  revert Hc Hacc. generalize (combine (chunks b R) (chunks b u)) as ps.
  generalize (vzeros (F := F) m) as acc.
  intros acc ps Hc; revert acc; induction Hc as [|p ps Hp _ IH]; intros acc Hacc; cbn [fold_left]; auto.
  apply IH. unfold vadd; rewrite zipw_length; [exact Hacc|].
  rewrite Hacc; symmetry; now apply rmatvec_length.
Qed.

Section TiledLaws.
Context {F : Type} `{ScalarLaws F}.
Add Field sfield_t : s_field.

Lemma vadd_assoc (a b c : list F) : vadd (vadd a b) c = vadd a (vadd b c).
Proof.
  unfold vadd; revert b c; induction a as [|x a IH]; intros [|y b] [|z c]; cbn; auto.
  f_equal; [ring | apply IH].
Qed.

Lemma vadd_vzeros_l m (x : list F) : length x = m -> vadd (vzeros m) x = x.
Proof.
  intros <-; induction x as [|y x IH]; [reflexivity|].
  unfold vadd, vzeros in *; cbn; rewrite IH; f_equal; ring.
Qed.

Lemma vadd_vzeros_r m (x : list F) : length x = m -> vadd x (vzeros m) = x.
Proof.
  intros <-; induction x as [|y x IH]; [reflexivity|].
  unfold vadd, vzeros in *; cbn; rewrite IH; f_equal; ring.
Qed.

(** [R^T u] splits along a split of the rows. *)
Lemma rmatvec_app m (R1 R2 : list (list F)) u1 u2 :
  length R1 = length u1 ->
  Forall (fun row => length row = m) R1 -> Forall (fun row => length row = m) R2 ->
  rmatvec m (R1 ++ R2) (u1 ++ u2) = vadd (rmatvec m R1 u1) (rmatvec m R2 u2).
Proof.
  revert u1; induction R1 as [|row R1 IH]; intros [|ui u1] Hl H1 H2; cbn [length] in Hl; try lia.
  - cbn [app rmatvec]; symmetry; apply vadd_vzeros_l, rmatvec_length, H2.
  - inversion H1; subst; cbn [app rmatvec]. rewrite IH by auto. now rewrite vadd_assoc.
Qed.

Lemma tiled_rmatvec_aux m fuel b (R : list (list F)) u acc :
  0 < b -> length R <= fuel -> length u = length R -> length acc = m ->
  Forall (fun row => length row = m) R ->
  fold_left (fun acc p => vadd acc (rmatvec m (fst p) (snd p)))
            (combine (chunks_aux fuel b R) (chunks_aux fuel b u)) acc
  = vadd acc (rmatvec m R u).
Proof.
  intros Hb; revert R u acc; induction fuel as [|f IH]; intros R u acc HR Hu Hacc HRm.
  - destruct R; cbn in HR; [|lia]. destruct u; cbn in Hu; [|lia].
    cbn; symmetry; now apply vadd_vzeros_r.
  - destruct R as [|row R'], u as [|ui u']; cbn [length] in Hu; try lia.
    + cbn; symmetry; now apply vadd_vzeros_r.
    + cbn [chunks_aux combine fold_left fst snd].
      rewrite IH.
      * rewrite vadd_assoc, <- rmatvec_app; rewrite ?firstn_skipn; auto.
        -- rewrite !length_firstn; cbn [length]; lia.
        -- now apply Forall_firstn.
        -- now apply Forall_skipn.
      * rewrite length_skipn; cbn [length] in *; lia.
      * rewrite !length_skipn; cbn [length] in *; lia.
      * unfold vadd; rewrite zipw_length; auto. rewrite Hacc; symmetry; apply rmatvec_length.
        now apply Forall_firstn.
      * now apply Forall_skipn.
Qed.

(** ** Equivalence with the untiled computations *)

(** For every tile size [b > 0], the tiled [R v] equals the direct
    one, whether or not [b] divides the number of rows (the short last
    tile is neither dropped nor read past its end). *)
Theorem tiled_matvec_correct b (R : list (list F)) v :
  0 < b -> tiled_matvec b R v = matvec R v.
Proof.
  intros Hb; unfold tiled_matvec, matvec.
  rewrite <- (concat_chunks b R Hb) at 2. now rewrite concat_map.
Qed.

(** Accumulating [R^T u] tile by tile (partial sums inside a tile,
    then added to the running output) equals the direct row-by-row
    accumulation, for every tile size [b > 0]. *)
Theorem tiled_rmatvec_correct b m (R : list (list F)) u :
  0 < b -> Forall (fun row => length row = m) R -> length u = length R ->
  tiled_rmatvec b m R u = rmatvec m R u.
Proof.
  intros Hb HR Hu; unfold tiled_rmatvec, chunks.
  rewrite Hu, tiled_rmatvec_aux by (auto; apply repeat_length).
  apply vadd_vzeros_l, rmatvec_length, HR.
Qed.

(** The tile-by-tile rank-one update, each tile using only its rows
    and its slice of [u], equals the update of the whole matrix. *)
Theorem tiled_rank1_sub_correct b (R : list (list F)) u v w :
  0 < b -> length u = length R -> tiled_rank1_sub b R u v w = rank1_sub R u v w.
Proof.
  intros Hb Hu; unfold tiled_rank1_sub, rank1_sub.
  rewrite <- (concat_chunks b (combine u R) Hb), concat_map, chunks_combine by exact Hu.
  rewrite map_map. reflexivity.
Qed.
End TiledLaws.

(** ** Witnesses: three rows in tiles of two (a short last tile) *)

Definition R3x2 : list (list Qc) := [[qz 1; qz 2]; [qz 3; qz (-4)]; [qz 5; qz 6]].

Lemma tiled_matvec_correct_witness :
  0 < 2 /\ tiled_matvec 2 R3x2 [qz 1; qz (-1)] = [qz (-1); qz 7; qz (-1)].
Proof.
  split; [lia|]. rewrite (tiled_matvec_correct 2 R3x2 [qz 1; qz (-1)]) by lia.
  vm_compute; reflexivity.
Defined.

Lemma tiled_rmatvec_correct_witness :
  0 < 2 /\ Forall (fun row => length row = 2) R3x2 /\ length [qz 1; qz 1; qz (-1)] = length R3x2
  /\ tiled_rmatvec 2 2 R3x2 [qz 1; qz 1; qz (-1)] = [qz (-1); qz (-8)].
Proof.
  split; [lia|]. split; [repeat constructor|]. split; [reflexivity|].
  rewrite (tiled_rmatvec_correct 2 2 R3x2 [qz 1; qz 1; qz (-1)]) by (repeat constructor || reflexivity || lia).
  vm_compute; reflexivity.
Defined.

Lemma tiled_rank1_sub_correct_witness :
  0 < 2 /\ length [qz 1; qz 1; qz (-1)] = length R3x2
  /\ tiled_rank1_sub 2 R3x2 [qz 1; qz 1; qz (-1)] [qz 1; qz (-1)] (qz 2)
     = [[qz (-1); qz 4]; [qz 1; qz (-2)]; [qz 7; qz 4]].
Proof.
  split; [lia|]. split; [reflexivity|].
  rewrite (tiled_rank1_sub_correct 2 R3x2 [qz 1; qz 1; qz (-1)] [qz 1; qz (-1)] (qz 2))
    by (reflexivity || lia).
  vm_compute; reflexivity.
Defined.
