(* ===== verification/CutFinder.v ===== *)
(** * CutFinder: alternating maximisation of one signed cut (spec 4.2)

    Given the residual [R] ([n] rows of [m] entries), the finder draws a
    random sign vector [v], then alternates [u := sign (R v)] and
    [v := sign (R^T u)] (both products through BlockTiledMatVec) for at
    most [max_rounds] rounds, stopping early when neither vector changed.
    A component that is exactly zero takes its sign from one more draw of
    the generator.  The weight is [u^T R v / (n m)].

    Theorems: every produced vector is a sign vector of the right length;
    each half-step picks the best sign vector against the current product;
    the objective [u^T R v] never decreases from one round to the next;
    the final [v] is the best response to the final [u], so the weight is
    nonnegative. *)

From Stdlib Require Import List Lia Arith ZArith QArith Qcanon Field.
From S2P Require Import Prelude Scalar Matrix Tiled.
Import ListNotations.
Local Open Scope nat_scope.

(** A discovered cut: [weight * (u outer v)]. *)
Record Cut (F : Type) := mk_cut { cut_u : list F; cut_v : list F; cut_w : F }.
Arguments mk_cut {F}.
Arguments cut_u {F}.
Arguments cut_v {F}.
Arguments cut_w {F}.

(** The round cap (spec 4.2 step 2, "on the order of tens"; a tunable). *)
Definition max_rounds : nat := 16.

Section CutFinder.
Context {F : Type} `{ScalarOps F} {G : Type} `{Rng G}.

(** A random sign from one draw. *)
Definition sign_of_draw (b : bool) : F := if b then sone else sopp sone.

Definition draw_sign : RngM G F := b <- gen_bool ;; ret (sign_of_draw b).

(** [sign(x)], an exact zero resolved by a draw (spec 4.2 step 3). *)
Definition sign_tb (x : F) : RngM G F :=
  if sltb szero x then ret sone
  else if sltb x szero then ret (sopp sone)
  else draw_sign.

Definition signs (p : list F) : RngM G (list F) := mapM sign_tb p.

(** Step 1: the initial [v], one draw per column. *)
Definition init_v (m : nat) : RngM G (list F) := replicateM m draw_sign.

(** Step 2a and 2b: one round. *)
Definition round (b m : nat) (R : list (list F)) (v : list F) : RngM G (list F * list F) :=
  u <- signs (tiled_matvec b R v) ;;
  v' <- signs (tiled_rmatvec b m R u) ;;
  ret (u, v').

Fixpoint veqb (x y : list F) : bool :=
  match x, y with
  | [], [] => true
  | a :: x', c :: y' => seqb a c && veqb x' y'
  | _, _ => false
  end.

(** Further rounds, at most [fuel], with the early exit when [u] and [v]
    stopped changing. *)
Fixpoint alternate (fuel b m : nat) (R : list (list F)) (u v : list F)
  : RngM G (list F * list F) :=
  match fuel with
  | O => ret (u, v)
  | S k =>
      '(u', v') <- round b m R v ;;
      if andb (veqb u' u) (veqb v' v) then ret (u', v') else alternate k b m R u' v'
  end.

(** Step 4: [weight = u^T R v / (n m)]. *)
Definition cut_weight (b n m : nat) (R : list (list F)) (u v : list F) : F :=
  sdiv (dot u (tiled_matvec b R v)) (sof_nat (n * m)).

(** One call: initial draw, a first round, then up to [max_rounds - 1]
    more. *)
Definition find_cut (b n m : nat) (R : list (list F)) : RngM G (Cut F) :=
  v0 <- init_v m ;;
  '(u1, v1) <- round b m R v0 ;;
  '(u, v) <- alternate (max_rounds - 1) b m R u1 v1 ;;
  ret (mk_cut u v (cut_weight b n m R u v)).
End CutFinder.

Section CutFinderLaws.
Context {F : Type} `{ScalarLaws F} {G : Type} `{Rng G}.
Add Field sfield_c : s_field.

(** The objective of a pair of sign vectors: [u^T R v]. *)
Definition objective (R : list (list F)) (u v : list F) : F := dot u (matvec R v).

(** [v] is a best response to [u]: [v . (R^T u) = sum_j |(R^T u)_j|]. *)
Definition best_response (m : nat) (R : list (list F)) (u v : list F) : Prop :=
  dot v (rmatvec m R u) = vsum (map sabs (rmatvec m R u)).

(** The shape every pair produced by the finder has. *)
Definition sign_pair (n m : nat) (u v : list F) : Prop :=
  length u = n /\ Forall is_sign u /\ length v = m /\ Forall is_sign v.

Lemma draw_sign_is_sign (s : G) : is_sign (fst (draw_sign s)).
Proof.
  unfold draw_sign, bind, ret; destruct (gen_bool s) as [[|] s']; cbn; [left|right]; reflexivity.
Qed.

Lemma sign_tb_is_sign (x : F) (s : G) : is_sign (fst (sign_tb x s)).
Proof.
  unfold sign_tb; destruct (sltb szero x); [left; reflexivity|].
  destruct (sltb x szero); [right; reflexivity|apply draw_sign_is_sign].
Qed.

(** Whatever the tie-break draws, the chosen sign times [x] is [|x|]. *)
Lemma sign_tb_abs (x : F) (s : G) : smul (fst (sign_tb x s)) x = sabs x.
Proof.
  unfold sign_tb, sabs; destruct (sltb szero x) eqn:Hpos.
  - cbn [fst ret]. destruct (sltb x szero) eqn:Hneg; [|ring].
    exfalso; exact (slt_asym _ _ Hpos Hneg).
  - destruct (sltb x szero) eqn:Hneg; cbn [fst ret]; [ring|].
    assert (Hx : x = szero).
    { destruct (seqb x szero) eqn:E; [now apply seqb_spec|].
      assert (Hne : x <> szero) by (intros ->; rewrite (proj2 (seqb_spec _ _) eq_refl) in E; discriminate).
      destruct (sltb_total _ _ Hne) as [Hl|Hl]; unfold slt in Hl; congruence. }
    subst x; ring.
Qed.

Lemma signs_shape (p : list F) (s : G) :
  length (fst (signs p s)) = length p /\ Forall is_sign (fst (signs p s)).
Proof.
  split; [apply mapM_length|]. apply mapM_Forall; intros; apply sign_tb_is_sign.
Qed.

Lemma vsum_abs_nonneg (p : list F) : sle szero (vsum (map sabs p)).
Proof.
  induction p as [|x p IH]; cbn [map]; [apply sle_refl|].
  rewrite vsum_cons; apply sle_add_nonneg; [apply sabs_nonneg | exact IH].
Qed.

Lemma signs_dot (p : list F) (s : G) : dot (fst (signs p s)) p = vsum (map sabs p).
Proof.
  pose proof (mapM_Forall2 (fun x y => smul y x = sabs x) sign_tb p s (sign_tb_abs)) as HF.
  unfold signs; induction HF as [|x y p t Hxy HF IH]; [reflexivity|].
  rewrite dot_cons, Hxy, IH; reflexivity.
Qed.

Lemma dot_sign_le (t p : list F) : Forall is_sign t -> sle (dot t p) (vsum (map sabs p)).
Proof.
  intros Ht; revert p; induction Ht as [|a t Ha Ht IH]; intros p.
  - rewrite dot_nil_l; apply vsum_abs_nonneg.
  - destruct p as [|x p]; [rewrite dot_nil_r; apply sle_refl|].
    rewrite dot_cons; cbn [map]; rewrite vsum_cons.
    apply sle_add; [apply sign_mul_le_abs, Ha | apply IH].
Qed.

Section Shape.
Context (b n m : nat) (R : list (list F)).
Hypothesis Hb : 0 < b.
Hypothesis HR : mat_wf n m R.

Lemma tiled_products_length (u v : list F) :
  length u = n -> length (tiled_matvec b R v) = n /\ length (tiled_rmatvec b m R u) = m.
Proof.
  intros Hu; destruct HR as [HRn HRm]. split.
  - rewrite tiled_matvec_correct by exact Hb. unfold matvec; now rewrite length_map.
  - rewrite tiled_rmatvec_correct by (auto; congruence). now apply rmatvec_length.
Qed.

(** One round from a sign vector [v]: a sign pair, [v'] the best
    response to [u'], [u'] the best response to [v], and the objective
    at least [sum_i |(R v)_i|]. *)
Lemma round_spec (v : list F) (s : G) :
  length v = m -> Forall is_sign v ->
  let '(u', v') := fst (round b m R v s) in
  sign_pair n m u' v' /\ best_response m R u' v'
  /\ sle (vsum (map sabs (matvec R v))) (objective R u' v').
Proof.
  intros Hvm Hv. destruct HR as [HRn HRm].
  unfold round, bind, ret.
  destruct (signs (tiled_matvec b R v) s) as [u' s1] eqn:E1.
  destruct (signs (tiled_rmatvec b m R u') s1) as [v' s2] eqn:E2. cbn [fst].
  pose proof (signs_shape (tiled_matvec b R v) s) as [Hu'l Hu']; rewrite E1 in Hu'l, Hu'; cbn in Hu'l, Hu'.
  pose proof (signs_shape (tiled_rmatvec b m R u') s1) as [Hv'l Hv']; rewrite E2 in Hv'l, Hv'; cbn in Hv'l, Hv'.
  pose proof (signs_dot (tiled_matvec b R v) s) as Du; rewrite E1 in Du; cbn [fst] in Du.
  pose proof (signs_dot (tiled_rmatvec b m R u') s1) as Dv; rewrite E2 in Dv; cbn [fst] in Dv.
  assert (Hu'n : length u' = n).
  { rewrite Hu'l, tiled_matvec_correct by exact Hb. unfold matvec; now rewrite length_map. }
  pose proof (tiled_products_length u' v Hu'n) as [Lp Lq].
  rewrite tiled_matvec_correct in Du, Lp by exact Hb.
  rewrite tiled_rmatvec_correct in Dv, Lq, Hv'l by (auto; congruence).
  split; [repeat split; auto; congruence|]. split; [exact Dv|].
  unfold objective.
  rewrite (dot_matvec_rmatvec m R u' v') by (auto; congruence).
  rewrite <- Du, (dot_matvec_rmatvec m R u' v) by (auto; congruence).
  rewrite Dv. apply dot_sign_le, Hv.
Qed.

(** The loop keeps a best-responding sign pair and never lowers the
    objective, whether it stops early or runs out of rounds. *)
Lemma alternate_spec fuel (u v : list F) (s : G) :
  sign_pair n m u v -> best_response m R u v ->
  let '(u', v') := fst (alternate fuel b m R u v s) in
  sign_pair n m u' v' /\ best_response m R u' v' /\ sle (objective R u v) (objective R u' v').
Proof.
  revert u v s; induction fuel as [|k IH]; intros u v s Huv Hbr; cbn [alternate].
  - cbn; split; [|split]; auto; apply sle_refl.
  - unfold bind at 1. destruct Huv as (Hul & Hu & Hvl & Hv).
    pose proof (round_spec v s Hvl Hv) as Hr.
    destruct (round b m R v s) as [[u1 v1] s1]; cbn [fst] in Hr |- *.
    destruct Hr as (Hsp1 & Hbr1 & Hobj1).
    assert (Hle : sle (objective R u v) (objective R u1 v1))
      by (eapply sle_trans; [apply dot_sign_le, Hu | exact Hobj1]).
    destruct (andb (veqb u1 u) (veqb v1 v)); [cbn; auto|].
    specialize (IH u1 v1 s1 Hsp1 Hbr1).
    destruct (fst (alternate k b m R u1 v1 s1)) as [u2 v2].
    destruct IH as (? & ? & ?); split; [|split]; auto. eapply sle_trans; eauto.
Qed.

Lemma init_v_shape (s : G) :
  length (fst (init_v m s)) = m /\ Forall is_sign (fst (init_v m s)).
Proof.
  split; [apply replicateM_length|]. apply replicateM_Forall; intros; apply draw_sign_is_sign.
Qed.

(** Everything one call of the finder guarantees. *)
Lemma find_cut_spec (s : G) :
  let c := fst (find_cut b n m R s) in
  sign_pair n m (cut_u c) (cut_v c) /\ best_response m R (cut_u c) (cut_v c)
  /\ sle (vsum (map sabs (matvec R (fst (init_v m s))))) (objective R (cut_u c) (cut_v c))
  /\ cut_w c = sdiv (objective R (cut_u c) (cut_v c)) (sof_nat (n * m)).
Proof.
  pose proof (init_v_shape s) as [Hv0l Hv0].
  cbv zeta; unfold find_cut, bind.
  destruct (init_v m s) as [v0 s0]; cbn [fst] in Hv0l, Hv0.
  pose proof (round_spec v0 s0 Hv0l Hv0) as Hr.
  destruct (round b m R v0 s0) as [[u1 v1] s1]; cbn [fst] in Hr.
  destruct Hr as (Hsp1 & Hbr1 & Hobj1).
  pose proof (alternate_spec (max_rounds - 1) u1 v1 s1 Hsp1 Hbr1) as Ha.
  destruct (alternate (max_rounds - 1) b m R u1 v1 s1) as [[u v] s2].
  cbn [fst] in Ha. destruct Ha as (Hsp & Hbr & Hobj). unfold ret; cbn [fst cut_u cut_v cut_w].
  split; [exact Hsp|]. split; [exact Hbr|]. split; [eapply sle_trans; eauto|].
  unfold cut_weight, objective; now rewrite tiled_matvec_correct.
Qed.
End Shape.

(** ** Independence of the tile size

    The tile size changes only how the products are scheduled: on a
    well-formed residual, a round, the loop of rounds, the weight and
    so the whole finder give the same result for every [b > 0]. *)

Section BlockIndep.
Context (b1 b2 n m : nat) (R : list (list F)).
Hypothesis Hb1 : 0 < b1.
Hypothesis Hb2 : 0 < b2.
Hypothesis HR : mat_wf n m R.

Lemma round_block_indep (v : list F) (s : G) : round b1 m R v s = round b2 m R v s.
Proof.
  destruct HR as [HRn HRm]. unfold round, bind.
  rewrite !tiled_matvec_correct by assumption.
  destruct (signs (matvec R v) s) as [u s1] eqn:E.
  assert (Hu : length u = length R).
  { pose proof (signs_shape (matvec R v) s) as [Hl _]. rewrite E in Hl; cbn in Hl.
    rewrite Hl; unfold matvec; now rewrite length_map. }
  now rewrite !tiled_rmatvec_correct by assumption.
Qed.

Lemma alternate_block_indep fuel (u v : list F) (s : G) :
  alternate fuel b1 m R u v s = alternate fuel b2 m R u v s.
Proof.
  revert u v s; induction fuel as [|k IH]; intros u v s; [reflexivity|].
  cbn [alternate]; unfold bind. rewrite round_block_indep.
  destruct (round b2 m R v s) as [[u1 v1] s1].
  destruct (andb (veqb u1 u) (veqb v1 v)); [reflexivity | apply IH].
Qed.

Lemma find_cut_block_indep (s : G) : find_cut b1 n m R s = find_cut b2 n m R s.
Proof.
  unfold find_cut, bind. destruct (init_v m s) as [v0 s0].
  rewrite round_block_indep. destruct (round b2 m R v0 s0) as [[u1 v1] s1].
  rewrite alternate_block_indep. destruct (alternate _ b2 m R u1 v1 s1) as [[u v] s2].
  unfold ret, cut_weight. now rewrite !tiled_matvec_correct by assumption.
Qed.
End BlockIndep.

(** ** Properties of the search *)

(** Each half-step is optimal: [sign(p)], whatever the tie-break
    draws, scores at least as much against [p] as any sign vector. *)
Theorem signs_optimal (t p : list F) (s : G) :
  Forall is_sign t -> sle (dot t p) (dot (fst (signs p s)) p).
Proof. intros Ht; rewrite signs_dot; now apply dot_sign_le. Qed.

(** A round never lowers the objective [u^T R v] of a sign pair. *)
Theorem round_objective_nondecreasing b n m (R : list (list F)) (u v : list F) (s : G) :
  0 < b -> mat_wf n m R -> sign_pair n m u v ->
  let '(u', v') := fst (round b m R v s) in sle (objective R u v) (objective R u' v').
Proof.
  intros Hb HR (Hul & Hu & Hvl & Hv).
  pose proof (round_spec b n m R Hb HR v s Hvl Hv) as Hr.
  destruct (fst (round b m R v s)) as [u' v']. destruct Hr as (_ & _ & Hobj).
  eapply sle_trans; [apply dot_sign_le, Hu | exact Hobj].
Qed.



End CutFinderLaws.

(** ** Sign validity in any arithmetic

    The shape of the finder's output does not depend on the field laws:
    with IEEE [f32] arithmetic as with exact rationals, [u] and [v] are
    sign vectors of lengths [n] and [m]. *)

Section ShapeOps.
Context {F : Type} `{ScalarOps F} {G : Type} `{Rng G}.
Context (b n m : nat) (R : list (list F)).
Hypothesis Hb : 0 < b.
Hypothesis HR : mat_wf n m R.

Lemma round_sign_pair (v : list F) (s : G) :
  let '(u', v') := fst (round b m R v s) in sign_pair n m u' v'.
Proof.
  destruct HR as [HRn HRm]. unfold round, bind, ret.
  destruct (signs (tiled_matvec b R v) s) as [u' s1] eqn:E1.
  destruct (signs (tiled_rmatvec b m R u') s1) as [v' s2] eqn:E2. cbn [fst].
  pose proof (signs_shape (tiled_matvec b R v) s) as [Hl1 Hs1]; rewrite E1 in Hl1, Hs1; cbn in Hl1, Hs1.
  pose proof (signs_shape (tiled_rmatvec b m R u') s1) as [Hl2 Hs2]; rewrite E2 in Hl2, Hs2; cbn in Hl2, Hs2.
  rewrite tiled_matvec_correct in Hl1 by exact Hb. rewrite tiled_rmatvec_length in Hl2 by exact HRm.
  unfold matvec in Hl1; rewrite length_map in Hl1.
  unfold sign_pair; repeat split; auto; congruence.
Qed.

Lemma alternate_sign_pair fuel (u v : list F) (s : G) :
  sign_pair n m u v -> let '(u', v') := fst (alternate fuel b m R u v s) in sign_pair n m u' v'.
Proof.
  revert u v s; induction fuel as [|k IH]; intros u v s Huv; cbn [alternate]; [exact Huv|].
  unfold bind at 1. pose proof (round_sign_pair v s) as Hr.
  destruct (round b m R v s) as [[u1 v1] s1]; cbn [fst] in Hr.
  destruct (andb (veqb u1 u) (veqb v1 v)); [exact Hr | apply IH, Hr].
Qed.

Lemma find_cut_sign_pair (s : G) :
  sign_pair n m (cut_u (fst (find_cut b n m R s))) (cut_v (fst (find_cut b n m R s))).
Proof.
  unfold find_cut, bind. destruct (init_v m s) as [v0 s0].
  pose proof (round_sign_pair v0 s0) as Hr.
  destruct (round b m R v0 s0) as [[u1 v1] s1]; cbn [fst] in Hr.
  pose proof (alternate_sign_pair (max_rounds - 1) u1 v1 s1 Hr) as Ha.
  destruct (alternate _ b m R u1 v1 s1) as [[u v] s2]; cbn [fst] in Ha. exact Ha.
Qed.
End ShapeOps.

(** ** The finder's contract with the engine

    The engine calls the finder through [Finder]; [FinderShape] states
    what the engine relies on in any arithmetic, [FinderLaws] what it
    relies on in an ordered field.  [find_cut] discharges both. *)

Class Finder (F G : Type) := find : nat -> nat -> nat -> list (list F) -> RngM G (Cut F).

Class FinderShape (F G : Type) `{ScalarOps F} `{Finder F G} : Prop :=
  finder_sign_pair : forall b n m (R : list (list F)) (s : G), 0 < b -> mat_wf n m R ->
    sign_pair n m (cut_u (fst (find b n m R s))) (cut_v (fst (find b n m R s))).

Class FinderLaws (F G : Type) `{ScalarLaws F} `{Rng G} `{Finder F G} : Prop := {
  finder_shape :: FinderShape F G;
  finder_optimal : forall b n m (R : list (list F)) (s : G), 0 < b -> mat_wf n m R ->
    best_response m R (cut_u (fst (find b n m R s))) (cut_v (fst (find b n m R s)))
    /\ cut_w (fst (find b n m R s))
       = sdiv (objective R (cut_u (fst (find b n m R s))) (cut_v (fst (find b n m R s))))
              (sof_nat (n * m));
  finder_beats_initial : forall b n m (R : list (list F)) (s : G), 0 < b -> mat_wf n m R ->
    sle (vsum (map sabs (matvec R (fst (init_v m s)))))
        (objective R (cut_u (fst (find b n m R s))) (cut_v (fst (find b n m R s))));
  finder_block_indep : forall b1 b2 n m (R : list (list F)) (s : G),
    0 < b1 -> 0 < b2 -> mat_wf n m R -> find b1 n m R s = find b2 n m R s
}.

#[export] Instance find_cut_finder {F G : Type} `{ScalarOps F} `{Rng G} : Finder F G := find_cut.

#[export] Instance find_cut_shape {F G : Type} `{ScalarOps F} `{Rng G} : FinderShape F G.
Proof. intros b n m R s Hb HR. exact (find_cut_sign_pair b n m R Hb HR s). Qed.

#[export] Instance find_cut_laws {F G : Type} `{ScalarLaws F} `{Rng G} : FinderLaws F G.
Proof.
  split.
  - exact find_cut_shape.
  - intros b n m R s Hb HR. destruct (find_cut_spec b n m R Hb HR s) as (_ & Hbr & _ & Hw).
    split; assumption.
  - intros b n m R s Hb HR. exact (proj1 (proj2 (proj2 (find_cut_spec b n m R Hb HR s)))).
  - intros b1 b2 n m R s Hb1 Hb2 HR. exact (find_cut_block_indep b1 b2 n m R Hb1 Hb2 HR s).
Qed.

(** Under the contract the weight of a cut is nonnegative: the final
    [v] is the best response to the final [u], so [u^T R v = sum |R^T u|]. *)
Lemma finder_weight_nonneg {F G : Type} `{FinderLaws F G} b n m (R : list (list F)) (s : G) :
  0 < b -> 0 < n -> 0 < m -> mat_wf n m R -> sle szero (cut_w (fst (find b n m R s))).
Proof.
  intros Hb Hn Hm HR. destruct (finder_optimal b n m R s Hb HR) as [Hbr Hw].
  pose proof (finder_sign_pair b n m R s Hb HR) as (Hul & _ & Hvl & _).
  rewrite Hw. destruct n as [|n']; [lia|]. destruct m as [|m']; [lia|].
  apply sdiv_nonneg; [|cbn [Nat.mul]; apply sof_nat_pos].
  unfold objective. rewrite (dot_matvec_rmatvec (S m')) by (destruct HR; auto; congruence).
  unfold best_response in Hbr; rewrite Hbr. apply vsum_abs_nonneg.
Qed.

(** ** Witnesses on a 2 x 2 residual, one-row tiles *)

Definition R2x2 : list (list Qc) := [[qz 1; qz 2]; [qz 3; qz 4]].
Definition bits_tf : bit_stream := [true; false].

Lemma mat_wf_R2x2 : mat_wf 2 2 R2x2.
Proof. split; [reflexivity | repeat constructor]. Qed.

Lemma signs_optimal_witness :
  Forall is_sign [qz 1; qz 1] /\
  sle (dot [qz 1; qz 1] [qz 3; qz (-5)]) (dot (fst (signs (G := bit_stream) [qz 3; qz (-5)] bits_tf)) [qz 3; qz (-5)]).
Proof.
  assert (Ht : Forall is_sign [qz 1; qz 1]) by solve_signs.
  split; [exact Ht | exact (signs_optimal _ _ bits_tf Ht)].
Defined.

Lemma round_objective_nondecreasing_witness :
  0 < 1 /\ mat_wf 2 2 R2x2 /\ sign_pair 2 2 [qz 1; qz (-1)] [qz (-1); qz 1] /\
  (let '(u', v') := fst (round (G := bit_stream) 1 2 R2x2 [qz (-1); qz 1] bits_tf) in
   sle (objective R2x2 [qz 1; qz (-1)] [qz (-1); qz 1]) (objective R2x2 u' v')).
Proof.
  assert (Hp : sign_pair 2 2 [qz 1; qz (-1)] [qz (-1); qz 1])
    by (split; [reflexivity|split; [solve_signs|split; [reflexivity|solve_signs]]]).
  split; [lia|]. split; [exact mat_wf_R2x2|]. split; [exact Hp|].
  exact (round_objective_nondecreasing 1 2 2 R2x2 _ _ bits_tf ltac:(lia) mat_wf_R2x2 Hp).
Defined.




(** On this input the cut is [u = v = (-1, -1)] with weight [10 / 4]. *)
Example find_cut_R2x2 :
  let c := fst (find_cut (G := bit_stream) 1 2 2 R2x2 bits_tf) in
  (veqb (cut_u c) [qz (-1); qz (-1)] && veqb (cut_v c) [qz (-1); qz (-1)]
   && seqb (cut_w c) (Q2Qc (5 # 2)))%bool = true.
Proof. vm_compute; reflexivity. Qed.
