(* ===== verification/Abstract.v ===== *)
(** * The engine's contract (spec 4.1), stated without its data layout

    Spec 4.1 describes SignedCutEngine by what its operations mean: the
    residual is the target minus the re-summed cut set, [discover_next]
    runs the finder on that residual and appends the cut,
    [residual_norm] is the squared norm of that residual, [reconstruct]
    re-sums the cut set.  [AbsEngine] keeps only the configuration, the
    target and the cut set, and every operation recomputes the residual
    from them.  [Engine] implements this contract with an in-place
    residual updated tile by tile; its theorem [run_cuts_refines] shows
    that the implementation computes exactly what this specification
    does, in exact arithmetic. *)

From Stdlib Require Import List Lia Arith.
From S2P Require Import Prelude Scalar Matrix Tiled CutFinder.
Import ListNotations.
Local Open Scope nat_scope.

(** Configuration errors of [create] (spec 7). *)
Inductive ConfigError := ZeroRows | ZeroCols | ZeroTileSize.

Section Abstract.
Context {F : Type} `{ScalarOps F} {G : Type} `{Rng G} `{Finder F G}.

(** The direct re-sum of the cuts' outer products, in discovery order. *)
Definition cuts_sum (n m : nat) (cs : list (Cut F)) : list (list F) :=
  fold_left (fun acc c => madd acc (outer (cut_u c) (cut_v c) (cut_w c))) cs (mzeros n m).

(** The engine's state as the spec names it: dimensions, tile size,
    [target_count], TargetMatrix and CutSet. *)
Record AbsEngine := mk_abs {
  abs_nrows : nat;
  abs_ncols : nat;
  abs_block : nat;
  abs_count : nat;
  abs_target : list (list F);
  abs_cuts : list (Cut F)
}.

(** [create(target, tile_size, target_count)]. *)
Definition abs_create (n m : nat) (target : list (list F)) (block count : nat)
  : result AbsEngine ConfigError :=
  if Nat.eqb n 0 then Err ZeroRows
  else if Nat.eqb m 0 then Err ZeroCols
  else if Nat.eqb block 0 then Err ZeroTileSize
  else Ok (mk_abs n m block count target []).

(** Invariant 3 read as a definition: the residual is the target minus
    the re-summed cut set. *)
Definition abs_residual (a : AbsEngine) : list (list F) :=
  msub (abs_target a) (cuts_sum (abs_nrows a) (abs_ncols a) (abs_cuts a)).

(** [discover_next(rng)]: the finder on the residual, the cut appended,
    the post-update squared norm returned. *)
Definition abs_discover (a : AbsEngine) : RngM G (Cut F * F * AbsEngine) :=
  c <- find (abs_block a) (abs_nrows a) (abs_ncols a) (abs_residual a) ;;
  let a' := mk_abs (abs_nrows a) (abs_ncols a) (abs_block a) (abs_count a)
                   (abs_target a) (abs_cuts a ++ [c]) in
  ret (c, sqnorm (abs_residual a'), a').

(** [residual_norm()] and [reconstruct()] (by re-summing the cut set). *)
Definition abs_residual_norm (a : AbsEngine) : F := sqnorm (abs_residual a).

Definition abs_reconstruct (a : AbsEngine) : list (list F) :=
  cuts_sum (abs_nrows a) (abs_ncols a) (abs_cuts a).

(** [k] calls of [discover_next], recording each returned norm. *)
Fixpoint abs_run (k : nat) (a : AbsEngine) : RngM G (list F * AbsEngine) :=
  match k with
  | O => ret ([], a)
  | S k' =>
      '(_, nrm, a1) <- abs_discover a ;;
      '(ns, a2) <- abs_run k' a1 ;;
      ret (nrm :: ns, a2)
  end.
End Abstract.

Arguments AbsEngine F : clear implicits.
