(* ===== verification/Engine.v ===== *)
(** * SignedCutEngine: [cuts_v2::sct_helper::SctHelper] (spec 4.1)

    The engine owns the target, the residual and the ordered cut set.
    [create] checks the configuration ([n], [m], tile size nonzero);
    [cut] (main.rs: [mat.cut(rng)], spec [discover_next]) runs the finder
    on the residual, subtracts [w (u outer v)] tile by tile, appends the
    cut and reports the new squared norm; [squared_norm_l2] and [expand]
    (spec [reconstruct]) only read.  Engine states reachable from [create]
    by [cut] steps form an inductive relation; the invariants are proved
    by rule induction over it.  The engine is generic in its cut finder
    ([Finder]); its theorems assume only the finder's contract
    ([FinderShape], [FinderLaws]), which [find_cut] satisfies.  [abs_of]
    reads an engine as the contract of [Abstract]; [run_cuts_refines]
    shows the engine computes what the contract computes. *)

From Stdlib Require Import List Lia Arith ZArith QArith Qcanon Field Sorted.
From S2P Require Import Prelude Scalar Matrix Tiled CutFinder Abstract.
Import ListNotations.
Local Open Scope nat_scope.

Record SctHelper (F : Type) := mk_sct {
  sct_target : list (list F);
  sct_residual : list (list F);
  sct_cuts : list (Cut F);
  sct_nrows : nat;
  sct_ncols : nat;
  sct_block : nat;
  sct_width : nat
}.
Arguments mk_sct {F}.
Arguments sct_target {F}.
Arguments sct_residual {F}.
Arguments sct_cuts {F}.
Arguments sct_nrows {F}.
Arguments sct_ncols {F}.
Arguments sct_block {F}.
Arguments sct_width {F}.

Section Engine.
Context {F : Type} `{ScalarOps F} {G : Type} `{Rng G} `{Finder F G}.

(** [SctHelper::new(mat, block_size, width)]: [target] is [n x m]. *)
Definition create (n m : nat) (target : list (list F)) (block width : nat)
  : result (SctHelper F) ConfigError :=
  if Nat.eqb n 0 then Err ZeroRows
  else if Nat.eqb m 0 then Err ZeroCols
  else if Nat.eqb block 0 then Err ZeroTileSize
  else Ok (mk_sct target target [] n m block width).

(** [SctHelper::cut(rng)]: one discovery and its in-place update. *)
Definition cut (e : SctHelper F) : RngM G (Cut F * F * SctHelper F) :=
  c <- find (sct_block e) (sct_nrows e) (sct_ncols e) (sct_residual e) ;;
  let r' := tiled_rank1_sub (sct_block e) (sct_residual e) (cut_u c) (cut_v c) (cut_w c) in
  ret (c, sqnorm r',
       mk_sct (sct_target e) r' (sct_cuts e ++ [c])
              (sct_nrows e) (sct_ncols e) (sct_block e) (sct_width e)).

(** [SctHelper::squared_norm_l2()]. *)
Definition squared_norm_l2 (e : SctHelper F) : F := sqnorm (sct_residual e).

(** [SctHelper::expand()]: target minus residual. *)
Definition expand (e : SctHelper F) : list (list F) := msub (sct_target e) (sct_residual e).

(** What an engine means in the terms of the contract ([Abstract]):
    its configuration, target and cut set; the residual is forgotten. *)
Definition abs_of (e : SctHelper F) : AbsEngine F :=
  mk_abs (sct_nrows e) (sct_ncols e) (sct_block e) (sct_width e) (sct_target e) (sct_cuts e).

(** main.rs lines 60-63:
    [for w in 0..width { let cut = mat.cut(rng);
                         dbg!(w, (mat.squared_norm_l2() / normalization).sqrt()); }]:
    [k] calls of [cut] on the same engine and generator, recording the
    squared norm read after each call (the printed value is the square
    root of its quotient by the positive normalization). *)
Fixpoint run_cuts (k : nat) (e : SctHelper F) : RngM G (list F * SctHelper F) :=
  match k with
  | O => ret ([], e)
  | S k' =>
      '(_, _, e1) <- cut e ;;
      '(ns, e2) <- run_cuts k' e1 ;;
      ret (squared_norm_l2 e1 :: ns, e2)
  end.

(** One [cut] step and the states reachable from [create]. *)
Inductive step (e e' : SctHelper F) : Prop :=
| step_cut (s s' : G) (c : Cut F) (nrm : F) :
    cut e s = ((c, nrm, e'), s') -> step e e'.

Inductive reachable : SctHelper F -> Prop :=
| reach_create n m target block width e :
    mat_wf n m target -> create n m target block width = Ok e -> reachable e
| reach_step e e' : reachable e -> step e e' -> reachable e'.
End Engine.

(** What a successful [create] returns: positive dimensions and tile
    size, the residual a copy of the target, no cut. *)
Lemma create_ok {F : Type} `{ScalarOps F} n m (T : list (list F)) b w e :
  create n m T b w = Ok e -> 0 < n /\ 0 < m /\ 0 < b /\ e = mk_sct T T [] n m b w.
Proof.
  unfold create. destruct (Nat.eqb_spec n 0), (Nat.eqb_spec m 0), (Nat.eqb_spec b 0);
    intros E; try discriminate E.
  injection E as <-. split; [lia | split; [lia | split; [lia | reflexivity]]].
Qed.

Section EngineLaws.
Context {F : Type} `{ScalarLaws F} {G : Type} `{Rng G} `{Finder F G} `{!FinderLaws F G}.
Add Field sfield_e : s_field.

(** A cut as the finder produces it on an [n x m] residual. *)
Definition cut_ok (n m : nat) (c : Cut F) : Prop :=
  sign_pair n m (cut_u c) (cut_v c) /\ sle szero (cut_w c).

(** The engine invariant: positive dimensions and tile size, shapes,
    valid cuts, and the residual equal to the target minus the sum of
    the cuts (spec invariants 1 and 3). *)
Definition engine_inv (e : SctHelper F) : Prop :=
  0 < sct_nrows e /\ 0 < sct_ncols e /\ 0 < sct_block e
  /\ mat_wf (sct_nrows e) (sct_ncols e) (sct_target e)
  /\ mat_wf (sct_nrows e) (sct_ncols e) (sct_residual e)
  /\ Forall (cut_ok (sct_nrows e) (sct_ncols e)) (sct_cuts e)
  /\ sct_residual e = msub (sct_target e) (cuts_sum (sct_nrows e) (sct_ncols e) (sct_cuts e)).

Lemma cuts_sum_app n m (cs : list (Cut F)) c :
  cuts_sum n m (cs ++ [c]) = madd (cuts_sum n m cs) (outer (cut_u c) (cut_v c) (cut_w c)).
Proof. unfold cuts_sum; now rewrite fold_left_app. Qed.

Lemma cuts_sum_wf n m (cs : list (Cut F)) :
  Forall (cut_ok n m) cs -> mat_wf n m (cuts_sum n m cs).
Proof.
  unfold cuts_sum; generalize (mat_wf_mzeros (F := F) n m).
  generalize (mzeros (F := F) n m) as acc; intros acc Hacc Hcs; revert acc Hacc.
  induction Hcs as [|c cs [(Hu & _ & Hv & _) _] _ IH]; intros acc Hacc; cbn [fold_left]; auto.
  apply IH. unfold madd, vadd; apply mat_wf_zipw; auto. rewrite <- Hu, <- Hv; apply mat_wf_outer.
Qed.

Lemma create_inv n m (T : list (list F)) block width e :
  mat_wf n m T -> create n m T block width = Ok e -> engine_inv e.
Proof.
  intros HT Hc; apply create_ok in Hc as (Hn & Hm & Hb & ->).
  unfold engine_inv; cbn [sct_target sct_residual sct_cuts sct_nrows sct_ncols sct_block].
  repeat split; auto; try lia; try apply HT.
  unfold cuts_sum; cbn [fold_left]. now rewrite (msub_mzeros n m).
Qed.

(** Everything one [cut] call does to an engine satisfying the
    invariant: the invariant again, the new cut appended, the
    configuration unchanged, and the norm lowered by exactly
    [w^2 n m]. *)
Lemma cut_spec (e : SctHelper F) (s : G) :
  engine_inv e ->
  let '((c, nrm, e'), s') := cut e s in
  engine_inv e' /\ cut_ok (sct_nrows e) (sct_ncols e) c
  /\ sct_cuts e' = sct_cuts e ++ [c] /\ sct_target e' = sct_target e
  /\ sct_nrows e' = sct_nrows e /\ sct_ncols e' = sct_ncols e
  /\ sct_block e' = sct_block e /\ sct_width e' = sct_width e
  /\ nrm = squared_norm_l2 e'
  /\ squared_norm_l2 e' = ssub (squared_norm_l2 e)
                            (smul (smul (cut_w c) (cut_w c)) (sof_nat (sct_nrows e * sct_ncols e)))
  /\ c = fst (find (sct_block e) (sct_nrows e) (sct_ncols e) (sct_residual e) s).
Proof.
  destruct e as [T R cs n m b w]; cbn [sct_target sct_residual sct_cuts sct_nrows sct_ncols sct_block sct_width].
  intros (Hn & Hm & Hb & HT & HR & Hcs & HRe).
  cbn [sct_target sct_residual sct_cuts sct_nrows sct_ncols sct_block] in Hn, Hm, Hb, HT, HR, Hcs, HRe.
  pose proof (finder_sign_pair b n m R s Hb HR) as Hp.
  pose proof (finder_optimal b n m R s Hb HR) as [_ Hw].
  pose proof (finder_weight_nonneg b n m R s Hb Hn Hm HR) as Hw0.
  unfold cut, bind; cbn [sct_block sct_nrows sct_ncols sct_residual sct_target sct_cuts sct_width].
  destruct (find b n m R s) as [c s1]; cbn [fst] in Hp, Hw, Hw0.
  destruct Hp as (Hul & Hu & Hvl & Hv).
  assert (Hupd : tiled_rank1_sub b R (cut_u c) (cut_v c) (cut_w c)
                 = msub R (outer (cut_u c) (cut_v c) (cut_w c))).
  { rewrite tiled_rank1_sub_correct by (destruct HR; auto; congruence). apply rank1_sub_msub. }
  unfold ret; cbn [fst]. unfold squared_norm_l2, engine_inv.
  cbn [sct_target sct_residual sct_cuts sct_nrows sct_ncols sct_block sct_width].
  assert (Hc : cut_ok n m c) by (split; [repeat split; auto | exact Hw0]).
  assert (HR' : mat_wf n m (tiled_rank1_sub b R (cut_u c) (cut_v c) (cut_w c))).
  { rewrite Hupd; apply mat_wf_zipw; auto. rewrite <- Hul, <- Hvl; apply mat_wf_outer. }
  split; [|split; [exact Hc|]].
  - refine (conj Hn (conj Hm (conj Hb (conj HT (conj HR' (conj _ _)))))).
    + apply Forall_app; split; auto.
    + rewrite Hupd, HRe, cuts_sum_app. apply msub_msub.
  - repeat split; try reflexivity.
    rewrite tiled_rank1_sub_correct by (destruct HR; auto; congruence).
    rewrite (sqnorm_rank1_sub n m) by auto.
    rewrite Hw. unfold objective.
    assert (HN : sof_nat (n * m) <> szero) by (apply sof_nat_neq0; nia).
    field; exact HN.
Qed.

Lemma reachable_inv (e : SctHelper F) : reachable (G := G) e -> engine_inv e.
Proof.
  induction 1 as [n m T b w e HT Hc | e e' _ IH [s s' c nrm Hcut]].
  - eapply create_inv; eauto.
  - pose proof (cut_spec e s IH) as Hs; rewrite Hcut in Hs; apply Hs.
Qed.

(** The norms recorded by the loop: each is the previous one minus
    [w^2 N] for the weight [w] of the cut just found. *)
Fixpoint norm_trace (N start : F) (ws ns : list F) : Prop :=
  match ws, ns with
  | [], [] => True
  | w :: ws', x :: ns' => x = ssub start (smul (smul w w) N) /\ norm_trace N x ws' ns'
  | _, _ => False
  end.

Lemma norm_trace_sorted N start ws ns :
  sle szero N -> norm_trace N start ws ns -> Sorted (fun a b => sle b a) (start :: ns).
Proof.
  intros HN; revert start ns; induction ws as [|w ws IH]; intros start [|x ns] Ht; cbn in Ht;
    try contradiction; [repeat constructor|].
  destruct Ht as [-> Ht]. constructor; [now apply IH|]. constructor.
  apply sle_sub. replace (ssub start (ssub start (smul (smul w w) N))) with (smul (smul w w) N) by ring.
  apply smul_nonneg; [apply ssq_nonneg | exact HN].
Qed.

Lemma run_cuts_spec k (e : SctHelper F) (s : G) :
  reachable (G := G) e ->
  let '(ns, e') := fst (run_cuts k e s) in
  reachable (G := G) e'
  /\ (exists new, sct_cuts e' = sct_cuts e ++ new /\ length new = k
      /\ norm_trace (sof_nat (sct_nrows e * sct_ncols e)) (squared_norm_l2 e) (map cut_w new) ns)
  /\ sct_target e' = sct_target e /\ sct_nrows e' = sct_nrows e /\ sct_ncols e' = sct_ncols e.
Proof.
  revert e s; induction k as [|k IH]; intros e s He; cbn [run_cuts].
  - unfold ret; cbn [fst]. repeat split; auto. exists []; rewrite app_nil_r; repeat split; auto.
  - unfold bind. pose proof (cut_spec e s (reachable_inv e He)) as Hs.
    destruct (cut e s) as [[[c nrm] e1] s1] eqn:Ec.
    destruct Hs as (_ & _ & Hcs & Htg & Hn & Hm & _ & _ & _ & Hnorm & _).
    assert (He1 : reachable (G := G) e1) by (eapply reach_step; [exact He | econstructor; exact Ec]).
    specialize (IH e1 s1 He1). destruct (run_cuts k e1 s1) as [[ns e2] s2]; cbn [fst] in IH |- *.
    destruct IH as (Hr & (new & Hnew & Hlen & Htr) & Ht' & Hn' & Hm').
    repeat split; auto; try congruence.
    exists (c :: new). split; [rewrite Hnew, Hcs, <- app_assoc; reflexivity|].
    split; [cbn; lia|]. cbn [map norm_trace]. split; [exact Hnorm|]. now rewrite <- Hn, <- Hm.
Qed.

Lemma run_cuts_fresh n m (T : list (list F)) b w k (e : SctHelper F) (s : G) :
  mat_wf n m T -> create n m T b w = Ok e ->
  let '(ns, e') := fst (run_cuts k e s) in
  reachable (G := G) e' /\ length (sct_cuts e') = k
  /\ norm_trace (sof_nat (n * m)) (sqnorm T) (map cut_w (sct_cuts e')) ns
  /\ sct_target e' = T /\ sct_nrows e' = n /\ sct_ncols e' = m.
Proof.
  intros HT Hc. assert (He : reachable (G := G) e) by (econstructor; eauto).
  pose proof (run_cuts_spec k e s He) as Hs. destruct (fst (run_cuts k e s)) as [ns e'].
  destruct Hs as (Hr & (new & Hnew & Hlen & Htr) & Ht & Hn & Hm).
  apply create_ok in Hc as (_ & _ & _ & ->). cbn in Hnew, Htr, Ht, Hn, Hm.
  rewrite Hnew. now repeat split.
Qed.

(** What [expand] returns after any number of loop iterations. *)
Lemma expand_cuts_sum (e : SctHelper F) :
  reachable (G := G) e -> expand e = cuts_sum (sct_nrows e) (sct_ncols e) (sct_cuts e).
Proof.
  intros He; destruct (reachable_inv e He) as (_ & _ & _ & HT & _ & Hcs & HRe).
  unfold expand; rewrite HRe. eapply msub_msub_cancel; [exact HT | now apply cuts_sum_wf].
Qed.

(** The same engine with another tile size. *)
Definition set_block (e : SctHelper F) (b : nat) : SctHelper F :=
  mk_sct (sct_target e) (sct_residual e) (sct_cuts e) (sct_nrows e) (sct_ncols e) b (sct_width e).

Lemma cut_set_block (e : SctHelper F) b (s : G) c nrm e' s' :
  engine_inv e -> 0 < b -> cut e s = ((c, nrm, e'), s') ->
  cut (set_block e b) s = ((c, nrm, set_block e' b), s').
Proof.
  intros (_ & _ & Hb0 & _ & HR & _) Hb. destruct e as [T R cs n m b0 w].
  cbn [sct_residual sct_nrows sct_ncols sct_block] in Hb0, HR.
  pose proof HR as [HRn _].
  unfold cut, set_block, bind; cbn [sct_target sct_residual sct_cuts sct_nrows sct_ncols sct_block sct_width].
  rewrite (finder_block_indep b b0 n m R s Hb Hb0 HR).
  pose proof (finder_sign_pair b0 n m R s Hb0 HR) as (Hul & _).
  destruct (find b0 n m R s) as [c0 s0]; cbn [fst] in Hul.
  rewrite !tiled_rank1_sub_correct by (auto; congruence).
  unfold ret; intros E; injection E as <- <- <- <-. reflexivity.
Qed.

Lemma run_cuts_set_block k (e : SctHelper F) b (s : G) ns e' s' :
  reachable (G := G) e -> 0 < b -> run_cuts k e s = ((ns, e'), s') ->
  run_cuts k (set_block e b) s = ((ns, set_block e' b), s').
Proof.
  revert e s ns e' s'; induction k as [|k IH]; intros e s ns e' s' He Hb; cbn [run_cuts].
  - unfold ret; intros E; injection E as <- <- <-; reflexivity.
  - unfold bind. destruct (cut e s) as [[[c nrm] e1] s1] eqn:Ec.
    rewrite (cut_set_block e b s c nrm e1 s1 (reachable_inv e He) Hb Ec).
    assert (He1 : reachable (G := G) e1) by (eapply reach_step; [exact He | econstructor; exact Ec]).
    destruct (run_cuts k e1 s1) as [[ns1 e2] s2] eqn:Er.
    rewrite (IH e1 s1 ns1 e2 s2 He1 Hb Er).
    unfold ret; intros E; injection E as <- <- <-. reflexivity.
Qed.

(** ** Properties of main.rs's loop over the engine *)

(** C2: monotonicity (spec 8) in exact arithmetic: the squared norms
    main.rs's loop reads after each [cut] never increase, starting from
    the target's, for every generator and tile size. *)
Theorem run_cuts_norms_nonincreasing n m (T : list (list F)) b w k (e : SctHelper F) (s : G) :
  mat_wf n m T -> create n m T b w = Ok e ->
  Sorted (fun a b => sle b a) (sqnorm T :: fst (fst (run_cuts k e s))).
Proof.
  intros HT Hc. pose proof (run_cuts_fresh n m T b w k e s HT Hc) as Hs.
  destruct (fst (run_cuts k e s)) as [ns e']. destruct Hs as (_ & _ & Htr & _).
  eapply norm_trace_sorted; [apply sof_nat_nonneg | exact Htr].
Qed.

(** C6: tiling equivalence carried through main.rs's loop: two engines
    created from the same target with tile sizes [b1, b2 > 0] record
    the same norms, discover the same cuts and expand to the same
    matrix, after any number of iterations (exact arithmetic: the tile
    size changes only the order of the accumulations). *)
Theorem run_cuts_block_independent n m (T : list (list F)) b1 b2 w k (e1 e2 : SctHelper F) (s : G) :
  mat_wf n m T -> create n m T b1 w = Ok e1 -> create n m T b2 w = Ok e2 ->
  fst (fst (run_cuts k e1 s)) = fst (fst (run_cuts k e2 s))
  /\ sct_cuts (snd (fst (run_cuts k e1 s))) = sct_cuts (snd (fst (run_cuts k e2 s)))
  /\ expand (snd (fst (run_cuts k e1 s))) = expand (snd (fst (run_cuts k e2 s))).
Proof.
  intros HT Hc1 Hc2. assert (He1 : reachable (G := G) e1) by (econstructor; eauto).
  assert (Hb2 : 0 < b2 /\ e2 = set_block e1 b2).
  { apply create_ok in Hc1 as (_ & _ & _ & ->); apply create_ok in Hc2 as (_ & _ & Hb2 & ->).
    split; [exact Hb2 | reflexivity]. }
  destruct Hb2 as [Hb2 ->]. destruct (run_cuts k e1 s) as [[ns e'] s'] eqn:Er.
  rewrite (run_cuts_set_block k e1 b2 s ns e' s' He1 Hb2 Er). cbn [fst snd].
  unfold expand, set_block; cbn [sct_cuts sct_target sct_residual]. now split.
Qed.

(** C4: in exact arithmetic each recorded norm is the previous one
    minus exactly [w^2 n m], for the weight [w] of the cut that iteration
    found (the reduction the finder maximises). *)
Theorem run_cuts_norm_trace n m (T : list (list F)) b w k (e : SctHelper F) (s : G) :
  mat_wf n m T -> create n m T b w = Ok e ->
  let '(ns, e') := fst (run_cuts k e s) in
  norm_trace (sof_nat (n * m)) (sqnorm T) (map cut_w (sct_cuts e')) ns.
Proof.
  intros HT Hc. pose proof (run_cuts_fresh n m T b w k e s HT Hc) as Hs.
  destruct (fst (run_cuts k e s)) as [ns e']. apply Hs.
Qed.

(** C3: sign validity (spec invariant 3) and cut count in exact
    arithmetic: after [k] iterations there are exactly [k] cuts, each
    with [u] a sign vector of length [n], [v] one of length [m], and a
    nonnegative weight. *)
Theorem run_cuts_valid_cuts n m (T : list (list F)) b w k (e : SctHelper F) (s : G) :
  mat_wf n m T -> create n m T b w = Ok e ->
  let e' := snd (fst (run_cuts k e s)) in
  length (sct_cuts e') = k
  /\ Forall (fun c => length (cut_u c) = n /\ Forall is_sign (cut_u c)
                      /\ length (cut_v c) = m /\ Forall is_sign (cut_v c)
                      /\ sle szero (cut_w c)) (sct_cuts e').
Proof.
  intros HT Hc. pose proof (run_cuts_fresh n m T b w k e s HT Hc) as Hs.
  destruct (fst (run_cuts k e s)) as [ns e']; cbn [snd].
  destruct Hs as (Hr & Hl & _ & _ & Hn & Hm). split; [exact Hl|].
  destruct (reachable_inv _ Hr) as (_ & _ & _ & _ & _ & Hcs & _). rewrite Hn, Hm in Hcs.
  eapply Forall_impl; [|exact Hcs]. intros c [(? & ? & ? & ?) ?]; auto.
Qed.

(** C5: progress of the first iteration, in exact arithmetic: the norm
    drops by at least [(sum_i |(T v0)_i|)^2 / (n m)], where [v0] is the
    random initial [v] drawn from the generator. *)
Theorem run_cuts_first_drop n m (T : list (list F)) b w (e : SctHelper F) (s : G) :
  mat_wf n m T -> create n m T b w = Ok e ->
  let a := vsum (map sabs (matvec T (fst (init_v (G := G) m s)))) in
  Forall (fun x => sle x (ssub (sqnorm T) (sdiv (smul a a) (sof_nat (n * m)))))
         (fst (fst (run_cuts 1 e s))).
Proof.
  intros HT Hc. pose proof (create_inv n m T b w e HT Hc) as Hinv.
  apply create_ok in Hc as (Hn & Hm & Hb & ->).
  pose proof (finder_beats_initial b n m T s ltac:(lia) HT) as Hobj.
  pose proof (finder_optimal b n m T s ltac:(lia) HT) as [_ Hw].
  pose proof (cut_spec (mk_sct T T [] n m b w) s Hinv) as Hs.
  cbn [run_cuts]. unfold bind at 1. destruct (cut _ s) as [[[c nrm] e1] s1].
  destruct Hs as (_ & _ & _ & _ & _ & _ & _ & _ & _ & Hnorm & Hcf).
  cbn [sct_block sct_nrows sct_ncols sct_residual] in Hnorm, Hcf. rewrite <- Hcf in Hobj, Hw.
  unfold bind, ret; cbn [run_cuts fst]. constructor; [|constructor].
  rewrite Hnorm, Hw. unfold squared_norm_l2; cbn [sct_residual].
  assert (HN : slt szero (sof_nat (n * m))) by (destruct (n * m) eqn:E; [nia|apply sof_nat_pos]).
  assert (HNz : sof_nat (n * m) <> szero) by (apply sof_nat_neq0; nia).
  apply sle_sub.
  match goal with |- sle szero (ssub (ssub ?x (sdiv (smul ?a ?a) ?N)) (ssub ?x (smul (smul (sdiv ?o ?N) (sdiv ?o ?N)) ?N))) =>
    replace (ssub (ssub x (sdiv (smul a a) N)) (ssub x (smul (smul (sdiv o N) (sdiv o N)) N)))
      with (ssub (sdiv (smul o o) N) (sdiv (smul a a) N)) by (field; exact HNz) end.
  rewrite <- sle_sub. apply sle_div_mono; [exact HN|].
  apply sle_sq_mono; [apply vsum_abs_nonneg | exact Hobj].
Qed.

(** ** Refinement of the contract

    The residual kept in place is the contract's recomputed residual, so
    each [cut] is the contract's [discover_next]: same cut, same norm,
    same generator state, and the engine after it means the contract's
    state after it. *)

Lemma create_refines n m (T : list (list F)) b w :
  match create n m T b w, abs_create n m T b w with
  | Ok e, Ok a => abs_of e = a
  | Err x, Err y => x = y
  | _, _ => False
  end.
Proof.
  unfold create, abs_create.
  destruct (Nat.eqb n 0), (Nat.eqb m 0), (Nat.eqb b 0); reflexivity.
Qed.

Lemma abs_residual_of (e : SctHelper F) :
  engine_inv e -> abs_residual (abs_of e) = sct_residual e.
Proof. intros (_ & _ & _ & _ & _ & _ & HRe); now rewrite HRe. Qed.

Lemma cut_refines (e : SctHelper F) (s : G) :
  reachable (G := G) e ->
  let '((c, nrm, e'), s') := cut e s in
  abs_discover (abs_of e) s = ((c, nrm, abs_of e'), s') /\ nrm = squared_norm_l2 e'
  /\ reachable (G := G) e'.
Proof.
  intros He; pose proof (reachable_inv e He) as Hinv.
  pose proof (cut_spec e s Hinv) as Hs.
  destruct (cut e s) as [[[c nrm] e'] s'] eqn:Hc.
  destruct Hs as (Hinv' & _ & Hcs & Htg & Hn & Hm & Hb & Hw & Hnrm & _).
  split; [| split; [exact Hnrm | eapply reach_step; [exact He | econstructor; exact Hc]]].
  revert Hc; unfold abs_discover, cut, bind; rewrite (abs_residual_of e Hinv).
  destruct e as [T R cs n m b w]; cbn [abs_of abs_nrows abs_ncols abs_block abs_count abs_target abs_cuts
    sct_nrows sct_ncols sct_block sct_width sct_target sct_residual sct_cuts] in *.
  destruct (find b n m R s) as [c0 s0]; unfold ret; intros E; injection E as <- <- <- <-.
  cbn [sct_nrows sct_ncols sct_block sct_width sct_target sct_cuts] in *.
  pose proof (abs_residual_of _ Hinv') as Hr.
  unfold abs_of in Hr |- *.
  cbn [sct_nrows sct_ncols sct_block sct_width sct_target sct_residual sct_cuts] in Hr |- *.
  now rewrite Hr.
Qed.

(** C20: Refinement of the engine's contract (spec 4.1): from any engine
    reachable from [create], [k] calls of [cut] (the loop of main.rs)
    compute exactly what [k] calls of the contract's [discover_next]
    compute on the contract's view of the engine: the same norms, the
    same generator state, and a final engine whose contract view is the
    contract's final state; its [squared_norm_l2] and [expand] are the
    contract's [residual_norm] and [reconstruct] (the re-summed cut
    set). *)
Theorem run_cuts_refines k (e : SctHelper F) (s : G) :
  reachable (G := G) e ->
  let '((ns, e'), s') := run_cuts k e s in
  abs_run k (abs_of e) s = ((ns, abs_of e'), s')
  /\ squared_norm_l2 e' = abs_residual_norm (abs_of e')
  /\ expand e' = abs_reconstruct (abs_of e').
Proof.
  revert e s; induction k as [| k IH]; intros e s He; cbn [run_cuts abs_run].
  - unfold ret; split; [reflexivity | split].
    + unfold squared_norm_l2, abs_residual_norm; now rewrite (abs_residual_of e (reachable_inv e He)).
    + exact (expand_cuts_sum e He).
  - unfold bind at 1 3; pose proof (cut_refines e s He) as Hc.
    destruct (cut e s) as [[[c nrm] e1] s1]; destruct Hc as (-> & -> & He1).
    specialize (IH e1 s1 He1); unfold bind.
    destruct (run_cuts k e1 s1) as [[ns e2] s2]; destruct IH as [-> Hrest].
    split; [reflexivity | exact Hrest].
Qed.
End EngineLaws.

(** ** Sign validity with the program's arithmetic

    The shape part of the invariant needs no field law, so it holds for
    the [f32] engines main.rs runs, not only in exact arithmetic. *)

Section EngineShape.
Context {F : Type} `{ScalarOps F} {G : Type} `{Rng G} `{Finder F G} `{!FinderShape F G}.

Definition shape_inv (e : SctHelper F) : Prop :=
  0 < sct_block e /\ mat_wf (sct_nrows e) (sct_ncols e) (sct_residual e)
  /\ Forall (fun c => sign_pair (sct_nrows e) (sct_ncols e) (cut_u c) (cut_v c)) (sct_cuts e).

Lemma create_shape_inv n m (T : list (list F)) b w e :
  mat_wf n m T -> create n m T b w = Ok e -> shape_inv e.
Proof.
  intros HT Hc; apply create_ok in Hc as (_ & _ & Hb & ->).
  split; [exact Hb | split; [exact HT | constructor]].
Qed.

Lemma cut_shape (e : SctHelper F) (s : G) :
  shape_inv e ->
  let e' := snd (fst (cut e s)) in
  shape_inv e' /\ (exists c, sct_cuts e' = sct_cuts e ++ [c]) /\ sct_target e' = sct_target e
  /\ sct_nrows e' = sct_nrows e /\ sct_ncols e' = sct_ncols e.
Proof.
  destruct e as [T R cs n m b w]; unfold shape_inv.
  cbn [sct_residual sct_cuts sct_nrows sct_ncols sct_block]; intros (Hb & HR & Hcs).
  pose proof (finder_sign_pair b n m R s Hb HR) as Hp.
  unfold cut, bind; cbn [sct_target sct_residual sct_cuts sct_nrows sct_ncols sct_block sct_width].
  destruct (find b n m R s) as [c s1]; cbn [fst] in Hp. destruct Hp as (Hul & Hu & Hvl & Hv).
  unfold ret; cbn [fst snd sct_target sct_residual sct_cuts sct_nrows sct_ncols sct_block].
  rewrite tiled_rank1_sub_correct by (destruct HR; auto; congruence).
  split; [split; [exact Hb | split] |].
  - apply mat_wf_rank1_sub; auto.
  - apply Forall_app; split; [exact Hcs | constructor; [repeat split; auto | constructor]].
  - split; [eexists; reflexivity | repeat split].
Qed.

Lemma run_cuts_shape k (e : SctHelper F) (s : G) :
  shape_inv e ->
  let e' := snd (fst (run_cuts k e s)) in
  shape_inv e' /\ (exists new, sct_cuts e' = sct_cuts e ++ new /\ length new = k)
  /\ sct_target e' = sct_target e /\ sct_nrows e' = sct_nrows e /\ sct_ncols e' = sct_ncols e.
Proof.
  revert e s; induction k as [|k IH]; intros e s He; cbn [run_cuts].
  - unfold ret; cbn [fst snd]. split; [exact He|].
    split; [exists []; rewrite app_nil_r; auto | auto].
  - unfold bind. pose proof (cut_shape e s He) as Hc.
    destruct (cut e s) as [[[c nrm] e1] s1]; cbn [fst snd] in Hc.
    destruct Hc as (He1 & [c' Hcs] & Ht & Hn & Hm).
    specialize (IH e1 s1 He1). destruct (run_cuts k e1 s1) as [[ns e2] s2]; unfold ret; cbn [fst snd] in IH |- *.
    destruct IH as (He2 & (new & Hnew & Hl) & Ht' & Hn' & Hm').
    split; [exact He2|]. split; [|split; [|split]; congruence].
    exists (c' :: new). rewrite Hnew, Hcs, <- app_assoc. split; [reflexivity | cbn; lia].
Qed.

(** C16: sign validity (spec 8) in any arithmetic, IEEE [f32] included:
    after [k] iterations of main.rs's loop there are exactly [k] cuts,
    each with [u] a vector of [+1]/[-1] of length [n] and [v] one of
    length [m], whatever the rounding of the products. *)
Theorem run_cuts_sign_validity n m (T : list (list F)) b w k (e : SctHelper F) (s : G) :
  mat_wf n m T -> create n m T b w = Ok e ->
  let e' := snd (fst (run_cuts k e s)) in
  length (sct_cuts e') = k
  /\ Forall (fun c => length (cut_u c) = n /\ Forall is_sign (cut_u c)
                      /\ length (cut_v c) = m /\ Forall is_sign (cut_v c)) (sct_cuts e').
Proof.
  intros HT Hc. pose proof (create_shape_inv n m T b w e HT Hc) as He.
  apply create_ok in Hc as (_ & _ & _ & ->).
  pose proof (run_cuts_shape k _ s He) as Hs; cbv zeta in Hs |- *.
  destruct Hs as ((_ & _ & Hcs) & (new & Hnew & Hl) & _ & Hn & Hm); cbn in Hnew, Hn, Hm.
  rewrite Hn, Hm in Hcs. split; [rewrite Hnew; exact Hl | exact Hcs].
Qed.
End EngineShape.

(** ** Witnesses on the 2 x 2 residual of [CutFinder], one-row tiles *)

Definition eng0 : SctHelper Qc := mk_sct R2x2 R2x2 [] 2 2 1 3.

Lemma create_R2x2 : create 2 2 R2x2 1 3 = Ok eng0.
Proof. reflexivity. Qed.

Lemma run_cuts_norms_nonincreasing_witness :
  mat_wf 2 2 R2x2 /\ create 2 2 R2x2 1 3 = Ok eng0 /\
  Sorted (fun a b => sle b a) (sqnorm R2x2 :: fst (fst (run_cuts (G := bit_stream) 3 eng0 bits_tf))).
Proof.
  split; [exact mat_wf_R2x2|]. split; [reflexivity|].
  pose proof (run_cuts_norms_nonincreasing 2 2 R2x2 1 3 3 eng0 bits_tf mat_wf_R2x2 create_R2x2) as Hw; exact Hw.
Defined.

Lemma run_cuts_refines_witness :
  reachable (G := bit_stream) eng0 /\
  (let '((ns, e'), s') := run_cuts 3 eng0 bits_tf in
   abs_run 3 (abs_of eng0) bits_tf = ((ns, abs_of e'), s')
   /\ squared_norm_l2 e' = abs_residual_norm (abs_of e')
   /\ expand e' = abs_reconstruct (abs_of e')).
Proof.
  assert (He : reachable (G := bit_stream) eng0) by (econstructor; [exact mat_wf_R2x2 | exact create_R2x2]).
  split; [exact He |].
  pose proof (run_cuts_refines 3 eng0 bits_tf He) as Hw; exact Hw.
Defined.

Lemma run_cuts_norm_trace_witness :
  mat_wf 2 2 R2x2 /\ create 2 2 R2x2 1 3 = Ok eng0 /\
  (let '(ns, e') := fst (run_cuts (G := bit_stream) 3 eng0 bits_tf) in
   norm_trace (sof_nat (2 * 2)) (sqnorm R2x2) (map cut_w (sct_cuts e')) ns).
Proof.
  split; [exact mat_wf_R2x2|]. split; [reflexivity|].
  pose proof (run_cuts_norm_trace 2 2 R2x2 1 3 3 eng0 bits_tf mat_wf_R2x2 create_R2x2) as Hw; exact Hw.
Defined.

Lemma run_cuts_valid_cuts_witness :
  mat_wf 2 2 R2x2 /\ create 2 2 R2x2 1 3 = Ok eng0 /\
  (let e' := snd (fst (run_cuts (G := bit_stream) 3 eng0 bits_tf)) in
   length (sct_cuts e') = 3
   /\ Forall (fun c => length (cut_u c) = 2 /\ Forall is_sign (cut_u c)
                       /\ length (cut_v c) = 2 /\ Forall is_sign (cut_v c)
                       /\ sle szero (cut_w c)) (sct_cuts e')).
Proof.
  split; [exact mat_wf_R2x2|]. split; [reflexivity|].
  pose proof (run_cuts_valid_cuts 2 2 R2x2 1 3 3 eng0 bits_tf mat_wf_R2x2 create_R2x2) as Hw; exact Hw.
Defined.

Lemma run_cuts_first_drop_witness :
  mat_wf 2 2 R2x2 /\ create 2 2 R2x2 1 3 = Ok eng0 /\
  (let a := vsum (map sabs (matvec R2x2 (fst (init_v (G := bit_stream) 2 bits_tf)))) in
   Forall (fun x => sle x (ssub (sqnorm R2x2) (sdiv (smul a a) (sof_nat (2 * 2)))))
          (fst (fst (run_cuts (G := bit_stream) 1 eng0 bits_tf)))).
Proof.
  split; [exact mat_wf_R2x2|]. split; [reflexivity|].
  pose proof (run_cuts_first_drop 2 2 R2x2 1 3 eng0 bits_tf mat_wf_R2x2 create_R2x2) as Hw; exact Hw.
Defined.

Lemma run_cuts_block_independent_witness :
  mat_wf 2 2 R2x2 /\ create 2 2 R2x2 1 3 = Ok eng0 /\ create 2 2 R2x2 2 3 = Ok (mk_sct R2x2 R2x2 [] 2 2 2 3) /\
  (fst (fst (run_cuts (G := bit_stream) 2 eng0 bits_tf))
   = fst (fst (run_cuts (G := bit_stream) 2 (mk_sct R2x2 R2x2 [] 2 2 2 3) bits_tf))
   /\ sct_cuts (snd (fst (run_cuts (G := bit_stream) 2 eng0 bits_tf)))
      = sct_cuts (snd (fst (run_cuts (G := bit_stream) 2 (mk_sct R2x2 R2x2 [] 2 2 2 3) bits_tf)))
   /\ expand (snd (fst (run_cuts (G := bit_stream) 2 eng0 bits_tf)))
      = expand (snd (fst (run_cuts (G := bit_stream) 2 (mk_sct R2x2 R2x2 [] 2 2 2 3) bits_tf)))).
Proof.
  split; [exact mat_wf_R2x2|]. split; [reflexivity|]. split; [reflexivity|].
  pose proof (run_cuts_block_independent 2 2 R2x2 1 2 3 2 eng0 (mk_sct R2x2 R2x2 [] 2 2 2 3) bits_tf
                mat_wf_R2x2 create_R2x2 eq_refl) as Hw; exact Hw.
Defined.

(** ** Scenarios of spec 8, run with [f32] arithmetic

    [f32] values are canonical, so the results are compared with [=]. *)

Definition A4 : list (list f32) := repeat (repeat (f32_of_Z 100) 4) 4.

Lemma mat_wf_A4 : mat_wf 4 4 A4.
Proof. split; [reflexivity | repeat constructor]. Qed.

Lemma run_cuts_sign_validity_witness :
  mat_wf 4 4 A4 /\ create 4 4 A4 2 1 = Ok (mk_sct A4 A4 [] 4 4 2 1) /\
  (let e' := snd (fst (run_cuts (G := bit_stream) 2 (mk_sct A4 A4 [] 4 4 2 1) [true; false])) in
   length (sct_cuts e') = 2
   /\ Forall (fun c => length (cut_u c) = 4 /\ Forall is_sign (cut_u c)
                       /\ length (cut_v c) = 4 /\ Forall is_sign (cut_v c)) (sct_cuts e')).
Proof.
  assert (Hc : create 4 4 A4 2 1 = Ok (mk_sct A4 A4 [] 4 4 2 1)) by reflexivity.
  split; [exact mat_wf_A4|]. split; [exact Hc|].
  pose proof (run_cuts_sign_validity 4 4 A4 2 1 2 _ [true; false] mat_wf_A4 Hc) as Hw; exact Hw.
Defined.

(** [Some (residual, cuts)] after [k] calls of [cut] on a fresh engine. *)
Definition after_cuts (e : result (SctHelper f32) ConfigError) (k : nat) (s : bit_stream)
  : option (list (list f32) * list (Cut f32)) :=
  match e with
  | Ok e => let e' := snd (fst (run_cuts k e s)) in Some (sct_residual e', sct_cuts e')
  | Err _ => None
  end.

(** Scenario A of spec 8: the all-100 4 x 4 target, tiles of 2 rows, one cut
    (generator drawing [false]): the residual is exactly zero and the cut
    has weight 100, with [u = v = (-1, -1, -1, -1)]: the same outer
    product as the spec's all-[+1] vectors, with both signs flipped. *)
Example scenario_A :
  after_cuts (create 4 4 A4 2 1) 1 []
  = Some (repeat (repeat (f32_of_Z 0) 4) 4,
          [mk_cut (repeat (f32_of_Z (-1)) 4) (repeat (f32_of_Z (-1)) 4) (f32_of_Z 100)]).
Proof. vm_compute; reflexivity. Qed.

(** Scenario A does not hold for every draw sequence: when the draws
    keep [R v] and [R^T u] exactly zero (balanced [+1]/[-1] vectors), the
    finder stops early with weight 0 and the residual is still the target. *)
Example scenario_A_balanced_draws :
  after_cuts (create 4 4 A4 2 1) 1 (concat (repeat [true; false; true; false] 5))
  = Some (A4, [mk_cut (map f32_of_Z [1; -1; 1; -1]%Z) (map f32_of_Z [1; -1; 1; -1]%Z) (f32_of_Z 0)]).
Proof. vm_compute; reflexivity. Qed.

