(* ===== verification/RustFloat.v ===== *)
(** * Rust numeric semantics used by main.rs

    [f64] is Rocq's primitive [float] (binary64), used for the budget
    (main.rs lines 51-52); [f32] is IEEE binary32 from [Scalar], used for
    the pixel values and [to_u8].  Casts from floats to integers saturate
    (Rust >= 1.45): NaN gives 0, values are truncated toward zero and
    clamped to the target range.  [usize] is 64 bits wide.  A Rust panic
    is a value of [Panic]. *)

From Stdlib Require Import List Lia Arith ZArith QArith Lqa PrimFloat Uint63 FloatOps SpecFloat.
From S2P Require Import Prelude Scalar.
Import ListNotations.
Local Open Scope Z_scope.

(** Panics of the program: a failed [assert!], arithmetic overflow on
    [usize] (debug builds), an out-of-range matrix index, an engine
    configuration rejected by [SctHelper::new]. *)
Inductive Panic := PanicNotFinite | PanicOverflow | PanicIndex | PanicConfig.

Definition usize_max : Z := 2 ^ 64 - 1.

(** [x as T] for an unsigned integer type [T] with maximum [max]. *)
Definition sat_cast (max : Z) (x : spec_float) : Z :=
  match x with
  | S754_nan | S754_zero _ => 0
  | S754_infinity s => if s then 0 else max
  | S754_finite s m e =>
      if s then 0
      else Z.min max (if Z.leb 0 e then Z.shiftl (Zpos m) e else Z.shiftr (Zpos m) (- e))
  end.

(** [x as usize] for an [f64] (main.rs line 52) and [x as u8] for an
    [f32] (line 80). *)
Definition usize_of_f64 (x : float) : Z := sat_cast usize_max (Prim2SF x).
Definition u8_of_f32 (x : f32) : Z := sat_cast 255 x.

(** [n as f64] for [0 <= n < 2^64]: both halves are exact, the sum is
    rounded once, to nearest. *)
Definition f64_of_usize (n : Z) : float :=
  (of_uint63 (Uint63.of_Z (n / 2 ^ 32)) * 4294967296 + of_uint63 (Uint63.of_Z (n mod 2 ^ 32)))%float.

(** [v as f32] for a byte [v] (main.rs lines 44-46) and [n as f32] for a
    [usize] (line 59): rounded to nearest, exact below [2^24]. *)
Definition f32_of_u8 (v : Z) : f32 := f32_of_Z v.
Definition f32_of_usize (n : Z) : f32 := f32_of_Z n.

(** [f32::is_finite]. *)
Definition f32_is_finite (x : f32) : bool :=
  match x with S754_zero _ | S754_finite _ _ _ => true | _ => false end.

(** [f32::clamp(self, min, max)]: [if self < min { self = min }
    if self > max { self = max }]. *)
Definition f_clamp (x lo hi : f32) : f32 :=
  let x := if SFltb x lo then lo else x in
  if SFltb hi x then hi else x.

(** [f32::round]: to the nearest integer, halves away from zero.  A
    finite value [m * 2^e] with [e >= 0] is already an integer; otherwise
    [|x| = m / 2^k] and [round |x| = floor ((m + 2^(k-1)) / 2^k)], which
    is at most [2^23] and so exactly representable. *)
Definition f_round (x : f32) : f32 :=
  match x with
  | S754_finite s m e =>
      if Z.leb 0 e then x
      else
        let r := Z.shiftr (Zpos m + Z.shiftl 1 (- e - 1)) (- e) in
        if s then SFopp (f32_of_Z r) else f32_of_Z r
  | _ => x
  end.

(** [fn to_u8(x: f32) -> u8] (main.rs lines 77-81). *)
Definition to_u8 (x : f32) : result Z Panic :=
  if f32_is_finite x then Ok (u8_of_f32 (f_round (f_clamp x (f32_of_Z 0) (f32_of_Z 255))))
  else Err PanicNotFinite.

(** ** Properties *)

Lemma sat_cast_range (max : Z) (x : spec_float) : 0 <= max -> 0 <= sat_cast max x <= max.
Proof.
  intros Hmax; unfold sat_cast; destruct x as [s|[|]| |[|] m e]; try lia.
  destruct (Z.leb_spec 0 e).
  - rewrite Z.shiftl_mul_pow2 by lia. pose proof (Z.pow_pos_nonneg 2 e). nia.
  - rewrite Z.shiftr_div_pow2 by lia. pose proof (Z.div_pos (Zpos m) (2 ^ (- e))).
    assert (0 < 2 ^ (- e)) by (apply Z.pow_pos_nonneg; lia). lia.
Qed.

(** [to_u8] yields a byte: whenever it returns, the value lies in
    [0, 255], for every [f32] input (saturating cast after the clamp). *)
Lemma to_u8_range (x : f32) (k : Z) : to_u8 x = Ok k -> 0 <= k <= 255.
Proof.
  unfold to_u8; destruct (f32_is_finite x); intros E; inversion E; subst.
  apply sat_cast_range; lia.
Qed.

(** The only panic of [to_u8] is its [assert!]. *)
Lemma to_u8_err (x : f32) p : to_u8 x = Err p -> p = PanicNotFinite.
Proof. unfold to_u8; destruct (f32_is_finite x); intros E; inversion E; reflexivity. Qed.

(** C13: [to_u8] panics exactly on the IEEE values that are not finite
    numbers, NaN and the two infinities, and then with the panic of its
    [assert!]; on both zeros and on every finite value it returns. *)
Theorem to_u8_panics (x : f32) p :
  to_u8 x = Err p <-> p = PanicNotFinite /\ (x = S754_nan \/ exists s, x = S754_infinity s).
Proof.
  unfold to_u8; destruct x as [s | s | | s m e]; cbn [f32_is_finite].
  - split; [destruct (u8_of_f32 _); discriminate | intros (_ & [E | [? E]]); discriminate].
  - split; [intros E; injection E as <-; eauto | intros [-> _]; reflexivity].
  - split; [intros E; injection E as <-; auto | intros [-> _]; reflexivity].
  - split; [destruct (u8_of_f32 _); discriminate | intros (_ & [E | [? E]]); discriminate].
Qed.

(** A property of bytes checked on all 256 of them. *)
Lemma forall_bytes (P : Z -> bool) :
  forallb (fun i => P (Z.of_nat i)) (seq 0 256) = true -> forall k, 0 <= k < 256 -> P k = true.
Proof.
  intros Hall k Hk. rewrite forallb_forall in Hall.
  specialize (Hall (Z.to_nat k)). rewrite Z2Nat.id in Hall by lia. apply Hall, in_seq; lia.
Qed.

(** Round trip: a byte converted to [f32] as main.rs reads pixels, then
    back by [to_u8], is the same byte. *)
Lemma to_u8_of_u8 (k : Z) : 0 <= k < 256 -> to_u8 (f32_of_u8 k) = Ok k.
Proof.
  intros Hk.
  pose proof (forall_bytes (fun i => match to_u8 (f32_of_u8 i) with Ok k' => Z.eqb k' i | Err _ => false end)
                ltac:(vm_compute; reflexivity) k Hk) as Hb; cbv beta in Hb.
  destruct (to_u8 (f32_of_u8 k)) as [k'|p]; [apply Z.eqb_eq in Hb; now subst | discriminate].
Qed.

Lemma u8_of_f32_of_Z (r : Z) : 0 <= r < 256 -> u8_of_f32 (f32_of_Z r) = r.
Proof.
  intros Hr; apply Z.eqb_eq.
  exact (forall_bytes (fun i => Z.eqb (u8_of_f32 (f32_of_Z i)) i) ltac:(vm_compute; reflexivity) r Hr).
Qed.

(** [round] sends halves away from zero and is exact just below one
    half, where [floor (x + 0.5)] in [f32] would give 1; [-0.25] rounds
    to [-0.0], which the cast sends to 0. *)
Example to_u8_samples :
  to_u8 (f32q 5 (-1)) = Ok 3 /\ to_u8 (f32_of_Z (-3)) = Ok 0 /\ to_u8 (f32q 1203 (-2)) = Ok 255
  /\ to_u8 (f32q (2 ^ 24 - 1) (-25)) = Ok 0 /\ to_u8 (f32q (-1) (-2)) = Ok 0
  /\ to_u8 S754_nan = Err PanicNotFinite /\ to_u8 (S754_infinity false) = Err PanicNotFinite.
Proof. repeat split; vm_compute; reflexivity. Qed.

Example usize_casts :
  usize_of_f64 nan = 0 /\ usize_of_f64 (-1)%float = 0 /\ usize_of_f64 0.75%float = 0
  /\ usize_of_f64 infinity = usize_max /\ usize_of_f64 0x1p100%float = usize_max
  /\ usize_of_f64 (f64_of_usize (2 ^ 53 + 1)) = 2 ^ 53.
Proof. repeat split; vm_compute; reflexivity. Qed.

(** ** [to_u8] rounds to the nearest byte

    The value of a finite [f32] [(-1)^s m 2^e] as a rational.  Values the
    program computes are valid binary32 numbers ([valid_binary]): the
    mantissa has at most 24 bits, and exactly 24 unless the exponent is
    the least one. *)

Definition f32_val (x : f32) : Q :=
  match x with
  | S754_finite s m e =>
      let z := if s then Zneg m else Zpos m in
      if Z.leb 0 e then inject_Z (z * 2 ^ e) else z # Z.to_pos (2 ^ (- e))
  | _ => 0%Q
  end.

Lemma digits2_pos_bounds (p : positive) :
  2 ^ (Zpos (digits2_pos p) - 1) <= Zpos p < 2 ^ Zpos (digits2_pos p).
Proof.
  induction p as [p IH|p IH|]; cbn [digits2_pos]; [| |cbn; lia];
    pose proof (Pos2Z.is_pos (digits2_pos p)); rewrite Pos2Z.inj_succ;
    set (d := Zpos (digits2_pos p)) in *;
    assert (Hd : 2 ^ Z.succ d = 2 * 2 ^ d) by (rewrite Z.pow_succ_r; lia);
    assert (Hd' : 2 ^ d = 2 * 2 ^ (d - 1)) by (rewrite <- Z.pow_succ_r by lia; f_equal; lia);
    replace (Z.succ d - 1) with d by lia;
    [rewrite (Pos2Z.inj_xI p) | rewrite (Pos2Z.inj_xO p)]; lia.
Qed.

Lemma f32_canonical s m e :
  valid_binary f32_prec f32_emax (S754_finite s m e) = true ->
  Zpos m < 2 ^ 24 /\ (e = -149 \/ 2 ^ 23 <= Zpos m).
Proof.
  cbn [valid_binary]; unfold bounded, canonical_mantissa, fexp, emin, f32_prec, f32_emax.
  intros H; apply andb_prop in H as [H _]; apply Z.eqb_eq in H.
  pose proof (digits2_pos_bounds m) as [Hlo Hhi].
  pose proof (Pos2Z.is_pos (digits2_pos m)).
  assert (Hd : Zpos (digits2_pos m) <= 24 /\ (e = -149 \/ Zpos (digits2_pos m) = 24)) by lia.
  destruct Hd as [Hd [He | He]]; split; auto.
  - eapply Z.lt_le_trans; [exact Hhi | apply Z.pow_le_mono_r; lia].
  - rewrite He in Hhi; exact Hhi.
  - right; rewrite He in Hlo; exact Hlo.
Qed.

Lemma f32_val_neg_exp m e :
  e < 0 -> f32_val (S754_finite false m e) = Zpos m # Z.to_pos (2 ^ (- e)).
Proof. intros He; unfold f32_val; destruct (Z.leb_spec 0 e); [lia | reflexivity]. Qed.

(** Comparing [m / 2^k] with an integer is comparing integers. *)
Lemma Qmake_pow_lt c m k :
  0 <= k -> (c # 1 < Zpos m # Z.to_pos (2 ^ k))%Q <-> c * 2 ^ k < Zpos m.
Proof.
  intros Hk; unfold Qlt; cbn [Qnum Qden].
  rewrite Z2Pos.id by (apply Z.pow_pos_nonneg; lia). lia.
Qed.

Lemma Qmake_pow_le c m k :
  0 <= k -> (Zpos m # Z.to_pos (2 ^ k) <= c # 1)%Q <-> Zpos m <= c * 2 ^ k.
Proof.
  intros Hk; unfold Qle; cbn [Qnum Qden].
  rewrite Z2Pos.id by (apply Z.pow_pos_nonneg; lia). lia.
Qed.

Lemma f32_of_Z_0 : f32_of_Z 0 = S754_zero false.
Proof. reflexivity. Qed.

Lemma f32_of_Z_255 : f32_of_Z 255 = S754_finite false 16711680 (-16).
Proof. reflexivity. Qed.

(** [f32::clamp(0.0, 255.0)] on a valid positive [f32] compares it with
    255 correctly. *)
Lemma sfltb_255 m e :
  valid_binary f32_prec f32_emax (S754_finite false m e) = true ->
  SFltb (S754_finite false 16711680 (-16)) (S754_finite false m e) = true
  <-> (255 < f32_val (S754_finite false m e))%Q.
Proof.
  intros Hv; apply f32_canonical in Hv as [Hm Hn].
  unfold SFltb, SFcompare. destruct (Z.compare_spec (-16) e) as [<-|He|He].
  - rewrite f32_val_neg_exp, Qmake_pow_lt by lia.
    change (Pos.compare_cont Eq 16711680 m) with (Pos.compare 16711680 m).
    destruct (Pos.compare_spec 16711680 m) as [<-|Hlt|Hgt]; split; intros H;
      try discriminate; try reflexivity; lia.
  - split; [intros _|reflexivity]. destruct Hn as [Hn|Hn]; [lia|].
    unfold f32_val; destruct (Z.leb_spec 0 e).
    + unfold Qlt, inject_Z; cbn [Qnum Qden]. pose proof (Z.pow_pos_nonneg 2 e ltac:(lia)). nia.
    + apply Qmake_pow_lt; [lia|].
      assert (2 ^ (- e) <= 2 ^ 15) by (apply Z.pow_le_mono_r; lia). nia.
  - split; [discriminate|]. rewrite f32_val_neg_exp, Qmake_pow_lt by lia.
    assert (2 ^ 17 <= 2 ^ (- e)) by (apply Z.pow_le_mono_r; lia). nia.
Qed.

(** [floor (m / 2^k + 1/2)], the rounding [f_round] computes. *)
Lemma round_half_up (m : positive) (k : Z) :
  0 < k ->
  let r := (Zpos m + 2 ^ (k - 1)) / 2 ^ k in
  r * 2 ^ k <= Zpos m + 2 ^ (k - 1) < (r + 1) * 2 ^ k.
Proof.
  intros Hk; cbv zeta. assert (Hp : 0 < 2 ^ k) by (apply Z.pow_pos_nonneg; lia).
  pose proof (Z.mul_div_le (Zpos m + 2 ^ (k - 1)) (2 ^ k) Hp).
  pose proof (Z.mul_succ_div_gt (Zpos m + 2 ^ (k - 1)) (2 ^ k) Hp).
  set (r := (Zpos m + 2 ^ (k - 1)) / 2 ^ k) in *. nia.
Qed.

Lemma f_round_pos m e :
  e < 0 -> f_round (S754_finite false m e) = f32_of_Z ((Zpos m + 2 ^ (- e - 1)) / 2 ^ (- e)).
Proof.
  intros He; unfold f_round. destruct (Z.leb_spec 0 e); [lia|].
  rewrite Z.shiftr_div_pow2, Z.shiftl_mul_pow2 by lia. now rewrite Z.mul_1_l.
Qed.

(** On a positive input [to_u8] is the clamp to 255 and the rounding. *)
Lemma to_u8_pos m e :
  to_u8 (S754_finite false m e)
  = Ok (u8_of_f32 (f_round (if SFltb (S754_finite false 16711680 (-16)) (S754_finite false m e)
                            then S754_finite false 16711680 (-16) else S754_finite false m e))).
Proof. unfold to_u8, f_clamp. rewrite f32_of_Z_0, f32_of_Z_255. reflexivity. Qed.

(** C17: [to_u8] returns the byte nearest to its input: 0 for a value
    at most 0, 255 for one at least 255, and in between the integer
    within one half of the value, halves going up (away from zero), for
    every valid finite [f32]. *)
Theorem to_u8_nearest (x : f32) :
  valid_binary f32_prec f32_emax x = true -> f32_is_finite x = true ->
  exists k, to_u8 x = Ok k
  /\ ((f32_val x <= 0)%Q -> k = 0)
  /\ ((255 <= f32_val x)%Q -> k = 255)
  /\ ((0 <= f32_val x <= 255)%Q -> (f32_val x - (1 # 2) < inject_Z k <= f32_val x + (1 # 2))%Q).
Proof.
  intros Hv Hf. destruct x as [s|s| |s m e]; try discriminate Hf.
  - exists 0. split; [destruct s; reflexivity|]. cbn [f32_val].
    split; [reflexivity|]. split; [intros H; lra|]. intros _; unfold inject_Z; lra.
  - destruct s.
    + exists 0. assert (Hneg : (f32_val (S754_finite true m e) < 0)%Q).
      { unfold f32_val; destruct (Z.leb_spec 0 e); unfold Qlt, inject_Z; cbn [Qnum Qden].
        - pose proof (Z.pow_pos_nonneg 2 e ltac:(lia)). nia.
        - lia. }
      split; [unfold to_u8, f_clamp; rewrite f32_of_Z_0, f32_of_Z_255; reflexivity|].
      split; [reflexivity|]. split; intros; lra.
    + rewrite to_u8_pos. destruct (SFltb _ _) eqn:E.
      * apply (sfltb_255 m e Hv) in E. exists 255. split; [reflexivity|].
        split; [intros; lra|]. split; [reflexivity|]. intros; lra.
      * assert (Hle : (f32_val (S754_finite false m e) <= 255)%Q).
        { apply Qnot_lt_le; intros Hlt; apply (sfltb_255 m e Hv) in Hlt; congruence. }
        assert (He : e < 0).
        { unfold SFltb, SFcompare in E. destruct (Z.compare_spec (-16) e); [lia | discriminate | lia]. }
        rewrite f32_val_neg_exp in * by exact He. apply Qmake_pow_le in Hle; [|lia].
        rewrite f_round_pos by exact He.
        set (k := - e) in *. assert (Hk : 0 < k) by lia.
        pose proof (round_half_up m k Hk) as Hr; cbv zeta in Hr.
        set (r := (Zpos m + 2 ^ (k - 1)) / 2 ^ k) in *.
        assert (H2 : 2 ^ k = 2 * 2 ^ (k - 1)) by (rewrite <- Z.pow_succ_r by lia; f_equal; lia).
        assert (Hp : 0 < 2 ^ (k - 1)) by (apply Z.pow_pos_nonneg; lia).
        assert (Hr255 : 0 <= r < 256) by nia.
        rewrite u8_of_f32_of_Z by exact Hr255. exists r. split; [reflexivity|].
        unfold Qle, Qlt, Qminus, Qplus, Qopp, inject_Z; cbn [Qnum Qden].
        rewrite !Pos2Z.inj_mul, !Z2Pos.id by lia.
        split; [lia|]. split; [nia|]. intros _; split; nia.
Qed.

Lemma to_u8_nearest_witness :
  valid_binary f32_prec f32_emax (f32q 5 (-1)) = true /\ f32_is_finite (f32q 5 (-1)) = true
  /\ (exists k, to_u8 (f32q 5 (-1)) = Ok k
      /\ ((f32_val (f32q 5 (-1)) <= 0)%Q -> k = 0)
      /\ ((255 <= f32_val (f32q 5 (-1)))%Q -> k = 255)
      /\ ((0 <= f32_val (f32q 5 (-1)) <= 255)%Q ->
          (f32_val (f32q 5 (-1)) - (1 # 2) < inject_Z k <= f32_val (f32q 5 (-1)) + (1 # 2))%Q)).
Proof.
  assert (Hv : valid_binary f32_prec f32_emax (f32q 5 (-1)) = true) by (vm_compute; reflexivity).
  assert (Hf : f32_is_finite (f32q 5 (-1)) = true) by (vm_compute; reflexivity).
  split; [exact Hv|]. split; [exact Hf|].
  pose proof (to_u8_nearest (f32q 5 (-1)) Hv Hf) as Hw; exact Hw.
Defined.
