(* ===== verification/Image.v ===== *)
(** * The image glue of main.rs: decoding into channel matrices and encoding back

    [RgbImage] is an [ImageBuffer<Rgb<u8>, _>], [into_rgb8] converts
    the 8-bit [DynamicImage]s to it (line 36); [decode_channels] is lines
    37-47 (three zero [f32] matrices of [nrows x ncols] with
    [(nrows, ncols) = img.dimensions()], then the pixel loop with faer's
    bounds-checked writes), [encode_image] is lines 67-72
    ([ImageBuffer::from_fn] with [to_u8] of each channel entry).  The
    theorems: the channel matrices are the image transposed (C8),
    decoding then encoding is the identity on byte images (C7), the
    encoded image has the requested shape and bytes, and encoding can only
    fail in [to_u8]; [into_rgb8] turns a luma image into a gray one,
    and a gray image has three equal channel matrices. *)

From Stdlib Require Import List Lia Arith ZArith SpecFloat.
From S2P Require Import Prelude Scalar Matrix RustFloat.
Import ListNotations.
Local Open Scope nat_scope.


(** An [ImageBuffer<Rgb<u8>, _>]: pixel [(x, y)] is stored at index
    [y * width + x]. *)
Record RgbImage := mk_image {
  img_width : nat;
  img_height : nat;
  img_pixels : list (Z * Z * Z)
}.

Definition Mat := list (list f32).

(** What [image::open] decodes a file to, for the 8-bit colour types:
    [DynamicImage::ImageLuma8], [ImageLumaA8], [ImageRgb8], [ImageRgba8],
    each with width, height and the samples in storage order. *)
Inductive DynamicImage :=
| ImageLuma8 (w h : nat) (px : list Z)
| ImageLumaA8 (w h : nat) (px : list (Z * Z))
| ImageRgb8 (img : RgbImage)
| ImageRgba8 (w h : nat) (px : list (Z * Z * Z * Z)).

(** [DynamicImage::into_rgb8()] (line 36): a luma sample is copied to
    the three channels, an alpha sample is dropped (no blending). *)
Definition into_rgb8 (d : DynamicImage) : RgbImage :=
  match d with
  | ImageLuma8 w h px => mk_image w h (map (fun l => (l, l, l)) px)
  | ImageLumaA8 w h px => mk_image w h (map (fun '(l, _) => (l, l, l)) px)
  | ImageRgb8 img => img
  | ImageRgba8 w h px => mk_image w h (map (fun '(r, g, b, _) => (r, g, b)) px)
  end.

(** [img.enumerate_pixels()]: [(x, y, pixel)] in storage order. *)
Definition enumerate_pixels (img : RgbImage) : list (nat * nat * (Z * Z * Z)) :=
  map (fun i => (i mod img_width img, i / img_width img, nth i (img_pixels img) (0, 0, 0)%Z))
      (seq 0 (img_width img * img_height img)).

(** [mat[(i, j)] = x]; faer panics on an index out of range. *)
Definition mat_set (M : Mat) (i j : nat) (x : f32) : result Mat Panic :=
  match nth_error M i with
  | Some row => if j <? length row then Ok (set_nth M i (set_nth row j x)) else Err PanicIndex
  | None => Err PanicIndex
  end.

(** [mat[(i, j)]]. *)
Definition mat_get (M : Mat) (i j : nat) : result f32 Panic :=
  match nth_error M i with
  | Some row => match nth_error row j with Some x => Ok x | None => Err PanicIndex end
  | None => Err PanicIndex
  end.

(** Lines 43-47: the loop body for one pixel. *)
Definition write_pixel (rgb : Mat * Mat * Mat) (p : nat * nat * (Z * Z * Z)) : result (Mat * Mat * Mat) Panic :=
  let '(r0, g0, b0) := rgb in
  let '(row, col, (r, g, b)) := p in
  r1 <-? mat_set r0 row col (f32_of_u8 r) ;;
  g1 <-? mat_set g0 row col (f32_of_u8 g) ;;
  b1 <-? mat_set b0 row col (f32_of_u8 b) ;;
  Ok (r1, g1, b1).

(** Lines 37-47: three zero matrices of [nrows x ncols], then the pixel loop. *)
Definition decode_channels (img : RgbImage) : result (Mat * Mat * Mat) Panic :=
  let nrows := img_width img in
  let ncols := img_height img in
  fold_left (fun acc p => rgb <-? acc ;; write_pixel rgb p) (enumerate_pixels img)
            (Ok (mzeros nrows ncols, mzeros nrows ncols, mzeros nrows ncols)).
(** Lines 67-72: [ImageBuffer::from_fn(nrows, ncols, |i, j| ...)]: pixel
    [(i, j)] of an image of width [nrows] and height [ncols] is
    [to_u8] of entry [(i, j)] of each channel, red first. *)
Definition encode_pixel (mats : Mat * Mat * Mat) (i j : nat) : result (Z * Z * Z) Panic :=
  let '(mr, mg, mb) := mats in
  r <-? mat_get mr i j ;; g <-? mat_get mg i j ;; b <-? mat_get mb i j ;;
  r8 <-? to_u8 r ;; g8 <-? to_u8 g ;; b8 <-? to_u8 b ;; Ok (r8, g8, b8).

Definition encode_image (nrows ncols : nat) (mats : Mat * Mat * Mat) : result RgbImage Panic :=
  px <-? mapR (fun k => encode_pixel mats (k mod nrows) (k / nrows)) (seq 0 (nrows * ncols)) ;;
  Ok (mk_image nrows ncols px).

(** ** Pixels, channels and the transposed channel matrices *)

(** Pixel [(x, y)] of the image and channel [c] (0 red, 1 green, 2 blue). *)
Definition pixel_at (img : RgbImage) (x y : nat) : Z * Z * Z :=
  nth (y * img_width img + x) (img_pixels img) (0, 0, 0)%Z.

Definition chan (c : nat) (p : Z * Z * Z) : Z :=
  let '(r, g, b) := p in match c with 0 => r | 1 => g | _ => b end.

(** The [w x h] matrix whose entry [(x, y)] is [g x y]. *)
Definition tabulate (w h : nat) (g : nat -> nat -> f32) : Mat :=
  map (fun x => map (fun y => g x y) (seq 0 h)) (seq 0 w).

(** Channel [c] as main.rs stores it: entry [(x, y)] is pixel [(x, y)]. *)
Definition chan_mat (img : RgbImage) (c : nat) : Mat :=
  tabulate (img_width img) (img_height img) (fun x y => f32_of_u8 (chan c (pixel_at img x y))).

(** A decodable image: [width * height] pixels of three bytes. *)
Definition image_wf (img : RgbImage) : Prop :=
  length (img_pixels img) = img_width img * img_height img
  /\ Forall (fun p => forall c, (0 <= chan c p < 256)%Z) (img_pixels img).

Lemma mat_set_tabulate w h g x y v :
  x < w -> y < h ->
  mat_set (tabulate w h g) x y v
  = Ok (tabulate w h (fun x' y' => if andb (Nat.eqb x' x) (Nat.eqb y' y) then v else g x' y')).
Proof.
  intros Hx Hy; unfold mat_set, tabulate. rewrite nth_error_map_seq by exact Hx.
  rewrite length_map, length_seq. destruct (Nat.ltb_spec y h); [|lia]. f_equal.
  rewrite set_nth_map_seq, set_nth_map_seq by (rewrite ?length_map, ?length_seq; lia).
  apply map_ext; intros x'. cbn [Nat.add].
  destruct (Nat.eqb_spec x' x) as [->|Hne]; cbn [andb]; [|reflexivity].
  apply map_ext; intros y'. destruct (Nat.eqb y' y); reflexivity.
Qed.

Lemma mzeros_tabulate w h : mzeros (F := f32) w h = tabulate w h (fun _ _ => szero).
Proof.
  unfold mzeros, vzeros, tabulate. rewrite map_const_seq. f_equal. now rewrite map_const_seq.
Qed.

(** The matrices after the first [k] pixels of the loop: the entries of
    those pixels are written, the others still zero. *)
Definition partial (img : RgbImage) (c k : nat) : Mat :=
  tabulate (img_width img) (img_height img)
    (fun x y => if y * img_width img + x <? k
                then f32_of_u8 (chan c (nth (y * img_width img + x) (img_pixels img) (0, 0, 0)%Z))
                else szero).

Lemma decode_prefix (img : RgbImage) k :
  k <= img_width img * img_height img ->
  fold_left (fun acc p => rgb <-? acc ;; write_pixel rgb p)
            (map (fun i => (i mod img_width img, i / img_width img, nth i (img_pixels img) (0, 0, 0)%Z))
                 (seq 0 k))
            (Ok (mzeros (img_width img) (img_height img), mzeros (img_width img) (img_height img),
                 mzeros (img_width img) (img_height img)))
  = Ok (partial img 0 k, partial img 1 k, partial img 2 k).
Proof.
  destruct img as [w h px]; unfold partial; cbn [img_width img_height img_pixels].
  induction k as [|k IH]; intros Hk.
  - cbn [seq map fold_left]. rewrite mzeros_tabulate. reflexivity.
  - rewrite seq_S, map_app, fold_left_app, IH by lia. cbn [map fold_left rbind Nat.add].
    assert (Hw : 0 < w) by (destruct w; cbn in Hk; lia).
    pose proof (Nat.div_mod_eq k w) as Hdm. pose proof (Nat.mod_upper_bound k w ltac:(lia)) as Hmod.
    assert (Hdiv : k / w < h) by (apply Nat.Div0.div_lt_upper_bound; lia).
    remember (nth k px (0, 0, 0)%Z) as p eqn:Hp. destruct p as [[r g] b].
    unfold write_pixel. rewrite !mat_set_tabulate by assumption. cbn [rbind]. f_equal.
    assert (Hcell : forall c x y, x < w -> y < h ->
      (if andb (Nat.eqb x (k mod w)) (Nat.eqb y (k / w)) then f32_of_u8 (chan c (r, g, b))
       else if y * w + x <? k then f32_of_u8 (chan c (nth (y * w + x) px (0, 0, 0)%Z)) else szero)
      = (if y * w + x <? S k then f32_of_u8 (chan c (nth (y * w + x) px (0, 0, 0)%Z)) else szero)).
    { intros c x y Hx Hy. destruct (Nat.eqb_spec x (k mod w)), (Nat.eqb_spec y (k / w)); cbn [andb].
      - subst. replace ((k / w) * w + k mod w) with k by lia. rewrite <- Hp.
        destruct (Nat.ltb_spec k (S k)); [reflexivity | lia].
      - destruct (Nat.ltb_spec (y * w + x) k), (Nat.ltb_spec (y * w + x) (S k)); auto; try lia;
          exfalso; apply n; apply Nat.div_unique with x; lia.
      - destruct (Nat.ltb_spec (y * w + x) k), (Nat.ltb_spec (y * w + x) (S k)); auto; try lia;
          exfalso; apply n; apply Nat.mod_unique with y; lia.
      - destruct (Nat.ltb_spec (y * w + x) k), (Nat.ltb_spec (y * w + x) (S k)); auto; try lia;
          exfalso; apply n; apply Nat.mod_unique with y; lia. }
    unfold tabulate. f_equal; [f_equal|]; apply map_ext_in; intros x Hx; apply in_seq in Hx;
      apply map_ext_in; intros y Hy; apply in_seq in Hy.
    + apply (Hcell 0); lia.
    + apply (Hcell 1); lia.
    + apply (Hcell 2); lia.
Qed.

Lemma partial_full (img : RgbImage) c :
  partial img c (img_width img * img_height img) = chan_mat img c.
Proof.
  unfold partial, chan_mat, tabulate, pixel_at. apply map_ext_in; intros x Hx; apply in_seq in Hx.
  apply map_ext_in; intros y Hy; apply in_seq in Hy.
  destruct (Nat.ltb_spec (y * img_width img + x) (img_width img * img_height img)); [reflexivity|nia].
Qed.

Lemma mat_get_tabulate w h g x y : x < w -> y < h -> mat_get (tabulate w h g) x y = Ok (g x y).
Proof.
  intros Hx Hy; unfold mat_get, tabulate.
  rewrite nth_error_map_seq by exact Hx. now rewrite nth_error_map_seq by exact Hy.
Qed.

Lemma chan_eta (p : Z * Z * Z) : (chan 0 p, chan 1 p, chan 2 p) = p.
Proof. now destruct p as [[r g] b]. Qed.

Lemma mat_wf_tabulate w h g : mat_wf w h (tabulate w h g).
Proof.
  unfold tabulate; split; [now rewrite length_map, length_seq|].
  apply Forall_map, Forall_forall; intros x _; now rewrite length_map, length_seq.
Qed.

(** The pixel loop fills the three channel matrices completely. *)
Lemma decode_channels_chan_mat (img : RgbImage) :
  decode_channels img = Ok (chan_mat img 0, chan_mat img 1, chan_mat img 2).
Proof.
  unfold decode_channels, enumerate_pixels.
  rewrite decode_prefix by lia. now rewrite !partial_full.
Qed.

(** C8: main.rs reads pixel [(x, y)] into entry [(x, y)] of each channel
    matrix of [width x height] (the names [nrows, ncols] hold width and
    height), so each channel matrix is the image's channel transposed,
    with every byte converted exactly; the loop never indexes out of
    range. *)
Theorem decode_channels_transposed (img : RgbImage) :
  exists mr mg mb, decode_channels img = Ok (mr, mg, mb)
  /\ mat_wf (img_width img) (img_height img) mr /\ mat_wf (img_width img) (img_height img) mg
  /\ mat_wf (img_width img) (img_height img) mb
  /\ forall x y, x < img_width img -> y < img_height img ->
       mat_get mr x y = Ok (f32_of_u8 (chan 0 (pixel_at img x y)))
       /\ mat_get mg x y = Ok (f32_of_u8 (chan 1 (pixel_at img x y)))
       /\ mat_get mb x y = Ok (f32_of_u8 (chan 2 (pixel_at img x y))).
Proof.
  exists (chan_mat img 0), (chan_mat img 1), (chan_mat img 2).
  split; [apply decode_channels_chan_mat|]. unfold chan_mat.
  split; [apply mat_wf_tabulate|]. split; [apply mat_wf_tabulate|]. split; [apply mat_wf_tabulate|].
  intros x y Hx Hy. rewrite !mat_get_tabulate by assumption. auto.
Qed.

(** C7: round trip of the glue: writing the decoded channel matrices
    back with [ImageBuffer::from_fn(nrows, ncols, ..)] and [to_u8] gives
    the input image, so the transposition on reading is undone on writing
    and [to_u8] loses nothing on byte values. *)
Theorem decode_encode_roundtrip (img : RgbImage) :
  image_wf img ->
  (rgb <-? decode_channels img ;; encode_image (img_width img) (img_height img) rgb) = Ok img.
Proof.
  intros [Hlen Hbytes]. rewrite decode_channels_chan_mat. cbn [rbind].
  destruct img as [w h px]; cbn [img_width img_height img_pixels] in *.
  unfold encode_image.
  rewrite (mapR_ok _ (fun k => nth k px (0, 0, 0)%Z)).
  - cbn [rbind]. rewrite <- Hlen, map_nth_seq. reflexivity.
  - intros k Hk; apply in_seq in Hk.
    assert (Hw : 0 < w) by (destruct w; cbn in Hk; lia).
    pose proof (Nat.div_mod_eq k w) as Hdm. pose proof (Nat.mod_upper_bound k w ltac:(lia)) as Hmod.
    assert (Hdiv : k / w < h) by (apply Nat.Div0.div_lt_upper_bound; lia).
    assert (Hpix : pixel_at (mk_image w h px) (k mod w) (k / w) = nth k px (0, 0, 0)%Z).
    { unfold pixel_at; cbn [img_width img_pixels]. f_equal; lia. }
    assert (Hin : In (nth k px (0, 0, 0)%Z) px) by (apply nth_In; lia).
    rewrite Forall_forall in Hbytes. specialize (Hbytes _ Hin).
    unfold encode_pixel, chan_mat; cbn [img_width img_height].
    rewrite !mat_get_tabulate by assumption. cbn [rbind]. rewrite !Hpix.
    rewrite !to_u8_of_u8 by apply Hbytes. cbn [rbind]. now rewrite chan_eta.
Qed.

(** A gray pixel: its three channels are equal. *)
Definition gray (p : Z * Z * Z) : Prop := chan 0 p = chan 1 p /\ chan 1 p = chan 2 p.

Lemma gray_diag (l : Z) : gray (l, l, l).
Proof. split; reflexivity. Qed.

Lemma into_rgb8_luma_gray w h px : Forall gray (img_pixels (into_rgb8 (ImageLuma8 w h px))).
Proof. cbn; apply Forall_map, Forall_forall; intros l _; apply gray_diag. Qed.

Lemma Forall_nth_default {A : Type} (P : A -> Prop) (l : list A) d k :
  Forall P l -> P d -> P (nth k l d).
Proof.
  intros Hl Hd; destruct (Nat.lt_ge_cases k (length l)) as [Hk | Hk].
  - rewrite Forall_forall in Hl; apply Hl, nth_In, Hk.
  - now rewrite nth_overflow.
Qed.

(** The channel matrices of a gray image are one matrix. *)
Lemma chan_mat_gray (img : RgbImage) :
  Forall gray (img_pixels img) -> chan_mat img 1 = chan_mat img 0 /\ chan_mat img 2 = chan_mat img 0.
Proof.
  intros Hg; unfold chan_mat, tabulate; split; apply map_ext; intros x; apply map_ext; intros y;
    destruct (Forall_nth_default gray _ (0, 0, 0)%Z (y * img_width img + x) Hg (gray_diag 0)) as [H01 H12];
    unfold pixel_at; congruence.
Qed.

(** Writing three equal matrices gives a gray image. *)
Lemma encode_image_gray n m (M : Mat) out :
  encode_image n m (M, M, M) = Ok out -> Forall gray (img_pixels out).
Proof.
  unfold encode_image; destruct (mapR _ _) as [px |] eqn:Hm; cbn [rbind]; [| discriminate].
  intros E; injection E as <-; cbn [img_pixels].
  eapply mapR_Forall; [| exact Hm]; intros k p Hk; unfold encode_pixel in Hk.
  destruct (mat_get M _ _) as [x |]; cbn [rbind] in Hk; [| discriminate].
  destruct (to_u8 x) as [b |]; cbn [rbind] in Hk; [| discriminate].
  injection Hk as <-; apply gray_diag.
Qed.

(** ** The zero matrix from a channel minus itself *)

Lemma zipw_self (f : f32 -> f32 -> f32) (l : list f32) : zipw f l l = map (fun a => f a a) l.
Proof. induction l as [| a l IH]; cbn; [reflexivity | now rewrite IH]. Qed.

Lemma msub_self_map (A : Mat) : msub A A = map (map (fun a => ssub a a)) A.
Proof.
  unfold msub; induction A as [| r A IH]; cbn; [reflexivity |].
  rewrite zipw_self; f_equal; exact IH.
Qed.

(** In [f32], a byte minus itself is [+0] (checked on the 256 bytes). *)
Lemma ssub_byte_self b : (0 <= b < 256)%Z -> ssub (f32_of_u8 b) (f32_of_u8 b) = f32_of_Z 0.
Proof.
  intros Hb.
  pose proof (forall_bytes (fun b => match @ssub f32 f32_ops (f32_of_u8 b) (f32_of_u8 b) with
                                     | S754_zero false => true | _ => false end)
                ltac:(vm_compute; reflexivity) b Hb) as Hz.
  cbv beta in Hz; destruct (ssub _ _) as [[] | [] | | [] ? ?]; try discriminate Hz; reflexivity.
Qed.

(** The channel matrix of a byte image minus itself is [+0] everywhere. *)
Lemma chan_mat_self_sub (img : RgbImage) c :
  image_wf img ->
  msub (chan_mat img c) (chan_mat img c) = tabulate (img_width img) (img_height img) (fun _ _ => f32_of_Z 0).
Proof.
  intros [_ Hb]; rewrite msub_self_map; unfold chan_mat, tabulate.
  rewrite map_map; apply map_ext; intros x; rewrite map_map; apply map_ext; intros y.
  apply ssub_byte_self; unfold pixel_at.
  apply (Forall_nth_default (fun p => forall c, (0 <= chan c p < 256)%Z)); [exact Hb |].
  intros [| [| c']]; cbn; lia.
Qed.

(** Writing three [+0] matrices gives a black image. *)
Lemma encode_image_zero n m :
  encode_image n m (tabulate n m (fun _ _ => f32_of_Z 0), tabulate n m (fun _ _ => f32_of_Z 0),
                    tabulate n m (fun _ _ => f32_of_Z 0))
  = Ok (mk_image n m (repeat (0, 0, 0)%Z (n * m))).
Proof.
  unfold encode_image; rewrite (mapR_ok _ (fun _ => (0, 0, 0)%Z)).
  - cbn [rbind]; now rewrite map_const_seq.
  - intros k Hk; apply in_seq in Hk.
    assert (Hn : 0 < n) by (destruct n; cbn in Hk; lia).
    assert (Hi : k mod n < n) by (apply Nat.mod_upper_bound; lia).
    assert (Hj : k / n < m) by (apply Nat.Div0.div_lt_upper_bound; lia).
    unfold encode_pixel; rewrite !mat_get_tabulate by assumption; reflexivity.
Qed.

Lemma encode_image_shape nrows ncols mats out :
  encode_image nrows ncols mats = Ok out ->
  img_width out = nrows /\ img_height out = ncols /\ length (img_pixels out) = nrows * ncols
  /\ Forall (fun p => forall c, (0 <= chan c p <= 255)%Z) (img_pixels out).
Proof.
  unfold encode_image. destruct (mapR _ _) as [px|e] eqn:Hm; cbn [rbind]; [|discriminate].
  intros Eo; injection Eo as <-; cbn [img_width img_height img_pixels].
  split; [reflexivity|]. split; [reflexivity|]. split.
  - now rewrite (mapR_length _ _ _ Hm), length_seq.
  - eapply mapR_Forall; [|exact Hm]. intros k [[r g] b] Hk.
    unfold encode_pixel in Hk. destruct mats as [[mr mg] mb].
    destruct (mat_get mr _ _), (mat_get mg _ _), (mat_get mb _ _); cbn [rbind] in Hk; try discriminate.
    destruct (to_u8 a) eqn:Er, (to_u8 a0) eqn:Eg, (to_u8 a1) eqn:Eb; cbn [rbind] in Hk; try discriminate.
    injection Hk as <- <- <-. apply to_u8_range in Er, Eg, Eb.
    intros [|[|c]]; cbn; lia.
Qed.

Lemma mat_get_wf (M : Mat) n m i j : mat_wf n m M -> i < n -> j < m -> exists x, mat_get M i j = Ok x.
Proof.
  intros [Hn Hm] Hi Hj; unfold mat_get.
  destruct (nth_error M i) as [row|] eqn:Er; [|apply nth_error_None in Er; lia].
  assert (Hrow : length row = m) by (apply nth_error_In in Er; rewrite Forall_forall in Hm; auto).
  destruct (nth_error row j) eqn:Ej; [eauto | apply nth_error_None in Ej; lia].
Qed.

(** Writing [nrows x ncols] matrices back can only fail in [to_u8]. *)
Lemma encode_image_err n m (mr mg mb : Mat) p :
  mat_wf n m mr -> mat_wf n m mg -> mat_wf n m mb ->
  encode_image n m (mr, mg, mb) = Err p -> p = PanicNotFinite.
Proof.
  intros Hr Hg Hb. unfold encode_image.
  destruct (mapR _ _) as [px|e] eqn:Hm; cbn [rbind]; [discriminate|]. intros E; injection E as <-.
  apply mapR_Err in Hm as (k & Hk & Hek). apply in_seq in Hk.
  assert (Hn : 0 < n) by (destruct n; cbn in Hk; lia).
  assert (Hi : k mod n < n) by (apply Nat.mod_upper_bound; lia).
  assert (Hj : k / n < m) by (apply Nat.Div0.div_lt_upper_bound; lia).
  unfold encode_pixel in Hek.
  destruct (mat_get_wf mr n m _ _ Hr Hi Hj) as [r Er], (mat_get_wf mg n m _ _ Hg Hi Hj) as [g Eg],
           (mat_get_wf mb n m _ _ Hb Hi Hj) as [b Eb].
  rewrite Er, Eg, Eb in Hek; cbn [rbind] in Hek.
  destruct (to_u8 r) as [r8|q] eqn:Tr; cbn [rbind] in Hek; [|injection Hek as <-; exact (to_u8_err _ _ Tr)].
  destruct (to_u8 g) as [g8|q] eqn:Tg; cbn [rbind] in Hek; [|injection Hek as <-; exact (to_u8_err _ _ Tg)].
  destruct (to_u8 b) as [b8|q] eqn:Tb; cbn [rbind] in Hek; [discriminate | injection Hek as <-; exact (to_u8_err _ _ Tb)].
Qed.

Definition img3x2 : RgbImage :=
  mk_image 3 2 [(10, 20, 30); (40, 50, 60); (70, 80, 90);
                (100, 110, 120); (130, 140, 150); (160, 170, 180)]%Z.

Lemma image_wf_img3x2 : image_wf img3x2.
Proof.
  split; [reflexivity|].
  repeat (apply Forall_cons; [intros [|[|c]]; cbn; lia|]). apply Forall_nil.
Qed.

Lemma decode_encode_roundtrip_witness :
  image_wf img3x2
  /\ (rgb <-? decode_channels img3x2 ;; encode_image (img_width img3x2) (img_height img3x2) rgb) = Ok img3x2.
Proof.
  split; [exact image_wf_img3x2|].
  pose proof (decode_encode_roundtrip img3x2 image_wf_img3x2) as Hw; exact Hw.
Defined.
