(* ===== verification/Budget.v ===== *)
(** * The cut budget of main.rs (lines 48-52 and 59)

    [nbits_per_color = nrows * ncols * 8] and
    [nbits_per_cut = nrows + ncols + 32] in [usize], where an overflow
    panics (a debug build), the budget
    [(compression_rate * nbits_per_color as f64 / nbits_per_cut as f64) as usize]
    in binary64 with the saturating cast, and the normalization
    [(255 * 255 * nrows * ncols) as f32] of line 59.  The theorems: every
    error of these computations is an overflow, [nbits_per_color]
    overflows exactly when the product exceeds [usize::MAX] (C14), and
    the [f64] budget can be one short of the exact quotient (an example). *)

From Stdlib Require Import List Lia Arith ZArith PrimFloat SpecFloat FloatOps FloatAxioms Uint63.
From S2P Require Import Prelude Scalar RustFloat.
Local Open Scope nat_scope.

(** [usize] arithmetic, panicking on overflow as a debug build does. *)
Definition usize_mul (a b : Z) : result Z Panic :=
  if (a * b <=? usize_max)%Z then Ok (a * b)%Z else Err PanicOverflow.
Definition usize_add (a b : Z) : result Z Panic :=
  if (a + b <=? usize_max)%Z then Ok (a + b)%Z else Err PanicOverflow.

(** Line 48: [nrows * ncols * 8]. *)
Definition nbits_per_color (nrows ncols : Z) : result Z Panic :=
  x <-? usize_mul nrows ncols ;; usize_mul x 8.

(** Line 49: [nrows + ncols + 32]. *)
Definition nbits_per_cut (nrows ncols : Z) : result Z Panic :=
  x <-? usize_add nrows ncols ;; usize_add x 32.

(** Lines 51-52: [(compression_rate * c as f64 / k as f64) as usize]. *)
Definition cut_budget (rate : float) (nbits_color nbits_cut : Z) : Z :=
  usize_of_f64 ((rate * f64_of_usize nbits_color) / f64_of_usize nbits_cut)%float.

(** Line 59: [(255 * 255 * nrows * ncols) as f32]. *)
Definition normalization (nrows ncols : Z) : result f32 Panic :=
  x <-? usize_mul (255 * 255) nrows ;; y <-? usize_mul x ncols ;; Ok (f32_of_usize y).

Lemma usize_mul_err a b p : usize_mul a b = Err p -> p = PanicOverflow.
Proof. unfold usize_mul; destruct (_ <=? _)%Z; intros E; inversion E; reflexivity. Qed.

Lemma usize_add_err a b p : usize_add a b = Err p -> p = PanicOverflow.
Proof. unfold usize_add; destruct (_ <=? _)%Z; intros E; inversion E; reflexivity. Qed.

(** Every error of a chain of [usize] operations is an overflow. *)
Ltac overflow_chain H :=
  repeat match type of H with
         | rbind _ _ = Err _ => apply rbind_Err in H as [H | (? & _ & H)]
         end;
  first [exact (usize_mul_err _ _ _ H) | exact (usize_add_err _ _ _ H) | discriminate H].

Lemma nbits_per_color_err a b p : nbits_per_color a b = Err p -> p = PanicOverflow.
Proof. unfold nbits_per_color; intros H; overflow_chain H. Qed.

Lemma nbits_per_cut_err a b p : nbits_per_cut a b = Err p -> p = PanicOverflow.
Proof. unfold nbits_per_cut; intros H; overflow_chain H. Qed.

Lemma normalization_err a b p : normalization a b = Err p -> p = PanicOverflow.
Proof. unfold normalization; intros H; overflow_chain H. Qed.

(** C14: [nrows * ncols * 8] (line 48) panics exactly when the product
    exceeds [usize::MAX]; the intermediate [nrows * ncols] never
    overflows on its own first. *)
Theorem nbits_per_color_overflow (n m : Z) :
  (0 <= n)%Z -> (0 <= m)%Z ->
  nbits_per_color n m = if (n * m * 8 <=? usize_max)%Z then Ok (n * m * 8)%Z else Err PanicOverflow.
Proof.
  intros Hn Hm; unfold nbits_per_color, usize_mul.
  destruct (Z.leb_spec (n * m) usize_max); cbn [rbind];
    destruct (Z.leb_spec (n * m * 8) usize_max); auto; nia.
Qed.

Lemma nbits_per_color_overflow_witness :
  (0 <= 2 ^ 31)%Z /\ (0 <= 2 ^ 31)%Z /\ nbits_per_color (2 ^ 31) (2 ^ 31) = Err PanicOverflow.
Proof.
  split; [lia|]. split; [lia|].
  rewrite (nbits_per_color_overflow (2 ^ 31) (2 ^ 31)) by lia. reflexivity.
Defined.

(** ** The budget of a rate that is not positive

    Signs through binary64 arithmetic: [notneg_sf] holds of [+0], the
    positive numbers, [+inf] and NaN; [nonpos_sf] of both zeros, the
    negative numbers, [-inf] and NaN.  A product of a value that is not
    positive by one that is not negative, and its quotient by one that is
    not negative, are not positive, and the saturating cast maps them
    to 0. *)

Definition notneg_sf (x : spec_float) : bool :=
  match x with S754_zero true | S754_infinity true | S754_finite true _ _ => false | _ => true end.

Definition nonpos_sf (x : spec_float) : bool :=
  match x with S754_infinity false | S754_finite false _ _ => false | _ => true end.

(** Rounding keeps the sign it is given. *)
Lemma binary_round_aux_sign prec emax s m e l :
  match binary_round_aux prec emax s m e l with
  | S754_nan => True
  | S754_zero s' | S754_infinity s' | S754_finite s' _ _ => s' = s
  end.
Proof.
  unfold binary_round_aux.
  destruct (shr_fexp prec emax m e l) as [r1 e1].
  destruct (shr_fexp prec emax _ e1 loc_Exact) as [r2 e2].
  destruct (shr_m r2); [reflexivity | destruct (e2 <=? emax - prec)%Z; reflexivity | exact I].
Qed.

Lemma notneg_round prec emax m e l : notneg_sf (binary_round_aux prec emax false m e l) = true.
Proof.
  pose proof (binary_round_aux_sign prec emax false m e l) as Hs.
  destruct (binary_round_aux _ _ _ _ _ _); try subst; reflexivity.
Qed.

Lemma nonpos_round prec emax m e l : nonpos_sf (binary_round_aux prec emax true m e l) = true.
Proof.
  pose proof (binary_round_aux_sign prec emax true m e l) as Hs.
  destruct (binary_round_aux _ _ _ _ _ _); try subst; reflexivity.
Qed.

#[export] Hint Resolve notneg_round nonpos_round : angus.

Lemma notneg_binary_round prec emax m e : notneg_sf (binary_round prec emax false m e) = true.
Proof. unfold binary_round; destruct (shl_align _ _ _); apply notneg_round. Qed.

#[export] Hint Resolve notneg_binary_round : angus.

Lemma notneg_normalize prec emax z e : (0 <= z)%Z -> notneg_sf (binary_normalize prec emax z e false) = true.
Proof. destruct z as [| z | z]; intros Hz; [reflexivity | apply notneg_binary_round | lia]. Qed.

(** The sign case analysis of a binary operation, rounding cases by the
    lemmas above. *)
Ltac sign_cases x y :=
  intros Hx Hy; destruct x as [[] | [] | | [] mx ex], y as [[] | [] | | [] my ey];
  try discriminate Hx; try discriminate Hy; cbn; auto with angus.

Lemma notneg_mul prec emax x y :
  notneg_sf x = true -> notneg_sf y = true -> notneg_sf (SFmul prec emax x y) = true.
Proof. sign_cases x y. Qed.

Lemma notneg_add prec emax x y :
  notneg_sf x = true -> notneg_sf y = true -> notneg_sf (SFadd prec emax x y) = true.
Proof. sign_cases x y. Qed.

Lemma nonpos_mul prec emax x y :
  nonpos_sf x = true -> notneg_sf y = true -> nonpos_sf (SFmul prec emax x y) = true.
Proof. sign_cases x y. Qed.

Lemma nonpos_div prec emax x y :
  nonpos_sf x = true -> notneg_sf y = true -> nonpos_sf (SFdiv prec emax x y) = true.
Proof. sign_cases x y; destruct (SFdiv_core_binary _ _ _ _ _ _) as [[mz ez] lz]; auto with angus. Qed.

Lemma sat_cast_nonpos max x : nonpos_sf x = true -> sat_cast max x = 0%Z.
Proof. destruct x as [[] | [] | | [] m e]; intros Hx; try discriminate Hx; reflexivity. Qed.

(** [n as f64] is never negative. *)
Lemma f64_of_usize_notneg n : notneg_sf (Prim2SF (f64_of_usize n)) = true.
Proof.
  unfold f64_of_usize; rewrite FloatAxioms.add_spec, FloatAxioms.mul_spec, !FloatAxioms.of_uint63_spec.
  apply notneg_add; [apply notneg_mul; [| reflexivity] |];
    apply notneg_normalize; apply (Uint63.to_Z_bounded _).
Qed.

(** A rate that is not a positive number (negative, a zero, [-inf] or
    NaN) gives no cut, whatever the bit counts. *)
Lemma cut_budget_nonpos rate c k : nonpos_sf (Prim2SF rate) = true -> cut_budget rate c k = 0%Z.
Proof.
  intros Hr; unfold cut_budget, usize_of_f64; apply sat_cast_nonpos.
  rewrite FloatAxioms.div_spec, FloatAxioms.mul_spec; apply nonpos_div; [apply nonpos_mul; [exact Hr |] |];
    apply f64_of_usize_notneg.
Qed.

(** ** The [f64] budget on a concrete input *)

(** The budget is computed in [f64] and truncated: with the double
    nearest to 0.29 (printed 0.29) and a 25 x 30 image,
    [0.29 * 6000 / 87] is exactly 20, but the program derives 19 cuts
    (the rounded quotient is 19.999999999999996). *)
Example budget_one_short :
  nbits_per_color 25 30 = Ok 6000%Z /\ nbits_per_cut 25 30 = Ok 87%Z
  /\ cut_budget 0x1.28f5c28f5c28fp-2%float 6000 87 = 19%Z
  /\ (29 * 6000 = 20 * (87 * 100))%Z.
Proof. repeat split; vm_compute; reflexivity. Qed.
