(* ===== verification/Main.v ===== *)
(** * main.rs: the per-channel engines and [fn main] without its effects

    [main] parses [Args], opens the image, decodes it into three [f32]
    channel matrices ([Image]), derives the cut budget [width] ([Budget]),
    builds one [SctHelper] per channel ([make_engine], lines 53-55), runs
    [width] cuts per channel with a fresh generator seeded with 0 and
    expands ([channel_loop], lines 56-66), and writes [to_u8] of each
    entry into an image of the same dimensions ([Image.encode_image]).
    [main_model] (lines 28-75) starts from the parsed [Args] and the
    decoded [RgbImage] and ends with the image to save; the file system
    around it is [MainIO], the loop's [dbg!] output is in [Trace].  The
    theorems: reconstruction by the discovered cuts (C1), the panics of
    the channel closure (C10-C12), the output's shape (C9), the panics of
    the whole program (C18), a rate that is not positive giving a black
    image (C15), and gray in, gray out (C28). *)

From Stdlib Require Import String List Lia Arith ZArith PrimFloat SpecFloat FloatOps.
From S2P Require Import Prelude Scalar Matrix Tiled CutFinder Abstract Engine RustFloat Image Budget.
Import ListNotations.
Local Open Scope nat_scope.

(** [struct Args] (lines 10-26): [-i], [-o], [-c], [-b], [-t]. *)
Record Args := mk_args {
  input : string;
  output : string;
  compression_rate : float;
  block_size : N;
  threads : option N
}.

Section Channel.
Context {F : Type} `{ScalarOps F} {G : Type} `{Rng G}.
(** [StdRng::seed_from_u64(0)]: the same initial state for each channel. *)
Variable seed0 : G.

(** Lines 53-55: [SctHelper::new(mat.as_ref(), block_size, width)];
    the call site has no error path, so a rejected configuration is a
    panic. *)
Definition make_engine (mat : list (list F)) (nrows ncols : nat) (block : N) (width : Z)
  : result (SctHelper F) Panic :=
  match create nrows ncols mat (N.to_nat block) (Z.to_nat width) with
  | Ok e => Ok e
  | Err _ => Err PanicConfig
  end.

(** Lines 57-65: fresh generator, normalization (its value only feeds
    the [dbg!] output), [width] cuts, expand. *)
Definition channel_loop (e : SctHelper F) (nrows ncols : nat) (width : Z)
  : result (list (list F)) Panic :=
  _ <-? normalization (Z.of_nat nrows) (Z.of_nat ncols) ;;
  let e' := snd (fst (run_cuts (Z.to_nat width) e seed0)) in
  Ok (expand e').
End Channel.

Section Main.
Context {G : Type} `{Rng G}.
Variable seed0 : G.

(** [fn main] (lines 28-75) from the parsed arguments and the decoded
    image to the image written to [output]. *)
Definition main_model (args : Args) (img : RgbImage) : result RgbImage Panic :=
  let nrows := img_width img in
  let ncols := img_height img in
  rgb <-? decode_channels img ;;
  let '(mr, mg, mb) := rgb in
  nbc <-? nbits_per_color (Z.of_nat nrows) (Z.of_nat ncols) ;;
  nbk <-? nbits_per_cut (Z.of_nat nrows) (Z.of_nat ncols) ;;
  let width := cut_budget (compression_rate args) nbc nbk in
  er <-? make_engine mr nrows ncols (block_size args) width ;;
  eg <-? make_engine mg nrows ncols (block_size args) width ;;
  eb <-? make_engine mb nrows ncols (block_size args) width ;;
  r <-? channel_loop seed0 er nrows ncols width ;;
  g <-? channel_loop seed0 eg nrows ncols width ;;
  b <-? channel_loop seed0 eb nrows ncols width ;;
  encode_image nrows ncols (r, g, b).
End Main.

(** ** The per-channel loop (lines 53-66) in exact arithmetic *)

Section ChannelLaws.
Context {F : Type} `{ScalarLaws F} {G : Type} `{Rng G}.
Variable seed0 : G.

Lemma make_engine_ok (mat : list (list F)) n m block width e :
  make_engine mat n m block width = Ok e -> create n m mat (N.to_nat block) (Z.to_nat width) = Ok e.
Proof. unfold make_engine; destruct (create _ _ _ _ _); [now intros [= ->] | discriminate]. Qed.

Lemma make_engine_dims (mat : list (list F)) n m block width e :
  make_engine mat n m block width = Ok e ->
  0 < n /\ 0 < m /\ e = mk_sct mat mat [] n m (N.to_nat block) (Z.to_nat width).
Proof.
  intros Hmk; apply make_engine_ok, create_ok in Hmk as (Hn & Hm & _ & ->).
  split; [exact Hn | split; [exact Hm | reflexivity]].
Qed.

(** C1: in exact arithmetic, what main.rs writes for a channel is the
    sum of the cuts the loop discovered: [expand] after [width]
    iterations equals
    [sum_k w_k (u_k outer v_k)] over exactly [width] cuts (spec
    invariant 1, reconstruction). *)
Theorem channel_loop_reconstructs (mat : list (list F)) n m block width e out :
  mat_wf n m mat -> make_engine mat n m block width = Ok e ->
  channel_loop seed0 e n m width = Ok out ->
  out = cuts_sum n m (sct_cuts (snd (fst (run_cuts (Z.to_nat width) e seed0))))
  /\ length (sct_cuts (snd (fst (run_cuts (Z.to_nat width) e seed0)))) = Z.to_nat width.
Proof.
  intros HT Hmk Hcl. apply make_engine_ok in Hmk.
  unfold channel_loop in Hcl; destruct (normalization _ _); cbn [rbind] in Hcl; [|discriminate].
  injection Hcl as <-.
  pose proof (run_cuts_fresh n m mat _ _ (Z.to_nat width) e seed0 HT Hmk) as Hs.
  destruct (fst (run_cuts (Z.to_nat width) e seed0)) as [ns e']; cbn [snd].
  destruct Hs as (Hr & Hl & _ & _ & Hn & Hm).
  rewrite (expand_cuts_sum e' Hr), Hn, Hm. now split.
Qed.

(** C10: [SctHelper::new] as main.rs calls it panics exactly when the
    image has a zero dimension or the block size is 0 (there is no
    other check, and the panic is the only outcome of a rejection). *)
Theorem make_engine_error (mat : list (list F)) n m block width p :
  make_engine mat n m block width = Err p <-> p = PanicConfig /\ (n = 0 \/ m = 0 \/ block = 0%N).
Proof.
  unfold make_engine, create.
  destruct (Nat.eqb_spec n 0), (Nat.eqb_spec m 0), (Nat.eqb_spec (N.to_nat block) 0); cbn;
    split; [intros E | intros [-> E] | intros E | intros [-> E] | intros E | intros [-> E]
           | intros E | intros [-> E] | intros E | intros [-> E] | intros E | intros [-> E]
           | intros E | intros [-> E] | intros E | intros [-> E]];
    first [discriminate | reflexivity | (injection E as <-; split; [reflexivity | lia]) | lia].
Qed.

(** C12: with a budget of [width <= 0] cuts (a rate that rounds down to
    no cut, or a negative one) the channel is all zeros, unless the
    normalization overflows first. *)
Theorem channel_loop_zero_width (mat : list (list F)) n m block width e :
  mat_wf n m mat -> make_engine mat n m block width = Ok e -> (width <= 0)%Z ->
  channel_loop seed0 e n m width
  = (_ <-? normalization (Z.of_nat n) (Z.of_nat m) ;; Ok (mzeros n m)).
Proof.
  intros HT Hmk Hw. apply make_engine_dims in Hmk as (_ & _ & ->).
  unfold channel_loop. replace (Z.to_nat width) with 0 by lia.
  cbn [run_cuts ret fst snd]. unfold expand; cbn [sct_target sct_residual].
  now rewrite (msub_self n m mat HT).
Qed.

(** C11: the only panic of the loop is the [usize] overflow of
    [255 * 255 * nrows * ncols] (line 59), and it happens exactly when
    that product exceeds [usize::MAX]. *)
Theorem channel_loop_overflow (mat : list (list F)) n m block width e p :
  make_engine mat n m block width = Ok e ->
  channel_loop seed0 e n m width = Err p
  <-> p = PanicOverflow /\ (usize_max < 255 * 255 * Z.of_nat n * Z.of_nat m)%Z.
Proof.
  intros Hmk; apply make_engine_dims in Hmk as (Hn & Hm & _).
  unfold channel_loop, normalization, usize_mul.
  destruct (Z.leb_spec (255 * 255 * Z.of_nat n) usize_max); cbn [rbind];
    [destruct (Z.leb_spec (255 * 255 * Z.of_nat n * Z.of_nat m) usize_max); cbn [rbind]|];
    split; intros E; try discriminate; try (injection E as <-); try (destruct E as [-> ?]);
    try reflexivity; try (split; [reflexivity|]); try nia.
Qed.
End ChannelLaws.

(** Witnesses on the 2 x 2 channel of [CutFinder], one-row tiles. *)

Lemma make_engine_R2x2 : make_engine R2x2 2 2 1 3 = Ok eng0.
Proof. reflexivity. Qed.

Lemma channel_loop_reconstructs_witness :
  mat_wf 2 2 R2x2 /\ make_engine R2x2 2 2 1 3 = Ok eng0
  /\ channel_loop bits_tf eng0 2 2 3 = Ok (expand (snd (fst (run_cuts 3 eng0 bits_tf))))
  /\ (expand (snd (fst (run_cuts 3 eng0 bits_tf)))
      = cuts_sum 2 2 (sct_cuts (snd (fst (run_cuts (Z.to_nat 3) eng0 bits_tf))))
     /\ length (sct_cuts (snd (fst (run_cuts (Z.to_nat 3) eng0 bits_tf)))) = Z.to_nat 3).
Proof.
  assert (Hcl : channel_loop bits_tf eng0 2 2 3 = Ok (expand (snd (fst (run_cuts 3 eng0 bits_tf)))))
    by reflexivity.
  split; [exact mat_wf_R2x2|]. split; [reflexivity|]. split; [exact Hcl|].
  pose proof (channel_loop_reconstructs bits_tf R2x2 2 2 1 3 eng0 _ mat_wf_R2x2 make_engine_R2x2 Hcl) as Hw.
  exact Hw.
Defined.

Lemma channel_loop_zero_width_witness :
  mat_wf 2 2 R2x2 /\ make_engine R2x2 2 2 1 0 = Ok (mk_sct R2x2 R2x2 [] 2 2 1 0) /\ (0 <= 0)%Z
  /\ channel_loop bits_tf (mk_sct R2x2 R2x2 [] 2 2 1 0) 2 2 0
     = (_ <-? normalization (Z.of_nat 2) (Z.of_nat 2) ;; Ok (mzeros 2 2)).
Proof.
  assert (Hmk : make_engine R2x2 2 2 1 0 = Ok (mk_sct R2x2 R2x2 [] 2 2 1 0)) by reflexivity.
  split; [exact mat_wf_R2x2|]. split; [exact Hmk|]. split; [lia|].
  pose proof (channel_loop_zero_width bits_tf R2x2 2 2 1 0 _ mat_wf_R2x2 Hmk ltac:(lia)) as Hw; exact Hw.
Defined.

Lemma channel_loop_overflow_witness :
  make_engine R2x2 2 2 1 3 = Ok eng0 /\
  (channel_loop bits_tf eng0 2 2 3 = Err PanicOverflow
   <-> PanicOverflow = PanicOverflow /\ (usize_max < 255 * 255 * Z.of_nat 2 * Z.of_nat 2)%Z).
Proof.
  split; [reflexivity|].
  pose proof (channel_loop_overflow bits_tf R2x2 2 2 1 3 eng0 PanicOverflow make_engine_R2x2) as Hw; exact Hw.
Defined.

(** C9: whenever the program gets to write its output, the image has the
    input's width and height, one pixel per position, and every channel
    value is a byte. *)
Theorem main_output_shape {G : Type} `{Rng G} (seed0 : G) (args : Args) (img out : RgbImage) :
  main_model seed0 args img = Ok out ->
  img_width out = img_width img /\ img_height out = img_height img
  /\ length (img_pixels out) = img_width img * img_height img
  /\ Forall (fun p => forall c, (0 <= chan c p <= 255)%Z) (img_pixels out).
Proof.
  unfold main_model. destruct (decode_channels img) as [[[mr mg] mb]|e]; cbn [rbind]; [|discriminate].
  repeat match goal with
         | |- context [rbind ?m _] => destruct m; cbn [rbind]; [|discriminate]
         end.
  apply encode_image_shape.
Qed.

(** ** Which panics the program can reach *)

Section ChannelShape.
Context {F : Type} `{ScalarOps F} {G : Type} `{Rng G}.
Variable seed0 : G.

Lemma make_engine_err (mat : list (list F)) n m block width p :
  make_engine mat n m block width = Err p -> p = PanicConfig.
Proof. unfold make_engine; destruct (create _ _ _ _ _); intros E; inversion E; reflexivity. Qed.

Lemma channel_loop_err (e : SctHelper F) n m width p :
  channel_loop seed0 e n m width = Err p -> p = PanicOverflow.
Proof.
  unfold channel_loop; intros Hc; apply rbind_Err in Hc as [Hc | (x & _ & Hc)];
    [exact (normalization_err _ _ _ Hc) | discriminate Hc].
Qed.

(** In any arithmetic the loop returns an [nrows x ncols] matrix. *)
Lemma channel_loop_shape (mat : list (list F)) n m block width e out :
  mat_wf n m mat -> make_engine mat n m block width = Ok e ->
  channel_loop seed0 e n m width = Ok out -> mat_wf n m out.
Proof.
  intros HT Hmk Hcl. apply make_engine_ok in Hmk.
  pose proof (create_shape_inv n m mat _ _ e HT Hmk) as He.
  apply create_ok in Hmk as (_ & _ & _ & ->).
  unfold channel_loop in Hcl; destruct (normalization _ _); cbn [rbind] in Hcl; [|discriminate].
  injection Hcl as <-.
  pose proof (run_cuts_shape (Z.to_nat width) _ seed0 He) as Hs; cbv zeta in Hs.
  destruct Hs as ((_ & HR & _) & _ & Ht & Hn & Hm); cbn in Ht, Hn, Hm.
  rewrite Hn, Hm in HR. unfold expand, msub. rewrite Ht. now apply mat_wf_zipw.
Qed.
End ChannelShape.

(** C28: a gray input gives a gray output: when every pixel of the
    decoded image has three equal channels (a [Luma8] or [LumaA8] file
    after [into_rgb8], or a gray RGB file), every pixel main.rs writes
    has three equal channels, for any generator: the three channels are
    one matrix, and each channel's loop starts from its own generator
    seeded alike ([StdRng::seed_from_u64(0)] inside the closure). *)
Theorem main_model_gray {G : Type} `{Rng G} (seed0 : G) (args : Args) (d : DynamicImage) out :
  Forall gray (img_pixels (into_rgb8 d)) ->
  main_model seed0 args (into_rgb8 d) = Ok out -> Forall gray (img_pixels out).
Proof.
  intros Hg; unfold main_model; rewrite decode_channels_chan_mat.
  destruct (chan_mat_gray _ Hg) as [-> ->]; cbn [rbind].
  destruct (nbits_per_color _ _) as [nbc |]; cbn [rbind]; [| discriminate].
  destruct (nbits_per_cut _ _) as [nbk |]; cbn [rbind]; [| discriminate].
  destruct (make_engine (chan_mat _ 0) _ _ _ _) as [e |]; cbn [rbind]; [| discriminate].
  destruct (channel_loop seed0 e _ _ _) as [M |]; cbn [rbind]; [| discriminate].
  apply encode_image_gray.
Qed.

(** C18: main.rs never indexes a matrix out of range: the only panics it
    can reach are a [usize] overflow, a configuration [SctHelper::new]
    rejects, and the [assert!] of [to_u8] on a non-finite value. *)
Theorem main_panics {G : Type} `{Rng G} (seed0 : G) (args : Args) (img : RgbImage) p :
  main_model seed0 args img = Err p -> p = PanicOverflow \/ p = PanicConfig \/ p = PanicNotFinite.
Proof.
  unfold main_model. rewrite decode_channels_chan_mat; cbn [rbind].
  pose proof (mat_wf_tabulate (img_width img) (img_height img)) as Hwf; unfold chan_mat.
  intros E.
  destruct (nbits_per_color _ _) as [nbc|q] eqn:E1; cbn [rbind] in E;
    [|injection E as <-; left; exact (nbits_per_color_err _ _ _ E1)].
  destruct (nbits_per_cut _ _) as [nbk|q] eqn:E2; cbn [rbind] in E;
    [|injection E as <-; left; exact (nbits_per_cut_err _ _ _ E2)].
  repeat match type of E with
  | rbind (make_engine ?M ?n ?m ?b ?w) _ = Err _ =>
      let Hm := fresh "Hm" in
      destruct (make_engine M n m b w) eqn:Hm; cbn [rbind] in E;
        [|injection E as <-; right; left; exact (make_engine_err _ _ _ _ _ _ Hm)]
  | rbind (channel_loop ?s ?e ?n ?m ?w) _ = Err _ =>
      let Hc := fresh "Hc" in
      destruct (channel_loop s e n m w) eqn:Hc; cbn [rbind] in E;
        [|injection E as <-; left; exact (channel_loop_err _ _ _ _ _ _ Hc)]
  end.
  right; right. eapply encode_image_err; [| | | exact E].
  - exact (channel_loop_shape seed0 _ _ _ _ _ _ _ (Hwf _) Hm Hc).
  - exact (channel_loop_shape seed0 _ _ _ _ _ _ _ (Hwf _) Hm0 Hc0).
  - exact (channel_loop_shape seed0 _ _ _ _ _ _ _ (Hwf _) Hm1 Hc1).
Qed.

Definition args_rate (rate : float) (block : N) : Args := mk_args "in.png" "out.png" rate block None.

Lemma main_output_shape_witness :
  main_model (G := bit_stream) [true; false; true] (args_rate 1%float 1) img3x2
  = Ok (mk_image 3 2 (repeat (85, 95, 105)%Z 6))
  /\ (img_width (mk_image 3 2 (repeat (85, 95, 105)%Z 6)) = img_width img3x2
      /\ img_height (mk_image 3 2 (repeat (85, 95, 105)%Z 6)) = img_height img3x2
      /\ length (img_pixels (mk_image 3 2 (repeat (85, 95, 105)%Z 6))) = img_width img3x2 * img_height img3x2
      /\ Forall (fun p => forall c, (0 <= chan c p <= 255)%Z) (img_pixels (mk_image 3 2 (repeat (85, 95, 105)%Z 6)))).
Proof.
  assert (Hm : main_model (G := bit_stream) [true; false; true] (args_rate 1%float 1) img3x2
               = Ok (mk_image 3 2 (repeat (85, 95, 105)%Z 6))) by (vm_compute; reflexivity).
  split; [exact Hm|].
  pose proof (main_output_shape [true; false; true] (args_rate 1%float 1) img3x2 _ Hm) as Hw; exact Hw.
Defined.

Lemma main_panics_witness :
  main_model (G := bit_stream) [] (args_rate 1%float 0) img3x2 = Err PanicConfig
  /\ (PanicConfig = PanicOverflow \/ PanicConfig = PanicConfig \/ PanicConfig = PanicNotFinite).
Proof.
  assert (Hm : main_model (G := bit_stream) [] (args_rate 1%float 0) img3x2 = Err PanicConfig)
    by (vm_compute; reflexivity).
  split; [exact Hm|].
  pose proof (main_panics [] (args_rate 1%float 0) img3x2 PanicConfig Hm) as Hw; exact Hw.
Defined.

(** The budget of a non-positive rate is 0: each channel is its own
    target minus itself. *)
Lemma channel_loop_no_budget {G} `{Rng G} (seed0 : G) (T : list (list f32)) n m b out :
  channel_loop seed0 (mk_sct T T [] n m b 0) n m 0%Z = Ok out -> out = msub T T.
Proof.
  unfold channel_loop; destruct (normalization _ _); cbn; [now intros [= <-] | discriminate].
Qed.

(** C15: a compression rate that is not positive (negative, a zero or
    NaN) is not rejected (spec 7 lists it as a configuration error): for
    every well-formed image, the saturating cast makes the budget 0, no cut
    is made, and what the program writes is an all-black image of the
    input's size. *)
Theorem nonpositive_rate_black_image {G} `{Rng G} (seed0 : G) args img out :
  nonpos_sf (Prim2SF (compression_rate args)) = true -> image_wf img ->
  main_model seed0 args img = Ok out ->
  out = mk_image (img_width img) (img_height img)
                 (repeat (0, 0, 0)%Z (img_width img * img_height img)).
Proof.
  intros Hr Hwf; unfold main_model; rewrite decode_channels_chan_mat; cbn [rbind].
  destruct (nbits_per_color _ _) as [nbc |]; cbn [rbind]; [| discriminate].
  destruct (nbits_per_cut _ _) as [nbk |]; cbn [rbind]; [| discriminate].
  rewrite (cut_budget_nonpos _ nbc nbk Hr).
  destruct (make_engine (chan_mat img 0) _ _ _ _) as [er |] eqn:Er; cbn [rbind]; [| discriminate].
  destruct (make_engine (chan_mat img 1) _ _ _ _) as [eg |] eqn:Eg; cbn [rbind]; [| discriminate].
  destruct (make_engine (chan_mat img 2) _ _ _ _) as [eb |] eqn:Eb; cbn [rbind]; [| discriminate].
  apply make_engine_dims in Er as (_ & _ & ->), Eg as (_ & _ & ->), Eb as (_ & _ & ->).
  destruct (channel_loop _ _ _ _ 0%Z) as [r |] eqn:Hr'; cbn [rbind]; [| discriminate].
  destruct (channel_loop _ (mk_sct (chan_mat img 1) _ _ _ _ _ _) _ _ _) as [g |] eqn:Hg; cbn [rbind]; [| discriminate].
  destruct (channel_loop _ (mk_sct (chan_mat img 2) _ _ _ _ _ _) _ _ _) as [b |] eqn:Hb; cbn [rbind]; [| discriminate].
  apply channel_loop_no_budget in Hr', Hg, Hb; subst r g b.
  rewrite !chan_mat_self_sub, encode_image_zero by exact Hwf; now intros [= <-].
Qed.

(** The rate [-1] on [img3x2]. *)
Lemma nonpositive_rate_black_image_witness :
  nonpos_sf (Prim2SF (-1)%float) = true /\ image_wf img3x2
  /\ main_model (G := bit_stream) [] (args_rate (-1)%float 1) img3x2
     = Ok (mk_image 3 2 (repeat (0, 0, 0)%Z 6)).
Proof.
  assert (Hm : main_model (G := bit_stream) [] (args_rate (-1)%float 1) img3x2
               = Ok (mk_image 3 2 (repeat (0, 0, 0)%Z 6))) by (vm_compute; reflexivity).
  split; [reflexivity |]. split; [exact image_wf_img3x2 |].
  pose proof (nonpositive_rate_black_image (G := bit_stream) [] (args_rate (-1)%float 1) img3x2 _
                eq_refl image_wf_img3x2 Hm) as Hw.
  rewrite Hm; exact (f_equal Ok Hw).
Defined.

(** A block size of 0 from the command line reaches [SctHelper::new]
    unchecked; the engine rejects it and the call site can only panic. *)
Example zero_block_size_panics :
  main_model (G := bit_stream) [] (args_rate 1%float 0) img3x2 = Err PanicConfig.
Proof. vm_compute; reflexivity. Qed.

(** The 3 x 2 gray image with the red channel of [img3x2] as luma. *)
Definition luma3x2 : DynamicImage := ImageLuma8 3 2 [10; 40; 70; 100; 130; 160]%Z.

Lemma main_model_gray_witness :
  Forall gray (img_pixels (into_rgb8 luma3x2))
  /\ main_model (G := bit_stream) [true; false; true] (args_rate 1%float 1) (into_rgb8 luma3x2)
     = Ok (mk_image 3 2 (repeat (85, 85, 85)%Z 6))
  /\ Forall gray (img_pixels (mk_image 3 2 (repeat (85, 85, 85)%Z 6))).
Proof.
  assert (Hm : main_model (G := bit_stream) [true; false; true] (args_rate 1%float 1) (into_rgb8 luma3x2)
               = Ok (mk_image 3 2 (repeat (85, 85, 85)%Z 6))) by (vm_compute; reflexivity).
  split; [apply into_rgb8_luma_gray |]. split; [exact Hm |].
  pose proof (main_model_gray [true; false; true] (args_rate 1%float 1) luma3x2 _
                (into_rgb8_luma_gray 3 2 _) Hm) as Hw; exact Hw.
Defined.
