(* ===== verification/Cli.v ===== *)
(** * The command line of main.rs: [Args::try_parse()] (lines 7-26, 35)

    [#[derive(Parser)]] on [struct Args] makes a clap 4 parser with one
    short option per field and no long option: [-i] and [-o] (paths),
    [-c] ([f64]), [-b] ([usize]), all required, and [-t] ([usize],
    optional), plus clap's own [-h] / [--help].  The parser below reads
    the arguments after the program name left to right:
    - [-h], [--help], or a short cluster starting with [h]: clap stops
      with its help ([DisplayHelp], an [Err] of [try_parse]);
    - [-X] for one of the five options: the value is the rest of the
      token ([-Xv], with one leading [=] dropped: [-X=v]) or, when the
      token is just [-X], the next token unless that one starts with
      [-] (a lone [-] is a value): [-c -1] is an error, [-c=-1] is not;
      the error is clap's unexpected argument when the next token is a
      flag clap does not know ([-1]), a missing value otherwise
      ([missing_value_error]);
    - an option given a second time is a conflict, checked before its
      value is parsed;
    - any other token ([--x], [-x], a bare word, anything after [--]) is
      an unexpected argument;
    - at the end, a missing required option is an error.
    Values are parsed as the field types' [FromStr] (Rust's [str::parse])
    does: a path is any non-empty string; a [usize] is an optional [+]
    and decimal digits up to [2^64 - 1]; an [f64] follows Rust's grammar
    (sign, [inf] / [infinity] / [nan] in any case, digits with an
    optional point and exponent) and is the correctly rounded
    (ties-to-even) binary64 value of the decimal.  The theorems:
    rendering arguments then parsing them gives them back (C23), and a
    negative number given as the separate value of an option is an
    unexpected argument (C27). *)

From Stdlib Require Import String Ascii List Lia Arith ZArith NArith PrimFloat SpecFloat FloatOps.
From S2P Require Import Prelude Scalar RustFloat Main.
Import ListNotations.
Local Open Scope string_scope.
Local Open Scope bool_scope.

(** ** Decimal digits *)

Definition digit_of (c : ascii) : option N :=
  let n := nat_of_ascii c in
  if (48 <=? n)%nat && (n <=? 57)%nat then Some (N.of_nat (n - 48)) else None.

(** [s] read as the digits of a natural number, left to right, after
    [acc]; [None] on a non-digit. *)
Fixpoint digits_val (acc : N) (s : string) : option N :=
  match s with
  | EmptyString => Some acc
  | String c r => match digit_of c with Some d => digits_val (10 * acc + d)%N r | None => None end
  end.

(** [<usize as FromStr>::from_str]: an optional [+], at least one digit,
    no overflow of 64 bits. *)
Definition strip_plus (s : string) : string :=
  match s with String "+"%char r => r | _ => s end.

Definition parse_usize (s : string) : option N :=
  let body := strip_plus s in
  match body with
  | EmptyString => None
  | _ => match digits_val 0 body with
         | Some n => if (Z.of_N n <=? usize_max)%Z then Some n else None
         | None => None
         end
  end.

(** The decimal rendering of a natural, most significant digit first;
    [fuel] bounds the number of digits. *)
Fixpoint dec_aux (fuel : nat) (n : N) (acc : string) : string :=
  match fuel with
  | O => acc
  | S f =>
      let acc' := String (ascii_of_N (48 + n mod 10)) acc in
      if (n <? 10)%N then acc' else dec_aux f (n / 10)%N acc'
  end.

Definition dec_string (n : N) : string := dec_aux (N.to_nat (N.log2 n) + 1) n EmptyString.

(** ** [<f64 as FromStr>::from_str] *)

Definition lower (c : ascii) : ascii :=
  let n := nat_of_ascii c in
  if (65 <=? n)%nat && (n <=? 90)%nat then ascii_of_nat (n + 32) else c.

Fixpoint lowercase (s : string) : string :=
  match s with EmptyString => EmptyString | String c r => String (lower c) (lowercase r) end.

(** The longest prefix of digits, as a list, and the rest. *)
Fixpoint take_digits (s : string) : list N * string :=
  match s with
  | String c r =>
      match digit_of c with
      | Some d => let '(ds, rest) := take_digits r in (d :: ds, rest)
      | None => ([], s)
      end
  | EmptyString => ([], EmptyString)
  end.

Definition digits_N (ds : list N) : N := fold_left (fun acc d => 10 * acc + d)%N ds 0%N.

(** [Exp ::= 'e' Sign? Digit+], after the [e]. *)
Definition parse_exp (s : string) : option Z :=
  let '(neg, body) := match s with
                      | String "+"%char r => (false, r)
                      | String "-"%char r => (true, r)
                      | _ => (false, s)
                      end in
  match take_digits body with
  | ([], _) => None
  | (ds, EmptyString) => Some (if neg then - Z.of_N (digits_N ds) else Z.of_N (digits_N ds))%Z
  | _ => None
  end.

(** [Number ::= (Digit+ | Digit+ '.' Digit* | Digit* '.' Digit+) Exp?]
    as [(digits, decimal exponent)]: the value is
    [digits_N digits * 10^exponent]. *)
Definition parse_number (s : string) : option (list N * Z) :=
  let '(ip, r1) := take_digits s in
  let '(fp, r2) := match r1 with
                   | String "."%char r => take_digits r
                   | _ => ([], r1)
                   end in
  if (List.length ip + List.length fp =? 0)%nat then None
  else match r2 with
       | EmptyString => Some (app ip fp, - Z.of_nat (List.length fp))%Z
       | String "e"%char r => match parse_exp r with
                              | Some e => Some (app ip fp, e - Z.of_nat (List.length fp))%Z
                              | None => None
                              end
       | _ => None
       end.

(** The binary64 value nearest [m * 10^e] (ties to even), negated when
    [neg].  Above [10^400] every value rounds to infinity and below
    [10^-326] to zero, which keeps the computation finite for any
    exponent; in between the product or the quotient is rounded exactly
    by SpecFloat's rounding. *)
Definition decimal_to_sf (neg : bool) (ds : list N) (e : Z) : spec_float :=
  let m := Z.of_N (digits_N ds) in
  if (m =? 0)%Z then S754_zero neg
  else if (400 <? e)%Z then S754_infinity neg
  else if (Z.of_nat (List.length ds) + e <? -326)%Z then S754_zero neg
  else if (0 <=? e)%Z then binary_normalize 53 1024 (if neg then - (m * 10 ^ e) else m * 10 ^ e)%Z 0 neg
  else let '(q, e', l) := SFdiv_core_binary 53 1024 m 0 (10 ^ (- e)) 0 in
       binary_round_aux 53 1024 neg q e' l.

Definition parse_f64_sf (s : string) : option spec_float :=
  let '(neg, body) := match lowercase s with
                      | String "+"%char r => (false, r)
                      | String "-"%char r => (true, r)
                      | t => (false, t)
                      end in
  if String.eqb body "inf" || String.eqb body "infinity" then Some (S754_infinity neg)
  else if String.eqb body "nan" then Some S754_nan
  else match parse_number body with
       | Some (ds, e) => Some (decimal_to_sf neg ds e)
       | None => None
       end.

Definition parse_f64 (s : string) : option float := option_map SF2Prim (parse_f64_sf s).

(** ** The clap parser derived for [struct Args] *)

(** The [clap::error::ErrorKind]s this command can report. *)
Inductive ClapError :=
| DisplayHelp | UnknownArgument | InvalidValue | ValueValidation
| ArgumentConflict | MissingRequiredArgument.

(** The five options of [struct Args], by their short names. *)
Inductive Opt := OptInput | OptOutput | OptRate | OptBlock | OptThreads.

Definition opt_of_char (c : ascii) : option Opt :=
  if Ascii.eqb c "i" then Some OptInput
  else if Ascii.eqb c "o" then Some OptOutput
  else if Ascii.eqb c "c" then Some OptRate
  else if Ascii.eqb c "b" then Some OptBlock
  else if Ascii.eqb c "t" then Some OptThreads
  else None.

(** The values matched so far ([ArgMatches]). *)
Record Matches := mk_matches {
  m_input : option string;
  m_output : option string;
  m_rate : option float;
  m_block : option N;
  m_threads : option N
}.

Definition no_matches : Matches := mk_matches None None None None None.

Definition m_has (m : Matches) (o : Opt) : bool :=
  match o with
  | OptInput => match m_input m with Some _ => true | None => false end
  | OptOutput => match m_output m with Some _ => true | None => false end
  | OptRate => match m_rate m with Some _ => true | None => false end
  | OptBlock => match m_block m with Some _ => true | None => false end
  | OptThreads => match m_threads m with Some _ => true | None => false end
  end.

Definition of_option {A : Type} (e : ClapError) (o : option A) : result A ClapError :=
  match o with Some a => Ok a | None => Err e end.

(** [PathBuf]'s value parser: any value but the empty one. *)
Definition parse_path (v : string) : result string ClapError :=
  match v with EmptyString => Err InvalidValue | _ => Ok v end.

(** One occurrence of option [o] with value [v]: a second occurrence
    conflicts, then the value is parsed into its field. *)
Definition react (m : Matches) (o : Opt) (v : string) : result Matches ClapError :=
  if m_has m o then Err ArgumentConflict else
  match o with
  | OptInput => p <-? parse_path v ;;
      Ok (mk_matches (Some p) (m_output m) (m_rate m) (m_block m) (m_threads m))
  | OptOutput => p <-? parse_path v ;;
      Ok (mk_matches (m_input m) (Some p) (m_rate m) (m_block m) (m_threads m))
  | OptRate => x <-? of_option ValueValidation (parse_f64 v) ;;
      Ok (mk_matches (m_input m) (m_output m) (Some x) (m_block m) (m_threads m))
  | OptBlock => n <-? of_option ValueValidation (parse_usize v) ;;
      Ok (mk_matches (m_input m) (m_output m) (m_rate m) (Some n) (m_threads m))
  | OptThreads => n <-? of_option ValueValidation (parse_usize v) ;;
      Ok (mk_matches (m_input m) (m_output m) (m_rate m) (m_block m) (Some n))
  end.

(** What a command-line token is to clap's lexer. *)
Inductive Token :=
| TEscape                          (* [--] *)
| TLong (name : string)            (* [--name] *)
| TShort (c : ascii) (rest : string) (* [-c...] *)
| TValue.                          (* anything else, [-] included *)

Definition classify (tok : string) : Token :=
  match tok with
  | String c1 (String c2 r) =>
      if Ascii.eqb c1 "-" then
        if Ascii.eqb c2 "-" then match r with EmptyString => TEscape | _ => TLong r end
        else TShort c2 r
      else TValue
  | _ => TValue
  end.

(** The value attached to a short option, one leading [=] dropped;
    [None] when the token is the option alone. *)
Definition attached_value (attached : string) : option string :=
  match attached with
  | EmptyString => None
  | String c v => if Ascii.eqb c "=" then Some v else Some attached
  end.

(** The short names clap knows: the five options and [-h]. *)
Definition known_short (c : ascii) : bool :=
  Ascii.eqb c "h" || match opt_of_char c with Some _ => true | None => false end.

(** A bare [-X] waits for its value; when the next token [t] is not a
    value, clap's error depends on it: a token it cannot match is
    reported first ([UnknownArgument], the pending option's error
    dropped); a flag it knows ([-h], [--help], one of the five options)
    first closes the pending option, which has no value
    ([InvalidValue]); after [--] the option still has no value, which
    is [InvalidValue] at the end and [UnknownArgument] when a token
    follows, since [Args] has no positional argument. *)
Definition missing_value_error (t : Token) (rest : list string) : ClapError :=
  match t with
  | TShort c _ => if known_short c then InvalidValue else UnknownArgument
  | TLong name => if String.eqb name "help" then InvalidValue else UnknownArgument
  | TEscape => match rest with [] => InvalidValue | _ => UnknownArgument end
  | TValue => InvalidValue
  end.

(** The arguments after the program name, left to right. *)
Fixpoint clap_parse (argv : list string) (m : Matches) : result Matches ClapError :=
  match argv with
  | [] => Ok m
  | tok :: rest =>
      match classify tok with
      | TEscape => match rest with [] => Ok m | _ => Err UnknownArgument end
      | TLong name => if String.eqb name "help" then Err DisplayHelp else Err UnknownArgument
      | TValue => Err UnknownArgument
      | TShort c attached =>
          if Ascii.eqb c "h" then Err DisplayHelp else
          match opt_of_char c with
          | None => Err UnknownArgument
          | Some o =>
              match attached_value attached with
              | None =>
                  match rest with
                  | v :: rest' =>
                      match classify v with
                      | TValue => m' <-? react m o v ;; clap_parse rest' m'
                      | t => Err (missing_value_error t rest')
                      end
                  | [] => Err InvalidValue
                  end
              | Some v => m' <-? react m o v ;; clap_parse rest m'
              end
          end
      end
  end.

(** [Args::try_parse()]: the matches, then the required options. *)
Definition parse_args (argv : list string) : result Args ClapError :=
  m <-? clap_parse argv no_matches ;;
  match m_input m, m_output m, m_rate m, m_block m with
  | Some i, Some o, Some c, Some b => Ok (mk_args i o c b (m_threads m))
  | _, _, _, _ => Err MissingRequiredArgument
  end.

(** A command line for [a], every value attached with [=]; the rate is
    given by its decimal text [rate]. *)
Definition render_args (a : Args) (rate : string) : list string :=
  ["-i=" ++ input a; "-o=" ++ output a; "-c=" ++ rate; "-b=" ++ dec_string (block_size a)]
  ++ match threads a with Some t => ["-t=" ++ dec_string t] | None => [] end.

(** ** Decimal rendering and [usize] parsing *)

Lemma digit_of_ascii d : (d < 10)%N -> digit_of (ascii_of_N (48 + d)) = Some d.
Proof.
  intros Hd.
  assert (d = 0 \/ d = 1 \/ d = 2 \/ d = 3 \/ d = 4 \/ d = 5 \/ d = 6 \/ d = 7 \/ d = 8 \/ d = 9)%N
    as Hc by lia.
  repeat destruct Hc as [-> | Hc]; [reflexivity .. | subst; reflexivity].
Qed.

Lemma dec_aux_val f n s :
  (n < 10 ^ N.of_nat f)%N ->
  exists k, forall acc, digits_val acc (dec_aux f n s) = digits_val (acc * 10 ^ k + n)%N s.
Proof.
  revert n s; induction f as [| f IH]; intros n s Hn; cbn [dec_aux].
  - exists 0%N; intros acc; cbn in Hn; replace n with 0%N by lia.
    now rewrite N.pow_0_r, N.mul_1_r, N.add_0_r.
  - assert (Hm : (n mod 10 < 10)%N) by (apply N.mod_lt; lia).
    destruct (N.ltb_spec n 10) as [Hlt | Hge].
    + exists 1%N; intros acc; cbn [digits_val]; rewrite digit_of_ascii by exact Hm.
      rewrite N.mod_small by exact Hlt; f_equal; lia.
    + destruct (IH (n / 10)%N (String (ascii_of_N (48 + n mod 10)) s)) as [k Hk].
      { rewrite Nat2N.inj_succ, N.pow_succ_r' in Hn. apply N.Div0.div_lt_upper_bound; lia. }
      exists (N.succ k); intros acc; rewrite Hk; cbn [digits_val]; rewrite digit_of_ascii by exact Hm.
      f_equal. rewrite N.pow_succ_r'. pose proof (N.div_mod n 10 ltac:(lia)) as Hd. nia.
Qed.

Lemma dec_aux_head f n s : exists c r, dec_aux (S f) n s = String c r /\ digit_of c <> None.
Proof.
  revert n s; induction f as [| f IH]; intros n s; cbn [dec_aux].
  - assert (Hm : (n mod 10 < 10)%N) by (apply N.mod_lt; lia).
    destruct (n <? 10)%N; eexists _, _; (split; [reflexivity | now rewrite digit_of_ascii]).
  - destruct (n <? 10)%N; [| apply IH].
    assert (Hm : (n mod 10 < 10)%N) by (apply N.mod_lt; lia).
    eexists _, _; (split; [reflexivity | now rewrite digit_of_ascii]).
Qed.

Lemma dec_string_fuel n : (n < 10 ^ N.of_nat (N.to_nat (N.log2 n) + 1))%N.
Proof.
  rewrite Nat2N.inj_add, N2Nat.id; cbn [N.of_nat Pos.of_succ_nat].
  apply (N.lt_le_trans _ (2 ^ (N.log2 n + 1))).
  - destruct (N.eq_dec n 0) as [-> | Hn]; [cbn; lia |].
    rewrite N.add_1_r; apply N.log2_spec; lia.
  - apply N.pow_le_mono_l; lia.
Qed.

Lemma digits_val_dec_string n : digits_val 0 (dec_string n) = Some n.
Proof.
  unfold dec_string; destruct (dec_aux_val _ n EmptyString (dec_string_fuel n)) as [k Hk].
  rewrite Hk; cbn; f_equal; lia.
Qed.

Lemma strip_plus_digit c r : digit_of c <> None -> strip_plus (String c r) = String c r.
Proof. destruct c as [[] [] [] [] [] [] [] []]; intros Hc; try reflexivity; now elim Hc. Qed.

(** Rendering then parsing a [usize] gives it back. *)
Lemma parse_usize_dec_string n : (Z.of_N n <= usize_max)%Z -> parse_usize (dec_string n) = Some n.
Proof.
  intros Hn; unfold parse_usize.
  destruct (dec_aux_head (N.to_nat (N.log2 n)) n EmptyString) as (c & r & Hcr & Hc).
  pose proof (digits_val_dec_string n) as Hv.
  unfold dec_string in *; rewrite Nat.add_1_r in *; rewrite Hcr in *.
  rewrite strip_plus_digit by exact Hc; rewrite Hv.
  now apply Z.leb_le in Hn as ->.
Qed.

(** ** Properties of the parser *)

(** C23: Round trip of the command line: the arguments rendered as
    [-i=PATH -o=PATH -c=RATE -b=N [-t=N]] parse back to the same
    [Args], for every pair of non-empty paths (whatever their first
    character), every rate text that parses to the rate, and every
    block size and thread count within [usize]. *)
Theorem parse_render_args (a : Args) (rate : string) :
  input a <> EmptyString -> output a <> EmptyString ->
  parse_f64 rate = Some (compression_rate a) ->
  (Z.of_N (block_size a) <= usize_max)%Z ->
  (forall t, threads a = Some t -> (Z.of_N t <= usize_max)%Z) ->
  parse_args (render_args a rate) = Ok a.
Proof.
  destruct a as [i o c b t]; cbn [input output compression_rate block_size threads].
  intros Hi Ho Hc Hb Ht.
  destruct i as [| ci i]; [easy |]; destruct o as [| co o]; [easy |].
  unfold parse_args, render_args; cbn -[parse_f64 parse_usize dec_string].
  rewrite Hc; cbn -[parse_usize dec_string]; rewrite (parse_usize_dec_string b Hb).
  destruct t as [t |]; cbn -[parse_usize dec_string]; [| reflexivity].
  now rewrite (parse_usize_dec_string t (Ht t eq_refl)).
Qed.

(** ** Concrete command lines *)

Definition argv_half : list string := ["-i"; "in.png"; "-o"; "out.png"; "-c"; "0.5"; "-b"; "4"].

Lemma parse_render_args_witness :
  "in.png" <> EmptyString /\ "=out.png" <> EmptyString /\ parse_f64 "0.5" = Some 0.5%float
  /\ (Z.of_N 4 <= usize_max)%Z /\ (Z.of_N 2 <= usize_max)%Z
  /\ parse_args (render_args (mk_args "in.png" "=out.png" 0.5%float 4 (Some 2%N)) "0.5")
     = Ok (mk_args "in.png" "=out.png" 0.5%float 4 (Some 2%N)).
Proof.
  assert (Hr : parse_f64 "0.5" = Some 0.5%float) by (vm_compute; reflexivity).
  split; [discriminate |]. split; [discriminate |]. split; [exact Hr |].
  split; [vm_compute; discriminate |]. split; [vm_compute; discriminate |].
  pose proof (parse_render_args (mk_args "in.png" "=out.png" 0.5%float 4 (Some 2%N)) "0.5"
                ltac:(discriminate) ltac:(discriminate) Hr ltac:(vm_compute; discriminate)
                ltac:(intros t E; injection E as <-; vm_compute; discriminate)) as Hw; exact Hw.
Defined.

(** A negative rate cannot be given as a separate value ([-1] reads as
    an option clap does not know), only attached; the text is parsed by
    Rust's rules, with its rounding ([0.29] is the double nearest to
    it). *)
Example parse_negative_rate :
  parse_args ["-i"; "in.png"; "-o"; "out.png"; "-c"; "-1"; "-b"; "1"] = Err UnknownArgument
  /\ parse_args ["-i"; "in.png"; "-o"; "out.png"; "-c-1"; "-b"; "1"]
     = Ok (mk_args "in.png" "out.png" (-1)%float 1 None)
  /\ parse_f64 "0.29" = Some 0x1.28f5c28f5c28fp-2%float.
Proof. repeat split; vm_compute; reflexivity. Qed.

(** [--help] and [-h] are errors of [try_parse]; so are a repeated
    option, an option clap does not know and a missing required one. *)
Example parse_errors :
  parse_args ("--help" :: argv_half) = Err DisplayHelp
  /\ parse_args (argv_half ++ ["-h"]) = Err DisplayHelp
  /\ parse_args (argv_half ++ ["-b"; "2"]) = Err ArgumentConflict
  /\ parse_args (argv_half ++ ["--threads"; "2"]) = Err UnknownArgument
  /\ parse_args ("-c" :: "-b" :: argv_half) = Err InvalidValue
  /\ parse_args ("-c" :: "--help" :: argv_half) = Err InvalidValue
  /\ parse_args ("-c" :: "--threads" :: argv_half) = Err UnknownArgument
  /\ parse_args (argv_half ++ ["-t"; "--"]) = Err InvalidValue
  /\ parse_args (argv_half ++ ["-t"; "--"; "2"]) = Err UnknownArgument
  /\ parse_args (firstn 6 argv_half) = Err MissingRequiredArgument.
Proof. repeat split; vm_compute; reflexivity. Qed.

(** ** Appending options to a command line *)

Lemma classify_escape tok : classify tok = TEscape -> tok = "--".
Proof.
  destruct tok as [| c1 [| c2 r]]; cbn; try discriminate.
  destruct (Ascii.eqb_spec c1 "-"), (Ascii.eqb_spec c2 "-"), r; congruence.
Qed.

(** A rendered number is a value token, not an option. *)
Lemma classify_dec_string n : classify (dec_string n) = TValue.
Proof.
  destruct (dec_aux_head (N.to_nat (N.log2 n)) n EmptyString) as (c & r & Hcr & Hc).
  unfold dec_string; rewrite Nat.add_1_r, Hcr.
  destruct r as [| c2 r]; [reflexivity |]; cbn.
  destruct (Ascii.eqb_spec c "-") as [-> |]; [now elim Hc | reflexivity].
Qed.

(** Without [--], a command line that parses leaves clap ready for more
    options: the arguments after it are parsed from its matches. *)
Lemma clap_parse_app l1 l2 m m1 :
  ~ In "--" l1 -> clap_parse l1 m = Ok m1 -> clap_parse (l1 ++ l2) m = clap_parse l2 m1.
Proof.
  remember (List.length l1) as k eqn:Ek; revert l1 m Ek.
  induction k as [k IH] using lt_wf_ind; intros [| tok rest] m Ek Hin; cbn [clap_parse app].
  - now intros [= <-].
  - destruct (classify tok) eqn:Ec; try discriminate.
    + elim Hin; left; exact (classify_escape _ Ec).
    + destruct (String.eqb name "help"); discriminate.
    + destruct (Ascii.eqb c "h"); [discriminate |]. destruct (opt_of_char c) as [o |]; [| discriminate].
      destruct (attached_value rest0) as [v |].
      * destruct (react m o v) as [m2 |]; cbn [rbind]; [| discriminate].
        apply (IH (List.length rest)); [cbn in Ek; lia | reflexivity | intros H'; apply Hin; now right].
      * destruct rest as [| v rest']; [discriminate |]; cbn [app].
        destruct (classify v); try discriminate.
        destruct (react m o v) as [m2 |]; cbn [rbind]; [| discriminate].
        apply (IH (List.length rest')); [cbn in Ek; lia | reflexivity | intros H'; apply Hin; right; now right].
Qed.

(** [-t N] appended to a command line that parses without [-t] and
    without [--] sets the thread count and nothing else. *)
Lemma parse_args_append_threads argv a n :
  parse_args argv = Ok a -> threads a = None -> ~ In "--" argv -> (Z.of_N n <= usize_max)%Z ->
  parse_args (argv ++ ["-t"; dec_string n])
  = Ok (mk_args (input a) (output a) (compression_rate a) (block_size a) (Some n)).
Proof.
  unfold parse_args; destruct (clap_parse argv no_matches) as [m |] eqn:Hp; cbn [rbind]; [| discriminate].
  intros Ha Ht Hin Hn; rewrite (clap_parse_app _ _ _ _ Hin Hp).
  destruct (m_input m) as [i |] eqn:Ei, (m_output m) as [o |] eqn:Eo, (m_rate m) as [c |] eqn:Ec,
    (m_block m) as [b |] eqn:Eb; try discriminate.
  injection Ha as <-; cbn in Ht |- *; rewrite classify_dec_string.
  unfold react, m_has; rewrite Ht, (parse_usize_dec_string n Hn); cbn.
  now rewrite Ei, Eo, Ec, Eb.
Qed.

(** ** Flags after a command line that parses *)

(** The help flags: [--help], or a short cluster starting with [h]. *)
Definition help_token (tok : string) : Prop :=
  tok = "--help" \/ exists r, tok = String "-" (String "h" r).

Lemma known_short_code c : known_short c = true -> (98 <= nat_of_ascii c)%nat.
Proof.
  unfold known_short, opt_of_char.
  destruct (Ascii.eqb_spec c "h") as [-> | _]; [cbn; lia |].
  destruct (Ascii.eqb_spec c "i") as [-> | _]; [cbn; lia |].
  destruct (Ascii.eqb_spec c "o") as [-> | _]; [cbn; lia |].
  destruct (Ascii.eqb_spec c "c") as [-> | _]; [cbn; lia |].
  destruct (Ascii.eqb_spec c "b") as [-> | _]; [cbn; lia |].
  destruct (Ascii.eqb_spec c "t") as [-> | _]; [cbn; lia | discriminate].
Qed.

(** A digit is no short name clap knows. *)
Lemma known_short_digit d : digit_of d <> None -> known_short d = false.
Proof.
  unfold digit_of; intros Hd.
  destruct (known_short d) eqn:Hk; [| reflexivity]; apply known_short_code in Hk.
  destruct (Nat.leb_spec 48 (nat_of_ascii d)), (Nat.leb_spec (nat_of_ascii d) 57); cbn in Hd;
    [lia | now elim Hd ..].
Qed.

Lemma opt_of_char_not_h c o : opt_of_char c = Some o -> Ascii.eqb c "h" = false.
Proof.
  unfold opt_of_char; intros Ho; destruct (Ascii.eqb_spec c "h") as [-> | _]; [discriminate Ho | reflexivity].
Qed.

(** Help wins over what follows: a help flag after a command line that
    parses without [--] stops clap with [DisplayHelp]. *)
Lemma parse_args_help pre m h post :
  clap_parse pre no_matches = Ok m -> ~ In "--" pre -> help_token h ->
  parse_args (pre ++ h :: post) = Err DisplayHelp.
Proof.
  intros Hp Hin Hh; unfold parse_args; rewrite (clap_parse_app _ _ _ _ Hin Hp).
  destruct Hh as [-> | [r ->]]; reflexivity.
Qed.

(** C27: A negative number cannot be the separate value of an option:
    after a command line that parses without [--], an option given as a
    bare [-X] followed by a token [-d...] whose first character after the
    dash is a digit (such as [-c -1] or [-b -4]) makes [try_parse] fail
    with clap's unexpected argument, whatever follows; the token is read
    as an unknown short flag, not as the option's value. *)
Theorem parse_args_separate_negative pre m x o d r post :
  clap_parse pre no_matches = Ok m -> ~ In "--" pre ->
  opt_of_char x = Some o -> digit_of d <> None ->
  parse_args (pre ++ String "-" (String x EmptyString) :: String "-" (String d r) :: post)
  = Err UnknownArgument.
Proof.
  intros Hp Hin Hx Hd; unfold parse_args; rewrite (clap_parse_app _ _ _ _ Hin Hp).
  cbn [clap_parse classify]; rewrite Ascii.eqb_refl.
  destruct (Ascii.eqb_spec x "-") as [-> | _]; [discriminate Hx |].
  destruct (Ascii.eqb_spec d "-") as [-> | _]; [now elim Hd |].
  rewrite (opt_of_char_not_h _ _ Hx), Hx; cbn [attached_value missing_value_error].
  now rewrite (known_short_digit _ Hd).
Qed.

Lemma parse_args_separate_negative_witness :
  clap_parse ["-i"; "in.png"; "-o"; "out.png"] no_matches
  = Ok (mk_matches (Some "in.png") (Some "out.png") None None None)
  /\ ~ In "--" ["-i"; "in.png"; "-o"; "out.png"]
  /\ opt_of_char "c" = Some OptRate /\ digit_of "1" <> None
  /\ parse_args (["-i"; "in.png"; "-o"; "out.png"] ++ "-c" :: "-1" :: ["-b"; "1"]) = Err UnknownArgument.
Proof.
  assert (Hp : clap_parse ["-i"; "in.png"; "-o"; "out.png"] no_matches
               = Ok (mk_matches (Some "in.png") (Some "out.png") None None None)) by reflexivity.
  assert (Hin : ~ In "--" ["-i"; "in.png"; "-o"; "out.png"])
    by (cbn; intros Hs; repeat (destruct Hs as [Hs | Hs]; [discriminate |]); exact Hs).
  assert (Hd : digit_of "1" <> None) by discriminate.
  split; [exact Hp |]. split; [exact Hin |]. split; [reflexivity |]. split; [exact Hd |].
  pose proof (parse_args_separate_negative _ _ "c" OptRate "1" EmptyString ["-b"; "1"] Hp Hin eq_refl Hd)
    as Hw; exact Hw.
Defined.
