(* ===== verification/Loop.v ===== *)
(** * The cut loop of main.rs (lines 60-63) as a transition system

    [for w in 0..width { let cut = mat.cut(rng);
                         dbg!(w, (mat.squared_norm_l2() / normalization).sqrt()); }]
    is modelled by its small steps: a state holds the loop counter [w],
    the engine, the generator and the [dbg!] output printed so far; one
    step is one iteration, allowed while [w < width].  [loop_next] is the
    executable step and [loop_run] the loop run with fuel.  The theorem
    is the loop's invariant, proved by induction on executions: the
    states met keep the counter at most [width], the engine reachable
    from [create] with one more cut per iteration, and a [dbg!] line per
    iteration printed in the order of the counters. *)

From Stdlib Require Import List Lia Arith ZArith QArith Qcanon.
From Stdlib Require Import SpecFloat.
From S2P Require Import Prelude Scalar Matrix Tiled CutFinder Abstract Engine RustFloat Image Budget Main.
Import ListNotations.
Local Open Scope nat_scope.

Section Loop.
Context {F : Type} `{ScalarOps F} {G : Type} `{Rng G} `{Finder F G}.

(** The value [dbg!] prints for the squared norm read after a cut. *)
Variable dbg_norm : F -> F.
(** The loop bound, [width as usize]. *)
Variable width : nat.

Record LoopState := mk_ls {
  ls_w : nat;
  ls_engine : SctHelper F;
  ls_rng : G;
  ls_trace : list (nat * F)
}.

(** One iteration: [mat.cut(rng)], then [dbg!] of the counter and the
    new norm; the counter steps from [w] to [w + 1]. *)
Inductive loop_step : LoopState -> LoopState -> Prop :=
| loop_cut w e g tr c nrm e' g' :
    w < width -> cut e g = ((c, nrm, e'), g') ->
    loop_step (mk_ls w e g tr)
              (mk_ls (S w) e' g' (tr ++ [(w, dbg_norm (squared_norm_l2 e'))])).

(** The state on entry of the loop. *)
Definition loop_init (e : SctHelper F) (g : G) : LoopState := mk_ls 0 e g [].

(** The executable step: [None] when the range [0..width] is exhausted. *)
Definition loop_next (s : LoopState) : option LoopState :=
  if ls_w s <? width then
    let '((_, _, e'), g') := cut (ls_engine s) (ls_rng s) in
    Some (mk_ls (S (ls_w s)) e' g' (ls_trace s ++ [(ls_w s, dbg_norm (squared_norm_l2 e'))]))
  else None.

(** The loop run with [fuel] iterations at most; [None] when the fuel
    runs out before the exit. *)
Fixpoint loop_run (fuel : nat) (s : LoopState) : option LoopState :=
  match loop_next s with
  | None => Some s
  | Some s' => match fuel with O => None | S f => loop_run f s' end
  end.
End Loop.

Arguments LoopState : clear implicits.
Arguments mk_ls {F G}.
Arguments ls_w {F G}.
Arguments ls_engine {F G}.
Arguments ls_rng {F G}.
Arguments ls_trace {F G}.

Section LoopProps.
Context {F : Type} `{ScalarOps F} {G : Type} `{Rng G} `{Finder F G}.
Variable dbg_norm : F -> F.
Variable width : nat.

Local Abbreviation step := (loop_step dbg_norm width).

Lemma loop_step_next s s' : step s s' <-> loop_next dbg_norm width s = Some s'.
Proof.
  split.
  - intros [w e g tr c nrm e' g' Hw Hc]; unfold loop_next; cbn [ls_w ls_engine ls_rng ls_trace].
    rewrite Hc; apply Nat.ltb_lt in Hw; now rewrite Hw.
  - destruct s as [w e g tr]; unfold loop_next; cbn [ls_w ls_engine ls_rng ls_trace].
    destruct (Nat.ltb_spec w width) as [Hw |]; [| discriminate].
    destruct (cut e g) as [[[c nrm] e'] g'] eqn:Hc; intros E; injection E as <-.
    eapply loop_cut; [exact Hw | exact Hc].
Qed.

Lemma cut_cuts (e : SctHelper F) g c nrm e' g' :
  cut e g = ((c, nrm, e'), g') -> sct_cuts e' = sct_cuts e ++ [c].
Proof.
  unfold cut, bind; destruct (find _ _ _ _ g) as [c0 g0]; unfold ret.
  intros E; injection E as <- _ <- _; reflexivity.
Qed.

(** C19: Invariant of the loop entered with an engine [e] reachable from
    [create]: in every state met, the counter is at most [width], the
    [dbg!] output so far carries the counters [0 .. w - 1] in order, the
    engine is still reachable from [create], and it holds one more cut
    per iteration done. *)
Theorem loop_invariant e g s :
  reachable (G := G) e -> star step (loop_init e g) s ->
  ls_w s <= width /\ map fst (ls_trace s) = seq 0 (ls_w s)
  /\ reachable (G := G) (ls_engine s)
  /\ length (sct_cuts (ls_engine s)) = length (sct_cuts e) + ls_w s.
Proof.
  intros He Hs.
  refine (star_invariant step (fun s => ls_w s <= width /\ map fst (ls_trace s) = seq 0 (ls_w s)
    /\ reachable (G := G) (ls_engine s) /\ length (sct_cuts (ls_engine s)) = length (sct_cuts e) + ls_w s)
    _ _ _ Hs _); [| cbn; repeat split; auto with arith].
  intros x y Hxy; cbv beta; intros (Hw & Htr & Hr & Hl); destruct Hxy as [w e0 g0 tr c nrm e' g' Hlt Hc].
  cbn [ls_w ls_trace ls_engine] in *.
  rewrite map_app, Htr, seq_S, (cut_cuts e0 g0 c nrm e' g' Hc), length_app, Hl.
  repeat split; [lia | | cbn; lia].
  exact (reach_step _ _ Hr (step_cut _ _ g0 g' c nrm Hc)).
Qed.
End LoopProps.

(** [f32::sqrt] is IEEE's correctly rounded square root; [dbg_value]
    is the value line 62 prints, [(norm / normalization).sqrt()]. *)
Definition f32_sqrt : f32 -> f32 := SFsqrt f32_prec f32_emax.

Definition dbg_value (normalization x : f32) : f32 := f32_sqrt (sdiv x normalization).

(** Executions of the loop found by running it. *)
Lemma loop_run_sound {F : Type} `{ScalarOps F} {G : Type} `{Rng G} `{Finder F G}
    (dbg_norm : F -> F) width k s s' :
  loop_run dbg_norm width k s = Some s' ->
  star (loop_step dbg_norm width) s s' /\ irred (loop_step dbg_norm width) s'.
Proof.
  revert s; induction k as [| k IH]; intros s; cbn [loop_run];
    destruct (loop_next dbg_norm width s) as [s1 |] eqn:Hn; try discriminate.
  - intros E; injection E as <-; split; [constructor |].
    intros s1 Hs1; apply loop_step_next in Hs1; congruence.
  - intros Hr; apply loop_step_next in Hn; destruct (IH s1 Hr); eauto using star.
  - intros E; injection E as <-; split; [constructor |].
    intros s1 Hs1; apply loop_step_next in Hs1; congruence.
Qed.

(** ** Concrete runs: the all-100 4 x 4 channel of scenario A, tiles of
    2 rows, a budget of 2 cuts, the all-[false] generator. *)

Definition e_A4 : SctHelper f32 := mk_sct A4 A4 [] 4 4 2 2.

Definition A4_exit : LoopState f32 bit_stream :=
  match loop_run (dbg_value (f32_of_Z 1040400)) 2 2 (loop_init e_A4 []) with
  | Some s => s
  | None => loop_init e_A4 []
  end.

Lemma A4_exit_run : loop_run (dbg_value (f32_of_Z 1040400)) 2 2 (loop_init e_A4 []) = Some A4_exit.
Proof. vm_compute; reflexivity. Qed.

Lemma loop_invariant_witness :
  reachable (G := bit_stream) e_A4
  /\ star (loop_step (dbg_value (f32_of_Z 1040400)) 2) (loop_init e_A4 []) A4_exit
  /\ (ls_w A4_exit <= 2 /\ map fst (ls_trace A4_exit) = seq 0 (ls_w A4_exit)
      /\ reachable (G := bit_stream) (ls_engine A4_exit)
      /\ length (sct_cuts (ls_engine A4_exit)) = length (sct_cuts e_A4) + ls_w A4_exit).
Proof.
  assert (He : reachable (G := bit_stream) e_A4)
    by (apply (reach_create 4 4 A4 2 2); [exact mat_wf_A4 | reflexivity]).
  destruct (loop_run_sound _ _ _ _ _ A4_exit_run) as [Hs _].
  split; [exact He | split; [exact Hs |]].
  pose proof (loop_invariant (dbg_value (f32_of_Z 1040400)) 2 e_A4 [] A4_exit He Hs) as Hw; exact Hw.
Defined.
