(* ===== verification/MainIO.v ===== *)
(** * The effects of [fn main]: arguments, input file, output file

    Lines 28-36 and 73-74 of main.rs: [Args::try_parse()?] ([Cli]),
    [open(input)?.into_rgb8()], the computation of [Main.main_model],
    [out.save(output)?], [Ok(())].  The file system is a store from
    paths to what [image::open] makes of each file ([Decodable] 8-bit
    [DynamicImage], converted by [into_rgb8], or
    [Undecodable] bytes; a missing path is [None]) with the paths a save
    may write.  An error propagated by [?] ends [main] with [Err] (exit
    code 1); a panic of the computation aborts before anything is
    written (exit code 101).  The theorems: [main] succeeds exactly when
    the command line parses, the input decodes, the computation does not
    panic and the output can be written, and then the output path holds
    the computed image; in every run no file other than the output
    changes, and a run that does not succeed changes nothing; [--help]
    exits through the error path; the thread count changes nothing. *)

From Stdlib Require Import String List Lia Arith ZArith PrimFloat.
From S2P Require Import Prelude Scalar Matrix Tiled CutFinder Abstract Engine RustFloat Image Budget Main Cli.
Import ListNotations.
Local Open Scope string_scope.

(** What [image::open] finds at a path: an image of one of the 8-bit
    colour types, or bytes it cannot decode. *)
Inductive FileData := Decodable (img : DynamicImage) | Undecodable.

(** The file system: contents by path, and the paths [save] can write
    (an existing directory, a writable file, an extension [image] knows). *)
Record World := mk_world {
  files : string -> option FileData;
  can_write : string -> bool
}.

(** The reports [eyre] carries out of [main]: clap's error (its help
    text included), [image]'s open and save errors. *)
Inductive IoError := ArgsError (e : ClapError) | OpenMissing | DecodeError | SaveError.

(** How a run of [main] ends. *)
Inductive Exit := ExitOk | ExitErr (e : IoError) | ExitPanic (p : Panic).

Definition exit_code (x : Exit) : Z :=
  match x with ExitOk => 0 | ExitErr _ => 1 | ExitPanic _ => 101 end.

Definition world_write (w : World) (path : string) (d : FileData) : World :=
  mk_world (fun p => if String.eqb p path then Some d else files w p) (can_write w).

(** Line 36: [open(input)?.into_rgb8()]. *)
Definition open_image (w : World) (path : string) : result RgbImage IoError :=
  match files w path with
  | None => Err OpenMissing
  | Some Undecodable => Err DecodeError
  | Some (Decodable img) => Ok (into_rgb8 img)
  end.

(** Line 73: [out.save(output)?]; the encoding is taken lossless (PNG),
    so the saved file decodes to the image written. *)
Definition save_image (w : World) (path : string) (img : RgbImage) : result World IoError :=
  if can_write w path then Ok (world_write w path (Decodable (ImageRgb8 img))) else Err SaveError.

Section MainIO.
Context {G : Type} `{Rng G}.
Variable seed0 : G.

(** [fn main], lines 28-75, from the arguments after the program name
    and the file system. *)
Definition main_io (argv : list string) (w : World) : Exit * World :=
  match parse_args argv with
  | Err e => (ExitErr (ArgsError e), w)
  | Ok args =>
      match open_image w (input args) with
      | Err e => (ExitErr e, w)
      | Ok img =>
          match main_model seed0 args img with
          | Err p => (ExitPanic p, w)
          | Ok out =>
              match save_image w (output args) out with
              | Err e => (ExitErr e, w)
              | Ok w' => (ExitOk, w')
              end
          end
      end
  end.
End MainIO.

Section MainIOProps.
Context {G : Type} `{Rng G}.
Variable seed0 : G.

Lemma save_image_ok w path img w' :
  save_image w path img = Ok w' <->
  can_write w path = true /\ w' = world_write w path (Decodable (ImageRgb8 img)).
Proof.
  unfold save_image; destruct (can_write w path); split;
    [intros E; injection E as <-; auto | intros [_ ->]; reflexivity | discriminate | intros [E _]; discriminate].
Qed.

Lemma world_write_frame w path d p : p <> path -> files (world_write w path d) p = files w p.
Proof. intros Hp; cbn; apply String.eqb_neq in Hp; now rewrite Hp. Qed.

(** C21: Success of [main]: a run ends with [Ok(())] and file system
    [w'] exactly when the command line parses to [a], the input path
    holds a decodable image [img], the computation on [into_rgb8 img] does not
    panic but yields [out], and the output path can be written; [w'] is
    then [w] with the output path holding [out]. *)
Theorem main_io_ok argv w w' :
  main_io seed0 argv w = (ExitOk, w') <->
  exists a img out, parse_args argv = Ok a /\ files w (input a) = Some (Decodable img)
    /\ main_model seed0 a (into_rgb8 img) = Ok out /\ can_write w (output a) = true
    /\ w' = world_write w (output a) (Decodable (ImageRgb8 out)).
Proof.
  unfold main_io, open_image; split.
  - destruct (parse_args argv) as [a |]; [| discriminate].
    destruct (files w (input a)) as [[img |] |] eqn:Hf; try discriminate.
    destruct (main_model seed0 a (into_rgb8 img)) as [out | p] eqn:Hm; [| discriminate].
    destruct (save_image w (output a) out) as [w1 |] eqn:Hs; [| discriminate].
    intros E; injection E as <-; apply save_image_ok in Hs as [Hw ->].
    exists a, img, out; auto.
  - intros (a & img & out & Ha & Hf & Hm & Hw & ->); rewrite Ha, Hf, Hm.
    assert (Hs : save_image w (output a) out = Ok (world_write w (output a) (Decodable (ImageRgb8 out))))
      by (apply save_image_ok; auto).
    now rewrite Hs.
Qed.

(** C22: Frame of [main]: a run that does not end with [Ok(())] leaves
    the file system as it was, and no run changes a file other than the
    output path, nor which paths can be written. *)
Theorem main_io_frame argv w :
  let '(x, w') := main_io seed0 argv w in
  (x <> ExitOk -> w' = w)
  /\ can_write w' = can_write w
  /\ (forall a, parse_args argv = Ok a -> forall p, p <> output a -> files w' p = files w p).
Proof.
  unfold main_io, open_image.
  destruct (parse_args argv) as [a |]; [| repeat split; intros; congruence].
  destruct (files w (input a)) as [[img |] |]; [| repeat split; intros; congruence ..].
  destruct (main_model seed0 a (into_rgb8 img)) as [out | p]; [| repeat split; intros; congruence].
  destruct (save_image w (output a) out) as [w1 |] eqn:Hs; [| repeat split; intros; congruence].
  apply save_image_ok in Hs as [_ ->].
  split; [congruence | split; [reflexivity |]].
  intros a' E p Hp; injection E as <-; exact (world_write_frame w (output a) _ p Hp).
Qed.

(** C29: The thread-count option has no effect: appending [-t N] (any
    [usize] [N]) to a command line that parses without [-t] and without
    [--] gives the same exit and the same file system, whatever the
    files; [threads] is parsed but never read. *)
Theorem main_io_threads_ignored argv w n a :
  parse_args argv = Ok a -> threads a = None -> ~ In "--" argv -> (Z.of_N n <= usize_max)%Z ->
  main_io seed0 (argv ++ ["-t"; dec_string n]) w = main_io seed0 argv w.
Proof.
  intros Ha Ht Hin Hn; unfold main_io.
  rewrite (parse_args_append_threads argv a n Ha Ht Hin Hn), Ha.
  destruct a as [i o c b t]; reflexivity.
Qed.
(** C26: Help goes through [try_parse()?]: after any command line that
    parses without [--], a help flag ([--help], or a short cluster
    starting with [h]) makes [main] end with clap's help text as its
    error report, whose exit code is 1, not the 0 of a help request,
    whatever follows and whatever the files; nothing is written. *)
Theorem main_io_help pre m h post w :
  clap_parse pre no_matches = Ok m -> ~ In "--" pre -> help_token h ->
  main_io seed0 (pre ++ h :: post) w = (ExitErr (ArgsError DisplayHelp), w)
  /\ exit_code (ExitErr (ArgsError DisplayHelp)) = 1%Z.
Proof.
  intros Hp Hin Hh; unfold main_io; rewrite (parse_args_help _ _ _ post Hp Hin Hh).
  split; reflexivity.
Qed.

End MainIOProps.

(** ** Runs on a small file system: [in.png] holds the 3 x 2 image of
    [Main], [out.png] can be written, nothing else exists. *)

Definition w0 : World :=
  mk_world (fun p => if String.eqb p "in.png" then Some (Decodable (ImageRgb8 img3x2)) else None)
           (fun p => String.eqb p "out.png").

Definition argv_of (rate block out : string) : list string :=
  ["-i"; "in.png"; "-o"; out; "-c"; rate; "-b"; block].

(** The rate-1 run writes the image of the three channel means. *)
Example main_io_one_cut :
  let '(x, w') := main_io (G := bit_stream) [true; false; true] (argv_of "1" "1" "out.png") w0 in
  exit_code x = 0%Z
  /\ files w' "out.png" = Some (Decodable (ImageRgb8 (mk_image 3 2 (repeat (85, 95, 105)%Z 6))))
  /\ files w' "in.png" = Some (Decodable (ImageRgb8 img3x2)).
Proof. vm_compute; repeat split. Qed.

(** A block size of 0 aborts with a panic (exit code 101) instead of the
    configuration error spec 7 asks to report; nothing is written. *)
Example main_io_zero_block :
  main_io (G := bit_stream) [] (argv_of "1" "0" "out.png") w0 = (ExitPanic PanicConfig, w0).
Proof. vm_compute; reflexivity. Qed.

(** An output path [save] cannot write ends with an error report (exit
    code 1) after the whole computation; nothing is written. *)
Example main_io_unwritable :
  main_io (G := bit_stream) [] (argv_of "1" "1" "out.txt") w0 = (ExitErr SaveError, w0).
Proof. vm_compute; reflexivity. Qed.

(** A negative rate given attached ([-c-1]) is accepted and the program
    writes a black image; given separate ([-c -1]) it is rejected by clap
    ([Cli.parse_args_separate_negative]). *)
Example main_io_negative_rate :
  main_io (G := bit_stream) [] (argv_of "-1" "1" "out.png") w0 = (ExitErr (ArgsError UnknownArgument), w0)
  /\ files (snd (main_io (G := bit_stream) [] ["-i"; "in.png"; "-o"; "out.png"; "-c-1"; "-b"; "1"] w0))
       "out.png" = Some (Decodable (ImageRgb8 (mk_image 3 2 (repeat (0, 0, 0)%Z 6)))).
Proof. split; vm_compute; reflexivity. Qed.

Lemma main_io_help_witness :
  clap_parse ["-i"; "in.png"] no_matches = Ok (mk_matches (Some "in.png") None None None None)
  /\ ~ In "--" ["-i"; "in.png"] /\ help_token "-h"
  /\ (main_io (G := bit_stream) [] (["-i"; "in.png"] ++ "-h" :: ["-b"; "1"]) w0
      = (ExitErr (ArgsError DisplayHelp), w0)
      /\ exit_code (ExitErr (ArgsError DisplayHelp)) = 1%Z).
Proof.
  assert (Hp : clap_parse ["-i"; "in.png"] no_matches = Ok (mk_matches (Some "in.png") None None None None))
    by reflexivity.
  assert (Hin : ~ In "--" ["-i"; "in.png"])
    by (cbn; intros Hs; repeat (destruct Hs as [Hs | Hs]; [discriminate |]); exact Hs).
  assert (Hh : help_token "-h") by (right; exists EmptyString; reflexivity).
  split; [exact Hp |]. split; [exact Hin |]. split; [exact Hh |].
  pose proof (main_io_help (G := bit_stream) [] _ _ "-h" ["-b"; "1"] w0 Hp Hin Hh) as Hw; exact Hw.
Defined.

Lemma main_io_threads_ignored_witness :
  parse_args (argv_of "1" "1" "out.png") = Ok (mk_args "in.png" "out.png" 1%float 1 None)
  /\ threads (mk_args "in.png" "out.png" 1%float 1 None) = None
  /\ ~ In "--" (argv_of "1" "1" "out.png") /\ (Z.of_N 8 <= usize_max)%Z
  /\ main_io (G := bit_stream) [true; false; true] (argv_of "1" "1" "out.png" ++ ["-t"; dec_string 8]) w0
     = main_io (G := bit_stream) [true; false; true] (argv_of "1" "1" "out.png") w0.
Proof.
  assert (Hp : parse_args (argv_of "1" "1" "out.png") = Ok (mk_args "in.png" "out.png" 1%float 1 None))
    by (vm_compute; reflexivity).
  assert (Hin : ~ In "--" (argv_of "1" "1" "out.png"))
    by (cbn; intros Hs; repeat (destruct Hs as [Hs | Hs]; [discriminate |]); exact Hs).
  assert (Hn : (Z.of_N 8 <= usize_max)%Z) by (vm_compute; discriminate).
  split; [exact Hp |]. split; [reflexivity |]. split; [exact Hin |]. split; [exact Hn |].
  pose proof (main_io_threads_ignored [true; false; true] (argv_of "1" "1" "out.png") w0 8 _
                Hp eq_refl Hin Hn) as Hw; exact Hw.
Defined.

(** A gray file ([Luma8]) is read through [into_rgb8] and written back
    as a gray RGB image. *)
Example main_io_gray_file :
  files (snd (main_io (G := bit_stream) [true; false; true] (argv_of "1" "1" "out.png")
                (mk_world (fun p => if String.eqb p "in.png" then Some (Decodable luma3x2) else None)
                          (can_write w0))))
        "out.png" = Some (Decodable (ImageRgb8 (mk_image 3 2 (repeat (85, 85, 85)%Z 6)))).
Proof. vm_compute; reflexivity. Qed.
