(* ===== verification/Trace.v ===== *)
(** * The [dbg!] output of main.rs (lines 50 and 62)

    [main] prints [dbg!(nbits_per_color, nbits_per_cut)] once, after the
    bit counts (line 50), then for each channel in turn, red, green,
    blue, [dbg!(w, (norm / normalization).sqrt())] after each cut
    (line 62).  [main_traced] runs [main] as [Main.main_model] does and
    collects these lines; a panic ends the run with the lines printed so
    far.  The theorems: a run that writes its image printed the bit
    counts, then the red, green and blue loops' lines, each the counter
    and the relative residual after each cut; a configuration panic
    comes after the bit counts and before any loop line. *)

From Stdlib Require Import String List Lia Arith ZArith PrimFloat SpecFloat.
From S2P Require Import Prelude Scalar Matrix Tiled CutFinder Abstract Engine RustFloat Image Budget Main Loop.
Import ListNotations.

(** One line of [dbg!] output. *)
Inductive DbgLine :=
| DbgBits (nbits_color nbits_cut : Z)
| DbgNorm (w : nat) (x : f32).

Section Traced.
Context {G : Type} `{Rng G}.
Variable seed0 : G.

(** Lines 57-65 for one channel, with its [dbg!] lines. *)
Definition channel_traced (e : SctHelper f32) (nrows ncols : nat) (width : Z)
  : result (list DbgLine * list (list f32)) Panic :=
  nrm <-? normalization (Z.of_nat nrows) (Z.of_nat ncols) ;;
  let '((ns, e'), _) := run_cuts (Z.to_nat width) e seed0 in
  Ok (map (fun '(w, x) => DbgNorm w x) (combine (seq 0 (Z.to_nat width)) (map (dbg_value nrm) ns)),
      expand e').

(** [fn main] (lines 28-75) with its [dbg!] output: the lines printed,
    and the image to write or the panic that ended the run. *)
Definition main_traced (args : Args) (img : RgbImage) : list DbgLine * result RgbImage Panic :=
  let nrows := img_width img in
  let ncols := img_height img in
  match decode_channels img with
  | Err p => ([], Err p)
  | Ok (mr, mg, mb) =>
  match nbits_per_color (Z.of_nat nrows) (Z.of_nat ncols) with
  | Err p => ([], Err p)
  | Ok nbc =>
  match nbits_per_cut (Z.of_nat nrows) (Z.of_nat ncols) with
  | Err p => ([], Err p)
  | Ok nbk =>
  let out0 := [DbgBits nbc nbk] in
  let width := cut_budget (compression_rate args) nbc nbk in
  match make_engine mr nrows ncols (block_size args) width,
        make_engine mg nrows ncols (block_size args) width,
        make_engine mb nrows ncols (block_size args) width with
  | Err p, _, _ | Ok _, Err p, _ | Ok _, Ok _, Err p => (out0, Err p)
  | Ok er, Ok eg, Ok eb =>
  match channel_traced er nrows ncols width with
  | Err p => (out0, Err p)
  | Ok (tr, r) =>
  match channel_traced eg nrows ncols width with
  | Err p => (out0 ++ tr, Err p)
  | Ok (tg, g) =>
  match channel_traced eb nrows ncols width with
  | Err p => (out0 ++ tr ++ tg, Err p)
  | Ok (tb, b) => (out0 ++ tr ++ tg ++ tb, encode_image nrows ncols (r, g, b))
  end end end end end end end.
End Traced.

(** The counter of a [dbg!] line of the loop. *)
Definition dbg_counter (l : DbgLine) : option nat :=
  match l with DbgNorm w _ => Some w | DbgBits _ _ => None end.

(** [k] iterations record [k] norms. *)
Lemma run_cuts_length {F : Type} `{ScalarOps F} {G : Type} `{Rng G} `{Finder F G}
    k (e : SctHelper F) (s : G) :
  List.length (fst (fst (run_cuts k e s))) = k.
Proof.
  revert e s; induction k as [| k IH]; intros e s; [reflexivity |]; cbn [run_cuts]; unfold bind.
  destruct (cut e s) as [[[c nrm] e1] s1]; specialize (IH e1 s1).
  destruct (run_cuts k e1 s1) as [[ns e2] s2]; cbn in *; now rewrite IH.
Qed.

Lemma dbg_counters s (xs : list f32) :
  map dbg_counter (map (fun '(w, x) => DbgNorm w x) (combine (seq s (List.length xs)) xs))
  = map Some (seq s (List.length xs)).
Proof. revert s; induction xs as [| x xs IH]; intros s; [reflexivity |]; cbn; f_equal; apply IH. Qed.

(** The counters of a channel's lines: [0 .. k - 1]. *)
Lemma dbg_counters_run_cuts {G : Type} `{Rng G} (f : f32 -> f32) k (e : SctHelper f32) (g : G) :
  map dbg_counter (map (fun '(w, x) => DbgNorm w x) (combine (seq 0 k) (map f (fst (fst (run_cuts k e g))))))
  = map Some (seq 0 k).
Proof.
  pose proof (dbg_counters 0 (map f (fst (fst (run_cuts k e g))))) as Hd.
  now rewrite length_map, run_cuts_length in Hd.
Qed.

Section TracedProps.
Context {G : Type} `{Rng G}.
Variable seed0 : G.

Lemma channel_traced_err (e : SctHelper f32) n m width p :
  channel_traced seed0 e n m width = Err p -> p = PanicOverflow.
Proof.
  unfold channel_traced; destruct (normalization _ _) eqn:Hn; cbn [rbind].
  - now destruct (run_cuts _ e seed0) as [[ns e'] g'].
  - intros E; injection E as <-; exact (normalization_err _ _ _ Hn).
Qed.

Lemma channel_traced_lines (e : SctHelper f32) n m width t x :
  channel_traced seed0 e n m width = Ok (t, x) ->
  map dbg_counter t = map Some (seq 0 (Z.to_nat width)).
Proof.
  unfold channel_traced; destruct (normalization _ _) as [nrm |]; cbn [rbind]; [| discriminate].
  pose proof (run_cuts_length (Z.to_nat width) e seed0) as Hl.
  destruct (run_cuts _ e seed0) as [[ns e'] g']; cbn in Hl.
  intros E; injection E as <- _.
  rewrite <- Hl, <- (length_map (dbg_value nrm) ns); apply dbg_counters.
Qed.

(** The lines of one channel, in order, and the matrix it writes. *)
Lemma channel_traced_ok (e : SctHelper f32) n m width t x :
  channel_traced seed0 e n m width = Ok (t, x) ->
  exists nrm, normalization (Z.of_nat n) (Z.of_nat m) = Ok nrm
  /\ t = map (fun '(w, y) => DbgNorm w y)
           (combine (seq 0 (Z.to_nat width))
              (map (dbg_value nrm) (fst (fst (run_cuts (Z.to_nat width) e seed0)))))
  /\ x = expand (snd (fst (run_cuts (Z.to_nat width) e seed0))).
Proof.
  unfold channel_traced; destruct (normalization _ _) as [nrm |]; cbn [rbind]; [| discriminate].
  destruct (run_cuts _ e seed0) as [[ns e'] g']; intros E; injection E as <- <-.
  exists nrm; auto.
Qed.

(** Case analysis of a traced run along its steps, in hypothesis [H]. *)
Ltac traced_cases H :=
  repeat match type of H with
  | context [match ?x with Ok _ => _ | Err _ => _ end] =>
      let E := fresh "E" in destruct x eqn:E
  | context [match ?x with (_, _) => _ end] => destruct x
  end.

(** Writing the output never fails with a configuration panic. *)
Lemma encode_image_not_config n m mats p : encode_image n m mats = Err p -> p <> PanicConfig.
Proof.
  unfold encode_image; destruct (mapR _ _) as [px | q] eqn:Hm; cbn [rbind]; [discriminate |].
  intros E; injection E as <-; apply mapR_Err in Hm as (k & _ & Hk).
  unfold encode_pixel, mat_get in Hk; destruct mats as [[mr mg] mb].
  repeat match type of Hk with
  | rbind (match ?x with Some _ => _ | None => _ end) _ = _ => destruct x; cbn [rbind] in Hk
  | rbind (match ?x with Some _ => _ | None => _ end) _ = _ => destruct x; cbn [rbind] in Hk
  | rbind (to_u8 ?x) _ = _ =>
      let Ht := fresh "Ht" in destruct (to_u8 x) eqn:Ht; cbn [rbind] in Hk;
      [| injection Hk as <-; apply to_u8_err in Ht; congruence]
  | Err _ = Err _ => injection Hk as <-; discriminate
  | Ok _ = Err _ => discriminate Hk
  end.
Qed.

(** C24: The [dbg!] output of a run that writes its image, in order:
    first the bit counts [nbits_per_color] and [nbits_per_cut] (line 50),
    then the lines of the red channel's loop, then the green's, then the
    blue's (line 62).  The loop of channel [c] starts from the engine
    built on channel [c] of the image and from the generator [seed0], and
    prints for [w = 0 .. width - 1] the pair of [w] and
    [(norm / normalization).sqrt()], with [norm] the squared norm of the
    residual after cut [w] and [width] the budget derived from the bit
    counts; each channel prints [width] lines, counted from 0. *)
Theorem main_traced_lines (args : Args) (img : RgbImage) t out :
  main_traced seed0 args img = (t, Ok out) ->
  exists nbc nbk nrm,
    nbits_per_color (Z.of_nat (img_width img)) (Z.of_nat (img_height img)) = Ok nbc
    /\ nbits_per_cut (Z.of_nat (img_width img)) (Z.of_nat (img_height img)) = Ok nbk
    /\ normalization (Z.of_nat (img_width img)) (Z.of_nat (img_height img)) = Ok nrm
    /\ let k := Z.to_nat (cut_budget (compression_rate args) nbc nbk) in
       let lines c := map (fun '(w, x) => DbgNorm w x)
         (combine (seq 0 k) (map (dbg_value nrm) (fst (fst (run_cuts k
            (mk_sct (chan_mat img c) (chan_mat img c) [] (img_width img) (img_height img)
                    (N.to_nat (block_size args)) k) seed0))))) in
       t = DbgBits nbc nbk :: lines 0 ++ lines 1 ++ lines 2
       /\ forall c, map dbg_counter (lines c) = map Some (seq 0 k).
Proof.
  unfold main_traced; rewrite decode_channels_chan_mat; intros Hrun; traced_cases Hrun; try discriminate.
  injection Hrun as <- _.
  repeat match goal with
  | Hm : make_engine _ _ _ _ _ = Ok _ |- _ => apply make_engine_dims in Hm as (_ & _ & ->)
  | Hc : channel_traced _ _ _ _ _ = Ok _ |- _ => apply channel_traced_ok in Hc as (? & ? & -> & _)
  end.
  match goal with Hn : normalization _ _ = Ok ?nrm |- _ => eexists; eexists; exists nrm end.
  split; [reflexivity | split; [reflexivity | split; [assumption |]]].
  split; [repeat f_equal; congruence |].
  intros c; rewrite dbg_counters_run_cuts; reflexivity.
Qed.

(** C25: A configuration panic (a block size of 0) happens after the bit
    counts are printed and before any loop prints: the output of such a
    run is the single line of line 50. *)
Theorem main_traced_config_panic (args : Args) (img : RgbImage) t :
  main_traced seed0 args img = (t, Err PanicConfig) ->
  exists nbc nbk,
    nbits_per_color (Z.of_nat (img_width img)) (Z.of_nat (img_height img)) = Ok nbc
    /\ nbits_per_cut (Z.of_nat (img_width img)) (Z.of_nat (img_height img)) = Ok nbk
    /\ t = [DbgBits nbc nbk].
Proof.
  unfold main_traced; rewrite decode_channels_chan_mat; intros Hrun; traced_cases Hrun;
    injection Hrun as <- Hp; subst;
    try match goal with
        | Hn : nbits_per_color _ _ = Err _ |- _ => apply nbits_per_color_err in Hn; discriminate
        | Hn : nbits_per_cut _ _ = Err _ |- _ => apply nbits_per_cut_err in Hn; discriminate
        | Hc : channel_traced _ _ _ _ _ = Err _ |- _ => apply channel_traced_err in Hc; discriminate
        | He : encode_image _ _ _ = Err _ |- _ => elim (encode_image_not_config _ _ _ _ He); reflexivity
        end;
    do 2 eexists; (split; [reflexivity | split; [reflexivity | reflexivity]]).
Qed.
End TracedProps.

(** ** The output of concrete runs on the 3 x 2 image of [Main] *)

(** At rate 1 (one cut per channel) the program prints the bit counts
    48 and 37, then for each channel [w = 0] with the relative residual
    [sqrt(15750 / (255^2 * 6))], about 0.2009, in [f32]. *)
Example main_traced_one_cut :
  main_traced (G := bit_stream) [true; false; true] (args_rate 1%float 1) img3x2
  = ([DbgBits 48 37; DbgNorm 0 (S754_finite false 13483554 (-26));
      DbgNorm 0 (S754_finite false 13483554 (-26)); DbgNorm 0 (S754_finite false 13483554 (-26))],
     Ok (mk_image 3 2 (repeat (85, 95, 105)%Z 6))).
Proof. vm_compute; reflexivity. Qed.

Lemma main_traced_lines_witness :
  main_traced (G := bit_stream) [true; false; true] (args_rate 1%float 1) img3x2
  = (fst (main_traced (G := bit_stream) [true; false; true] (args_rate 1%float 1) img3x2),
     Ok (mk_image 3 2 (repeat (85, 95, 105)%Z 6)))
  /\ exists nbc nbk nrm,
    nbits_per_color (Z.of_nat (img_width img3x2)) (Z.of_nat (img_height img3x2)) = Ok nbc
    /\ nbits_per_cut (Z.of_nat (img_width img3x2)) (Z.of_nat (img_height img3x2)) = Ok nbk
    /\ normalization (Z.of_nat (img_width img3x2)) (Z.of_nat (img_height img3x2)) = Ok nrm
    /\ let k := Z.to_nat (cut_budget (compression_rate (args_rate 1%float 1)) nbc nbk) in
       let lines c := map (fun '(w, x) => DbgNorm w x)
         (combine (seq 0 k) (map (dbg_value nrm) (fst (fst (run_cuts k
            (mk_sct (chan_mat img3x2 c) (chan_mat img3x2 c) [] (img_width img3x2) (img_height img3x2)
                    (N.to_nat (block_size (args_rate 1%float 1))) k) (G := bit_stream) [true; false; true]))))) in
       fst (main_traced (G := bit_stream) [true; false; true] (args_rate 1%float 1) img3x2)
       = DbgBits nbc nbk :: lines 0 ++ lines 1 ++ lines 2
       /\ forall c, map dbg_counter (lines c) = map Some (seq 0 k).
Proof.
  assert (Hr : main_traced (G := bit_stream) [true; false; true] (args_rate 1%float 1) img3x2
    = (fst (main_traced (G := bit_stream) [true; false; true] (args_rate 1%float 1) img3x2),
       Ok (mk_image 3 2 (repeat (85, 95, 105)%Z 6)))) by (vm_compute; reflexivity).
  split; [exact Hr |].
  pose proof (main_traced_lines [true; false; true] (args_rate 1%float 1) img3x2 _ _ Hr) as Hw; exact Hw.
Defined.

Lemma main_traced_config_panic_witness :
  main_traced (G := bit_stream) [] (args_rate 1%float 0) img3x2 = ([DbgBits 48 37], Err PanicConfig)
  /\ exists nbc nbk,
    nbits_per_color (Z.of_nat (img_width img3x2)) (Z.of_nat (img_height img3x2)) = Ok nbc
    /\ nbits_per_cut (Z.of_nat (img_width img3x2)) (Z.of_nat (img_height img3x2)) = Ok nbk
    /\ [DbgBits 48 37] = [DbgBits nbc nbk].
Proof.
  assert (Hr : main_traced (G := bit_stream) [] (args_rate 1%float 0) img3x2 = ([DbgBits 48 37], Err PanicConfig))
    by (vm_compute; reflexivity).
  split; [exact Hr |].
  pose proof (main_traced_config_panic [] (args_rate 1%float 0) img3x2 _ Hr) as Hw; exact Hw.
Defined.
